(** * STLib.sensor: the sensor accumulation pipeline

    A shallow embedding of [src/STLib/sensor.py] (class [Sensor]) and the
    properties of its image-formation pipeline.

    Modelling conventions.
    - numpy [float64] values are modelled by exact rationals [Q]: the
      properties below are about ordering, [floor], [ceil], [min] and
      [max], and the concrete inputs used are exactly representable.
      Non-finite values ([inf], [nan]) do not exist in [Q]; where the
      source would produce one and convert it with [int(...)], the model
      raises [NonFinite].
    - astropy units are erased; the one numeric unit conversion (the
      dark-current equivalency) is written out as a factor.
    - a 2-D numpy array is a list of rows ([grid]).
    - the global numpy generator is an explicit state [rng], threaded
      through every call of [np.random.poisson].
    - Python exceptions are the [Raise] outcome of a state-and-error
      monad: the sensor and the generator keep the state they had when
      the exception was raised. *)

From Stdlib Require Import ZArith QArith Qround Qminmax Lia Lqa List.
From stdpp Require Import gmap strings.

Local Open Scope Q_scope.

(** ** Numeric helpers (numpy scalar functions on rationals) *)

(** [np.round]: round half to even. *)
Definition np_round (q : Q) : Z :=
  let f := Qfloor q in
  let d := q - inject_Z f in
  if Qlt_le_dec d (1 # 2) then f
  else if Qlt_le_dec (1 # 2) d then (f + 1)%Z
  else if Z.even f then f else (f + 1)%Z.

Definition Qleb_dec (a b : Q) : bool := if Qlt_le_dec b a then false else true.
Definition Qltb_dec (a b : Q) : bool := if Qlt_le_dec a b then true else false.
Definition Qis_zero (a : Q) : bool := Qeq_bool a 0.

(** ** Arrays *)

Definition grid (A : Type) := list (list A).

(** [np.zeros((h, w))] *)
Definition np_zeros (h w : nat) : grid Q := repeat (repeat 0 w) h.

(** [a.shape == (h, w)] for a 2-D array given as a list of rows. *)
Definition has_shape {A} (h w : Z) (a : grid A) : bool :=
  (Z.of_nat (length a) =? h)%Z && forallb (fun row => (Z.of_nat (length row) =? w)%Z) a.

(** Element-wise operations on arrays of the same shape. *)
Definition grid_map {A B} (f : A -> B) (a : grid A) : grid B := map (map f) a.
Definition grid_map2 {A B C} (f : A -> B -> C) (a : grid A) (b : grid B) : grid C :=
  zip_with (zip_with f) a b.

(** What [np.asanyarray] makes of an [ArrayLike] argument, by [ndim]. *)
Inductive ndarray (A : Type) :=
| Arr0 (v : A)                 (* ndim == 0 *)
| Arr1 (v : list A)            (* ndim == 1 *)
| Arr2 (v : grid A)            (* ndim == 2 *)
| ArrN.                        (* ndim >= 3 *)
Arguments Arr0 {A} v.
Arguments Arr1 {A} v.
Arguments Arr2 {A} v.
Arguments ArrN {A}.

(** ** Outcomes *)

Inductive exn :=
| ValueError_dims          (* np.zeros: negative dimensions are not allowed *)
| ValueError_hot_pixels    (* Argument `hot_pixels` must be None or 2D array_like ... *)
| ValueError_bias          (* _ERR_bias *)
| ValueError_bloom         (* Argument `bloom` must be a subset of ... *)
| ValueError_lam           (* np.random.poisson: lam < 0 *)
| ValueError_broadcast     (* operands could not be broadcast together *)
| NonFinite.               (* int() of inf or nan after a division by zero *)

Inductive result (A : Type) :=
| Ok (a : A)
| Raise (e : exn)
| OutOfFuel.               (* the model's loop budget ran out; not a Python outcome *)
Arguments Ok {A} a.
Arguments Raise {A} e.
Arguments OutOfFuel {A}.

(** ** The sensor *)

Record Sensor := mkSensor {
  width_px     : Z;
  height_px    : Z;
  pixels       : grid Q;
  px_len_x     : Q;
  px_len_y     : Q;
  px_area      : Q;
  px_pitch_x   : Q;
  px_pitch_y   : Q;
  width        : Q;
  height       : Q;
  quantum_eff  : Q;
  dark_current : Q -> Q;
  hot_pixels   : grid Q;
  read_noise   : Q;
  gain         : Q;
  bias         : ndarray Z;
  full_well    : Q;
  adc_limit    : Z;
  bloom        : gset string;
  readout_time : Q
}.

Definition set_pixels (s : Sensor) (p : grid Q) : Sensor :=
  {| width_px := width_px s; height_px := height_px s; pixels := p;
     px_len_x := px_len_x s; px_len_y := px_len_y s; px_area := px_area s;
     px_pitch_x := px_pitch_x s; px_pitch_y := px_pitch_y s;
     width := width s; height := height s; quantum_eff := quantum_eff s;
     dark_current := dark_current s; hot_pixels := hot_pixels s;
     read_noise := read_noise s; gain := gain s; bias := bias s;
     full_well := full_well s; adc_limit := adc_limit s; bloom := bloom s;
     readout_time := readout_time s |}.

(** The [bias] block of [__init__] (lines 72-88).  Note the [if] (not
    [elif]) after the length-1 test. *)
Definition init_bias (width_px height_px : Z) (bias : ndarray Z) : result (ndarray Z) :=
  match bias with
  | Arr0 v => Ok (Arr0 v)
  | Arr1 v =>
      (* if len(bias) == 1: pass *)
      if (Z.of_nat (length v) =? width_px)%Z
      then Ok (Arr2 (repeat v (Z.to_nat height_px)))        (* np.tile(bias, (height_px, 1)) *)
      else Raise ValueError_bias
  | Arr2 v =>
      if negb (has_shape height_px width_px v)
      then Raise ValueError_bias
      else Ok (Arr2 v)
  | ArrN => Raise ValueError_bias
  end.

(** The [hot_pixels] block of [__init__] (lines 62-67). *)
Definition init_hot_pixels (width_px height_px : Z) (hot_pixels : option (ndarray Q))
  : result (grid Q) :=
  match hot_pixels with
  | None => Ok (grid_map (fun _ => 1) (np_zeros (Z.to_nat height_px) (Z.to_nat width_px)))
  | Some (Arr2 v) =>
      if has_shape height_px width_px v
      then Ok v else Raise ValueError_hot_pixels
  | Some _ => Raise ValueError_hot_pixels
  end.

Definition valid_bloom_dirs : gset string := {[ "+x"; "-x"; "+y"; "-y" ]}.

(** [Sensor.__init__].  [px_len] and [px_pitch] are a number or a pair. *)
Definition __init__
  (width_px height_px : Z) (px_len px_pitch : Q + Q * Q) (quantum_efficiency : Q)
  (dark_current : Q -> Q) (hot_pixels : option (ndarray Q)) (read_noise gain : Q)
  (bias : ndarray Z) (full_well_capacity : Q) (adc_limit : Z)
  (bloom : gset string) (readout_time : Q) : result Sensor :=
  if ((width_px <? 0) || (height_px <? 0))%Z then Raise ValueError_dims else
  let pixels := np_zeros (Z.to_nat height_px) (Z.to_nat width_px) in
  let '(len_x, len_y) := match px_len with inl l => (l, l) | inr p => p end in
  let area := len_x * len_y in
  let '(pitch_x, pitch_y) := match px_pitch with inl l => (l, l) | inr p => p end in
  let width := inject_Z (width_px + 1) * pitch_x - len_x in
  let height := inject_Z (height_px + 1) * pitch_y - len_y in
  match init_hot_pixels width_px height_px hot_pixels with
  | Raise e => Raise e
  | OutOfFuel => OutOfFuel
  | Ok hot =>
  match init_bias width_px height_px bias with
  | Raise e => Raise e
  | OutOfFuel => OutOfFuel
  | Ok b =>
      if negb (bool_decide (bloom ⊆ valid_bloom_dirs)) then Raise ValueError_bloom
      else Ok (mkSensor width_px height_px pixels len_x len_y area pitch_x pitch_y
                        width height quantum_efficiency dark_current hot
                        read_noise gain b full_well_capacity adc_limit bloom
                        readout_time)
  end end.

(** [Sensor.clear] *)
Definition clear (s : Sensor) : Sensor :=
  set_pixels s (np_zeros (Z.to_nat (height_px s)) (Z.to_nat (width_px s))).

(** ** The lens collaborator (only what the sensor reads from it) *)

Record Lens := mkLens {
  area           : Q;
  psf            : Q -> Q -> Q;
  psf_bounds_x   : Q;
  psf_bounds_y   : Q;
  psf_resolution : Q
}.

(** ** Quadrature helpers of [_applyPSF] *)

(** [int(np.ceil(a / b))]; a zero divisor gives [inf] or [nan], which
    [int] refuses. *)
Definition int_ceil_div (a b : Q) : result Z :=
  if Qis_zero b then Raise NonFinite else Ok (Qceiling (a / b)).

(** Lines 158-159: [max(2, int(np.ceil(px_len / lens.psf_resolution)))]. *)
Definition quad_samples (px_len resolution : Q) : result Z :=
  match int_ceil_div px_len resolution with
  | Ok n => Ok (Z.max 2 n)
  | Raise e => Raise e
  | OutOfFuel => OutOfFuel
  end.

(** Lines 160-161: [px_len / (n - 1)]. *)
Definition quad_step (px_len : Q) (n : Z) : Q := px_len / inject_Z (n - 1).

(** [np.arange(lo, hi)] *)
Definition np_arange (lo hi : Z) : list Z :=
  map (fun k => (lo + Z.of_nat k)%Z) (seq 0 (Z.to_nat (hi - lo))).

(** [np.linspace(a, b, n)] *)
Definition np_linspace (a b : Q) (n : Z) : list Q :=
  map (fun k => a + inject_Z k * ((b - a) / inject_Z (n - 1))) (np_arange 0 n).

(** [np.trapezoid(ys, dx=d)] on a 1-D array:
    [(d * (ys[1:] + ys[:-1]) / 2).sum()]. *)
Fixpoint np_trapezoid (d : Q) (ys : list Q) : Q :=
  match ys with
  | y0 :: ((y1 :: _) as tl) => d * (y1 + y0) / 2 + np_trapezoid d tl
  | _ => 0
  end.

(** ** Bloom kernel and convolution *)

(** [a[i, j]] for natural indices; [0] outside the array. *)
Definition cell (a : grid Q) (i j : nat) : Q := nth j (nth i a []) 0.

(** Zero-filled read of a 2-D array ([boundary='fill', fillvalue=0]). *)
Definition at2 (a : grid Q) (i j : Z) : Q :=
  if ((i <? 0) || (j <? 0))%Z then 0
  else cell a (Z.to_nat i) (Z.to_nat j).

(** Lines 208-213: the 3x3 kernel of [_applyBloom]. *)
Definition conv_filter (bloom : gset string) : grid Q :=
  let frac := 1 / inject_Z (Z.of_nat (size bloom)) in
  let k (d : string) := if bool_decide (d ∈ bloom) then frac else 0 in
  [ [ 0;      k "-y"; 0      ];
    [ k "-x"; 0;      k "+x" ];
    [ 0;      k "+y"; 0      ] ].

Definition Qsum (l : list Q) : Q := fold_right Qplus 0 l.

(** [scipy.signal.convolve2d(a, K, mode='same', boundary='fill', fillvalue=0)]
    for a 3x3 kernel: [out[i,j] = sum_{m,n} K[m,n] * a[i+1-m, j+1-n]]. *)
Definition convolve2d_same (a K : grid Q) : grid Q :=
  imap (fun i row =>
    imap (fun j _ =>
      Qsum (map (fun m =>
        Qsum (map (fun n =>
          at2 K m n * at2 a (Z.of_nat i + 1 - m) (Z.of_nat j + 1 - n))
          [0; 1; 2]%Z))
        [0; 1; 2]%Z))
      row)
    a.

(** Line 215: [np.maximum(0, pixels - full_well)]. *)
Definition bloom_excess (full_well : Q) (p : grid Q) : grid Q :=
  grid_map (fun v => Qmax 0 (v - full_well)) p.

(** Line 216: [any(excess.flatten().value > 0)]. *)
Definition any_positive (e : grid Q) : bool :=
  existsb (existsb (fun v => Qltb_dec 0 v)) e.

(** Lines 218-219: one pass of the loop body. *)
Definition bloom_step (full_well : Q) (K : grid Q) (p : grid Q) : grid Q :=
  let excess := bloom_excess full_well p in
  let p1 := grid_map2 Qminus p excess in
  grid_map2 Qplus p1
    (grid_map (fun v => inject_Z (Qfloor v)) (convolve2d_same excess K)).

(** Lines 214-219: [while True] with a budget of [fuel] tests of the
    exit condition. *)
Fixpoint bloom_loop (fuel : nat) (full_well : Q) (K : grid Q) (p : grid Q)
  : option (grid Q) :=
  match fuel with
  | O => None
  | S fuel' =>
      if negb (any_positive (bloom_excess full_well p)) then Some p
      else bloom_loop fuel' full_well K (bloom_step full_well K p)
  end.

(** ** The pipeline, over an explicit generator *)

Section Pipeline.

(** The state of [np.random] and one scalar Poisson draw from it; a
    count is a natural number. *)
Context {rng : Type}.
Variable draw : Q -> rng -> nat * rng.

(** Computations on the sensor [self] and the generator. *)
Definition M (A : Type) : Type := Sensor * rng -> result A * (Sensor * rng).

Definition ret {A} (a : A) : M A := fun w => (Ok a, w).
Definition raise {A} (e : exn) : M A := fun w => (Raise e, w).
Definition bind {A B} (m : M A) (f : A -> M B) : M B :=
  fun w => match m w with
           | (Ok a, w') => f a w'
           | (Raise e, w') => (Raise e, w')
           | (OutOfFuel, w') => (OutOfFuel, w')
           end.
Definition self : M Sensor := fun w => (Ok (fst w), w).
Definition assign_pixels (p : grid Q) : M unit :=
  fun w => (Ok tt, (set_pixels (fst w) p, snd w)).
Definition lift {A} (r : result A) : M A := fun w => (r, w).

Notation "'do' x <- m ; k" := (bind m (fun x => k))
  (at level 10, x name, m at level 100, k at level 200).

(** Sequential draws for a 1-D and a 2-D array of means (row-major). *)
Fixpoint draws (lams : list Q) (g : rng) : list Q * rng :=
  match lams with
  | [] => ([], g)
  | lam :: rest =>
      let '(n, g1) := draw lam g in
      let '(ns, g2) := draws rest g1 in
      (inject_Z (Z.of_nat n) :: ns, g2)
  end.

Fixpoint draws_grid (lams : grid Q) (g : rng) : grid Q * rng :=
  match lams with
  | [] => ([], g)
  | row :: rest =>
      let '(r, g1) := draws row g in
      let '(rs, g2) := draws_grid rest g1 in
      (r :: rs, g2)
  end.

Definition all_nonneg (lams : list Q) : bool := forallb (fun lam => Qleb_dec 0 lam) lams.

(** [np.random.poisson(lam)] for an array [lam]: every mean is checked
    before the first draw. *)
Definition poisson (lams : list Q) : M (list Q) :=
  fun w =>
    if all_nonneg lams
    then let '(ns, g') := draws lams (snd w) in (Ok ns, (fst w, g'))
    else (Raise ValueError_lam, w).

Definition poisson_grid (lams : grid Q) : M (grid Q) :=
  fun w =>
    if forallb all_nonneg lams
    then let '(ns, g') := draws_grid lams (snd w) in (Ok ns, (fst w, g'))
    else (Raise ValueError_lam, w).

(** Broadcasting of an array of means to the output shape [(h, w)] of
    [np.random.poisson(lam, (h, w))]. *)
Definition broadcast_row (w : nat) (v : list Q) : option (list Q) :=
  if Nat.eqb (length v) w then Some v
  else match v with [x] => Some (repeat x w) | _ => None end.

Definition broadcast_to (h w : nat) (a : ndarray Q) : option (grid Q) :=
  match a with
  | Arr0 v => Some (repeat (repeat v w) h)
  | Arr1 v => option_map (fun row => repeat row h) (broadcast_row w v)
  | Arr2 rows =>
      match mapM (broadcast_row w) rows with
      | Some rows' =>
          if Nat.eqb (length rows') h then Some rows'
          else match rows' with [r] => Some (repeat r h) | _ => None end
      | None => None
      end
  | ArrN => None
  end.

Definition ndarray_nonneg (a : ndarray Q) : bool :=
  match a with
  | Arr0 v => Qleb_dec 0 v
  | Arr1 v => all_nonneg v
  | Arr2 rows => forallb all_nonneg rows
  | ArrN => true
  end.

Definition ndarray_map {A B} (f : A -> B) (a : ndarray A) : ndarray B :=
  match a with
  | Arr0 v => Arr0 (f v)
  | Arr1 v => Arr1 (map f v)
  | Arr2 rows => Arr2 (grid_map f rows)
  | ArrN => ArrN
  end.

(** [np.random.poisson(lam, (h, w))] *)
Definition poisson_sized (lam : ndarray Q) (h w : nat) : M (grid Q) :=
  if negb (ndarray_nonneg lam) then raise ValueError_lam
  else match broadcast_to h w lam with
       | None => raise ValueError_broadcast
       | Some lams => poisson_grid lams
       end.

(** *** [_applyPSF] *)

(** Lines 183-195 for one pixel [(iy, ix)] of the footprint: the
    composite trapezoidal rule over the [ny x nx] sample grid. *)
Definition pixel_fraction (s : Sensor) (lens : Lens) (nx ny : Z) (dx dy : Q)
  (x y : Q) (iy ix : Z) : Q :=
  let x_lb := px_pitch_x s * inject_Z ix - px_len_x s - x in
  let x_ub := px_pitch_x s * inject_Z ix - x in
  let y_lb := px_pitch_y s * inject_Z iy - px_len_y s - y in
  let y_ub := px_pitch_y s * inject_Z iy - y in
  let _x := np_linspace x_lb x_ub nx in
  let _y := np_linspace y_lb y_ub ny in
  np_trapezoid dx (map (fun X => np_trapezoid dy (map (fun Y => psf lens X Y) _y)) _x).

(** [np.ravel] of [np.meshgrid(np.arange(xmin,xmax), np.arange(ymin,ymax))]:
    the pixels [(iy, ix)] of the window in row-major order. *)
Definition footprint (xmin xmax ymin ymax : Z) : list (Z * Z) :=
  flat_map (fun iy => map (fun ix => (iy, ix)) (np_arange xmin xmax))
           (np_arange ymin ymax).

(** [pixels[idys, idxs] += vals] with distinct in-range index pairs. *)
Definition add_at (p : grid Q) (iy ix : Z) (v : Q) : grid Q :=
  alter (alter (fun e => e + v) (Z.to_nat ix)) (Z.to_nat iy) p.

Fixpoint add_all (p : grid Q) (cells : list (Z * Z)) (vals : list Q) : grid Q :=
  match cells, vals with
  | (iy, ix) :: cs, v :: vs => add_all (add_at p iy ix v) cs vs
  | _, _ => p
  end.

(** Lines 172-173: [int(np.round(coord / (extent - 2*pitch + len) * n_px))]. *)
Definition center_index (coord extent pitch len : Q) (n_px : Z) : result Z :=
  let d := extent - 2 * pitch + len in
  if Qis_zero d then Raise NonFinite
  else Ok (np_round (coord / d * inject_Z n_px)).

(** Lines 170-196: the body of the loop over sources. *)
Definition deposit_source (lens : Lens) (nx ny : Z) (dx dy : Q)
  (px_bounds_x px_bounds_y : Z) (x y i : Q) : M unit :=
  do s <- self;
  do xi <- lift (center_index x (width s) (px_pitch_x s) (px_len_x s) (width_px s));
  do yi <- lift (center_index y (height s) (px_pitch_y s) (px_len_y s) (height_px s));
  let xmin := Z.max (xi - px_bounds_x) 0 in
  let ymin := Z.max (yi - px_bounds_y) 0 in
  let xmax := Z.min (xi + px_bounds_x + 1) (width_px s) in
  let ymax := Z.min (yi + px_bounds_y + 1) (height_px s) in
  let cells := footprint xmin xmax ymin ymax in
  let count := map (fun c => i * pixel_fraction s lens nx ny dx dy x y (fst c) (snd c))
                   cells in
  do n <- poisson count;
  assign_pixels (add_all (pixels s) cells n).

(** [for x, y, i in zip(xcoords, ycoords, electron_dose)]: the loop
    stops with the shortest of the three sequences. *)
Fixpoint for_sources (body : Q -> Q -> Q -> M unit)
  (xcoords ycoords electron_dose : list Q) : M unit :=
  match xcoords, ycoords, electron_dose with
  | x :: xs, y :: ys, i :: es => do _ <- body x y i; for_sources body xs ys es
  | _, _, _ => ret tt
  end.

Definition _applyPSF (lens : Lens) (xcoords ycoords electron_dose : list Q) : M unit :=
  do s <- self;
  do nx <- lift (quad_samples (px_len_x s) (psf_resolution lens));
  do ny <- lift (quad_samples (px_len_y s) (psf_resolution lens));
  let dx := quad_step (px_len_x s) nx in
  let dy := quad_step (px_len_y s) ny in
  do px_bounds_x <- lift (int_ceil_div (psf_bounds_x lens) (px_len_x s));
  do px_bounds_y <- lift (int_ceil_div (psf_bounds_y lens) (px_len_y s));
  for_sources (deposit_source lens nx ny dx dy px_bounds_x px_bounds_y)
              xcoords ycoords electron_dose.

(** *** [_applyBloom] *)

Definition _applyBloom (fuel : nat) : M unit :=
  do s <- self;
  if bool_decide (bloom s = ∅)
  then assign_pixels (grid_map (fun v => Qmin v (full_well s)) (pixels s))
  else match bloom_loop fuel (full_well s) (conv_filter (bloom s)) (pixels s) with
       | Some p => assign_pixels p
       | None => lift OutOfFuel
       end.

(** *** [accumulate] *)

(** [electron_current_density] on pA/cm**2, to electron/s/micron**2:
    [1e4 * 6.28e6 * 1e-12]. *)
Definition dark_equivalency : Q := 628 # 10000.

(** Lines 114-118, [# source flux]. *)
Definition source_stage (lens : Lens) (exposure_time : Q)
  (xcoords ycoords photon_flux_density : list Q) : M unit :=
  do s <- self;
  if (0 <? length photon_flux_density)%nat
  then _applyPSF lens xcoords ycoords
         (map (fun f => f * exposure_time * quantum_eff s * area lens)
              photon_flux_density)
  else ret tt.

(** Lines 120-123, [# sky background flux]. *)
Definition background_stage (lens : Lens) (exposure_time : Q)
  (background_flux : ndarray Q) : M unit :=
  do s <- self;
  let bg_electron_dose :=
    ndarray_map (fun b => b * exposure_time * area lens) background_flux in
  do n <- poisson_sized bg_electron_dose
            (Z.to_nat (height_px s)) (Z.to_nat (width_px s));
  assign_pixels (grid_map2 Qplus (pixels s) n).

(** Lines 125-130, [# dark current]. *)
Definition dark_lambda (s : Sensor) (exposure_time temperature : Q) : grid Q :=
  let dark_count :=
    dark_current s temperature * dark_equivalency * exposure_time * px_area s in
  grid_map (fun hp => hp * dark_count) (hot_pixels s).

Definition dark_stage (exposure_time temperature : Q) : M unit :=
  do s <- self;
  do n <- poisson_grid (dark_lambda s exposure_time temperature);
  assign_pixels (grid_map2 Qplus (pixels s) n).

Definition accumulate (fuel : nat) (lens : Lens) (exposure_time temperature : Q)
  (xcoords ycoords photon_flux_density : list Q) (background_flux : ndarray Q)
  : M unit :=
  do _ <- source_stage lens exposure_time xcoords ycoords photon_flux_density;
  do _ <- background_stage lens exposure_time background_flux;
  do _ <- dark_stage exposure_time temperature;
  (* saturation and bloom *)
  _applyBloom fuel.

(** *** [readout] *)

(** [raw + self.bias] with numpy broadcasting of [bias] to [(h, w)]. *)
Definition add_bias (h w : nat) (raw : grid Q) (b : ndarray Z) : result (grid Q) :=
  match broadcast_to h w (ndarray_map inject_Z b) with
  | Some bg => Ok (grid_map2 Qplus raw bg)
  | None => Raise ValueError_broadcast
  end.

Definition readout : M (grid Q) :=
  do s <- self;
  (* read noise *)
  do n <- poisson_sized (Arr0 (read_noise s))
            (Z.to_nat (height_px s)) (Z.to_nat (width_px s));
  do _ <- assign_pixels (grid_map2 Qplus (pixels s) n);
  (* analog to digital conversion, clip to ADC limit *)
  do s1 <- self;
  do raw <- lift (add_bias (Z.to_nat (height_px s1)) (Z.to_nat (width_px s1))
                    (grid_map (fun v => inject_Z (Qfloor (v * gain s1))) (pixels s1))
                    (bias s1));
  ret (grid_map (fun v => Qmin v (inject_Z (adc_limit s1))) raw).

(** [Sensor.clear] as a computation. *)
Definition clear_m : M unit := fun w => (Ok tt, (clear (fst w), snd w)).

End Pipeline.

(** ** A concrete generator: a tape of counts

    [np.random.poisson] is deterministic in the generator state; the
    tape generator hands out the counts written on it, in order, and [0]
    for a zero mean or when the tape is used up. *)
Definition tape_draw (lam : Q) (g : list nat) : nat * list nat :=
  if Qis_zero lam then (O, g)
  else match g with
       | [] => (O, [])
       | n :: g' => (n, g')
       end.

(** ** Predicates used in the statements *)

(** Every element of a 2-D array satisfies [P]. *)
Definition everywhere {A} (P : A -> Prop) (a : grid A) : Prop := Forall (Forall P) a.

(** [s'] differs from [s] at most in its [pixels] buffer. *)
Definition same_config (s s' : Sensor) : Prop := set_pixels s (pixels s') = s'.

(** A computation that touches no sensor attribute but [pixels],
    whatever its outcome. *)
Definition frame {rng A} (m : M (rng:=rng) A) : Prop :=
  forall w r w', m w = (r, w') -> same_config (fst w) (fst w').

(** A computation that keeps a property of the [pixels] buffer,
    whatever its outcome. *)
Definition keeps {rng A} (P : grid Q -> Prop) (m : M (rng:=rng) A) : Prop :=
  forall w r w', m w = (r, w') -> P (pixels (fst w)) -> P (pixels (fst w')).

(** No element is negative. *)
Definition nonneg (p : grid Q) : Prop := everywhere (fun v => 0 <= v) p.

(** A 2-D array with [h] rows of [w] elements. *)
Definition shape_is {A} (h w : nat) (a : grid A) : Prop :=
  length a = h /\ Forall (fun row => length row = w) a.

(** A float that holds an integer. *)
Definition is_integer (v : Q) : Prop := exists z : Z, v == inject_Z z.

(** What [__init__] establishes and the methods keep: the shapes of the
    arrays and the admissible [bloom] directions. *)
Definition wf_sensor (s : Sensor) : Prop :=
  (0 <= height_px s)%Z /\ (0 <= width_px s)%Z /\
  shape_is (Z.to_nat (height_px s)) (Z.to_nat (width_px s)) (pixels s) /\
  shape_is (Z.to_nat (height_px s)) (Z.to_nat (width_px s)) (hot_pixels s) /\
  match bias s with
  | Arr0 _ => True
  | Arr2 b => shape_is (Z.to_nat (height_px s)) (Z.to_nat (width_px s)) b
  | _ => False
  end /\
  bloom s ⊆ valid_bloom_dirs.

(** A computation that keeps the sensor well formed, whatever its
    outcome. *)
Definition keeps_wf {rng A} (m : M (rng:=rng) A) : Prop :=
  forall w r w', m w = (r, w') -> wf_sensor (fst w) -> wf_sensor (fst w').

(** A computation of the sensor itself, which never runs out of the
    model's loop budget. *)
Definition no_budget {rng A} (m : M (rng:=rng) A) : Prop :=
  forall w w', m w <> (OutOfFuel, w').

(** [bias[i, j]] after broadcasting. *)
Definition bias_at (s : Sensor) (i j : nat) : Z :=
  match bias s with
  | Arr0 b => b
  | Arr2 b => nth j (nth i b []) 0%Z
  | _ => 0%Z
  end.

(** The kernel weight of a direction: [frac] when the direction is in
    [bloom], else [0]. *)
Definition kernel_weight (bl : gset string) (d : string) : Q :=
  if bool_decide (d ∈ bl) then 1 / inject_Z (Z.of_nat (size bl)) else 0.

(** The excess charge that arrives at pixel [(i, j)] in one pass of the
    bloom loop, before [np.floor]: the share of each of the four
    orthogonal neighbours ([ex] reads the excess array with zero fill). *)
Definition bloom_inflow (bl : gset string) (ex : Z -> Z -> Q) (i j : Z) : Q :=
  kernel_weight bl "-y" * ex (i + 1)%Z j +
  kernel_weight bl "-x" * ex i (j + 1)%Z +
  kernel_weight bl "+x" * ex i (j - 1)%Z +
  kernel_weight bl "+y" * ex (i - 1)%Z j.

(** *** A measure for the bloom loop

    The loop has no iteration cap; that it stops is shown with a weighted
    sum of integer bounds on the excess charge. *)

(** [f 0 + ... + f (n-1)] *)
Fixpoint zsum (n : nat) (f : Z -> Z) : Z :=
  match n with
  | O => 0%Z
  | S n' => (zsum n' f + f (Z.of_nat n'))%Z
  end.

(** [(i, j)] is a pixel of an [h] by [w] array. *)
Definition inside (h w : nat) (i j : Z) : Prop :=
  (0 <= i < Z.of_nat h)%Z /\ (0 <= j < Z.of_nat w)%Z.

Definition in_grid (h w : nat) (i j : Z) : bool :=
  ((0 <=? i) && (i <? Z.of_nat h) && (0 <=? j) && (j <? Z.of_nat w))%Z.

(** Zero fill of an integer array. *)
Definition clip (h w : nat) (N : Z -> Z -> Z) (i j : Z) : Z :=
  if in_grid h w i j then N i j else 0%Z.

Definition has_dir (bl : gset string) (d : string) : bool := bool_decide (d ∈ bl).
Definition dir_flag (bl : gset string) (d : string) : Z := if has_dir bl d then 1%Z else 0%Z.

(** An integer bound on the excess after one pass, from a bound [N] on
    the excess before it: each pixel receives at most the floor of the
    shares of its neighbours. *)
Definition next_bound (h w : nat) (bl : gset string) (N : Z -> Z -> Z) (i j : Z) : Z :=
  ((dir_flag bl "-y" * clip h w N (i + 1) j +
    dir_flag bl "-x" * clip h w N i (j + 1) +
    dir_flag bl "+x" * clip h w N i (j - 1) +
    dir_flag bl "+y" * clip h w N (i - 1) j) / Z.of_nat (size bl))%Z.

(** A weight that strictly decreases, on average, along the directions
    in which charge moves: concave when charge moves both ways along an
    axis, linear when it moves one way. *)
Definition axis_weight (n : nat) (neg pos : bool) (x : Z) : Z :=
  match neg, pos with
  | true, true => ((x + 1) * (Z.of_nat n - x))%Z
  | false, true => (Z.of_nat n - x)%Z
  | true, false => (x + 1)%Z
  | false, false => 0%Z
  end.

Definition weight (h w : nat) (bl : gset string) (i j : Z) : Z :=
  (axis_weight w (has_dir bl "-x") (has_dir bl "+x") j +
   axis_weight h (has_dir bl "-y") (has_dir bl "+y") i + 1)%Z.

(** The sum of [f i j] over the pixels of an [h] by [w] array. *)
Definition zsum2 (h w : nat) (f : Z -> Z -> Z) : Z :=
  zsum h (fun i => zsum w (fun j => f i j)).

Definition potential (h w : nat) (bl : gset string) (N : Z -> Z -> Z) : Z :=
  zsum2 h w (fun i j => (weight h w bl i j * N i j)%Z).

(** The integer excess of a buffer, rounded up. *)
Definition excess_bound (F : Q) (p : grid Q) (i j : Z) : Z :=
  Qceiling (at2 (bloom_excess F p) i j).

(** A number of tests of the exit condition that suffices for the loop
    to stop on [p]. *)
Definition bloom_fuel (h w : nat) (bl : gset string) (F : Q) (p : grid Q) : nat :=
  S (Z.to_nat (potential h w bl (excess_bound F p))).

(** The exposure sequence [clear(); accumulate(...); readout()]. *)
Definition exposure {rng} (draw : Q -> rng -> nat * rng) (fuel : nat) (lens : Lens)
  (exposure_time temperature : Q) (xcoords ycoords photon_flux_density : list Q)
  (background_flux : ndarray Q) : M (grid Q) :=
  bind clear_m (fun _ =>
  bind (accumulate draw fuel lens exposure_time temperature xcoords ycoords
          photon_flux_density background_flux) (fun _ =>
  readout draw)).

(** ** Concrete sensors and inputs used in the examples *)

(** A 3x3 sensor as [__init__] builds it: 1 um pixels on a 2 um pitch,
    constant dark current [dc], unit read noise and gain, bias 100,
    full well 10. *)
Definition demo_sensor (dc : Q) (bl : gset string) : Sensor :=
  mkSensor 3 3 (np_zeros 3 3) 1 1 1 2 2 7 7 1 (fun _ => dc)
           [[1; 1; 1]; [1; 1; 1]; [1; 1; 1]] 1 1 (Arr0 100%Z) 10 65535 bl 0.

(** A lens with a flat PSF of density 1/4 over a 1 um half-width. *)
Definition demo_lens : Lens := mkLens 1 (fun _ _ => 1 # 4) 1 1 1.

Definition demo_tape : list nat :=
  [1; 2; 3; 4; 5; 6; 7; 8; 9; 10; 11; 12; 13; 14; 15; 16; 17; 18; 19; 20;
   21; 22; 23; 24; 25; 26; 27; 28; 29; 30]%nat.

(** One source of flux 5 at (2 um, 2 um), unit exposure, unit sky
    background. *)
Definition demo_accumulate (dc : Q) (bl : gset string) (pre : grid Q) :=
  accumulate tape_draw 10 demo_lens 1 0 [2] [2] [5] (Arr0 1)
             (set_pixels (demo_sensor dc bl) pre, demo_tape).

Definition demo_state0 : Sensor * list nat := (demo_sensor 0 ∅, demo_tape).

Definition demo_state1 : Sensor * list nat :=
  (set_pixels (demo_sensor 0 ∅) [[5; 6; 7]; [8; 10; 10]; [10; 10; 10]],
   skipn 13 demo_tape).

Definition demo_read1 : Sensor * list nat :=
  (set_pixels (demo_sensor 0 ∅) [[1; 2; 3]; [4; 5; 6]; [7; 8; 9]], skipn 9 demo_tape).

Definition demo_read2 : Sensor * list nat :=
  (set_pixels (demo_sensor 0 ∅) [[11; 13; 15]; [17; 19; 21]; [23; 25; 27]],
   skipn 18 demo_tape).

(** The same sensor with a dark current of -1 pA/cm**2: the state after
    the source deposits, and the state in which [accumulate] fails. *)
Definition demo_after_sources : Sensor * list nat :=
  (set_pixels (demo_sensor (-1) ∅) [[0; 0; 0]; [0; 1; 2]; [0; 3; 4]],
   skipn 4 demo_tape).

Definition demo_dark_failed : Sensor * list nat :=
  (set_pixels (demo_sensor (-1) ∅) [[5; 6; 7]; [8; 10; 12]; [11; 15; 17]],
   skipn 13 demo_tape).

(** A 3x3 buffer whose centre pixel holds [full_well + 4k] for
    [full_well = 20] and [k = 2]. *)
Definition demo_peak : grid Q := [[0; 0; 0]; [0; 28; 0]; [0; 0; 0]].

(** A 1x2 buffer with [2^m] electrons in each pixel, for a sensor with
    [full_well = 0] that blooms along x only. *)
Definition two_dirs : gset string := {[ "+x"; "-x" ]}.

Definition halving_pair (m : nat) : grid Q :=
  [[inject_Z (2 ^ Z.of_nat m); inject_Z (2 ^ Z.of_nat m)]].

(** The bound of the bloom termination claim, for a constant [C]: on
    every sensor, [C * max(height_px, width_px) + C] tests of the exit
    condition are enough. *)
Definition bloom_bounded_by_dimensions (C : nat) : Prop :=
  forall (h w : nat) (p : grid Q) (F : Q) (bl : gset string),
    shape_is h w p -> nonneg p -> bl <> ∅ -> bl ⊆ valid_bloom_dirs ->
    exists p', bloom_loop (C * Nat.max h w + C) F (conv_filter bl) p = Some p'.

(** ** Argument checks of [__init__], as predicates *)

(** [hot_pixels] passes the check of lines 62-67. *)
Definition hot_pixels_accepted (w_px h_px : Z) (hp : option (ndarray Q)) : bool :=
  match hp with
  | None => true
  | Some (Arr2 v) => has_shape h_px w_px v
  | Some _ => false
  end.

(** [bias] passes the checks of lines 74-87. *)
Definition bias_accepted (w_px h_px : Z) (b : ndarray Z) : bool :=
  match b with
  | Arr0 _ => true
  | Arr1 v => (Z.of_nat (length v) =? w_px)%Z
  | Arr2 v => has_shape h_px w_px v
  | ArrN => false
  end.

(** The same 3x3 sensor with a read noise of -1 electron. *)
Definition demo_negative_noise : Sensor :=
  mkSensor 3 3 (np_zeros 3 3) 1 1 1 2 2 7 7 1 (fun _ => 0)
           [[1; 1; 1]; [1; 1; 1]; [1; 1; 1]] (-1) 1 (Arr0 100%Z) 10 65535 ∅ 0.

(** A 2x3 sensor built with the 1-D bias [10, 20, 30]. *)
Definition demo_row_bias : Sensor :=
  mkSensor 3 2 (np_zeros 2 3) 1 1 1 2 2 7 5 1 (fun _ => 0)
           [[1; 1; 1]; [1; 1; 1]] 1 1 (Arr2 [[10; 20; 30]; [10; 20; 30]]%Z)
           10 65535 ∅ 0.

(** No pixel of [p'] holds less than in [p]. *)
Definition grid_le (p p' : grid Q) : Prop := forall i j, cell p i j <= cell p' i j.

(** The pixel [(row, col)] lies in the window that [_applyPSF] integrates
    for a source at [(x, y)]: within [by_] rows and [bx] columns of the
    source's centre pixel. *)
Definition source_window (s : Sensor) (bx by_ : Z) (x y : Q) (row col : nat) : Prop :=
  exists xi yi,
    center_index x (width s) (px_pitch_x s) (px_len_x s) (width_px s) = Ok xi /\
    center_index y (height s) (px_pitch_y s) (px_len_y s) (height_px s) = Ok yi /\
    (yi - by_ <= Z.of_nat row <= yi + by_)%Z /\
    (xi - bx <= Z.of_nat col <= xi + bx)%Z.

(** The window of a source at [(x, y)] has no pixel on the sensor. *)
Definition off_sensor (s : Sensor) (bx by_ : Z) (x y : Q) : Prop :=
  exists xi yi,
    center_index x (width s) (px_pitch_x s) (px_len_x s) (width_px s) = Ok xi /\
    center_index y (height s) (px_pitch_y s) (px_len_y s) (height_px s) = Ok yi /\
    ((xi + bx < 0)%Z \/ (width_px s <= xi - bx)%Z \/
     (yi + by_ < 0)%Z \/ (height_px s <= yi - by_)%Z).

(** A sensor one pixel wide, as [__init__] builds it. *)
Definition demo_one_column : Sensor :=
  mkSensor 1 3 (np_zeros 3 1) 1 1 1 2 2 3 7 1 (fun _ => 0)
           [[1]; [1]; [1]] 1 1 (Arr0 100%Z) 10 65535 ∅ 0.

(** [np.sum(a)]: the total charge of a buffer. *)
Definition grid_total (a : grid Q) : Q := Qsum (map Qsum a).

(** [f 0 + ... + f (n-1)] over the rationals, and the double sum over an
    [h] by [w] array. *)
Fixpoint qsum (n : nat) (f : Z -> Q) : Q :=
  match n with
  | O => 0
  | S n' => qsum n' f + f (Z.of_nat n')
  end.

Definition qsum2 (h w : nat) (f : Z -> Z -> Q) : Q :=
  qsum h (fun i => qsum w (fun j => f i j)).

(** * Properties *)

(** ** The monad *)

Section MonadFacts.
Context {rng : Type}.
Implicit Types w : Sensor * rng.

Lemma bind_inv {A B} (m : @M rng A) (f : A -> @M rng B) w r w' :
  bind m f w = (r, w') ->
  (exists a w1, m w = (Ok a, w1) /\ f a w1 = (r, w')) \/
  (exists e, m w = (Raise e, w') /\ r = Raise e) \/
  (m w = (OutOfFuel, w') /\ r = OutOfFuel).
Proof.
  unfold bind. destruct (m w) as [[a|e|] w1]; intros H.
  - left. eauto.
  - right. left. inversion H; subst. eauto.
  - right. right. inversion H; subst. eauto.
Qed.

Lemma bind_Ok {A B} (m : @M rng A) (f : A -> @M rng B) w b w' :
  bind m f w = (Ok b, w') ->
  exists a w1, m w = (Ok a, w1) /\ f a w1 = (Ok b, w').
Proof.
  intros H. apply bind_inv in H as [H | [(e & _ & H) | (_ & H)]];
    [exact H | discriminate H | discriminate H].
Qed.

Lemma bind_step {A B} (m : @M rng A) (f : A -> @M rng B) w a w1 :
  m w = (Ok a, w1) -> bind m f w = f a w1.
Proof. unfold bind. intros ->. reflexivity. Qed.

Lemma bind_raise {A B} (m : @M rng A) (f : A -> @M rng B) w e w1 :
  m w = (Raise e, w1) -> bind m f w = (Raise e, w1).
Proof. unfold bind. intros ->. reflexivity. Qed.

Lemma bind_self {B} (f : Sensor -> @M rng B) w : bind self f w = f (fst w) w.
Proof. reflexivity. Qed.

Lemma bind_lift {A B} (x : result A) (f : A -> @M rng B) w :
  bind (lift x) f w =
  match x with
  | Ok a => f a w
  | Raise e => (Raise e, w)
  | OutOfFuel => (OutOfFuel, w)
  end.
Proof. destruct x; reflexivity. Qed.

Lemma same_config_refl s : same_config s s.
Proof. destruct s. reflexivity. Qed.

Lemma same_config_trans s1 s2 s3 :
  same_config s1 s2 -> same_config s2 s3 -> same_config s1 s3.
Proof. unfold same_config. intros <- <-. reflexivity. Qed.

Lemma same_config_set s p : same_config s (set_pixels s p).
Proof. reflexivity. Qed.

Lemma same_config_sym s1 s2 : same_config s1 s2 -> same_config s2 s1.
Proof. unfold same_config. intros <-. destruct s1. reflexivity. Qed.

Lemma frame_ret {A} (a : A) : frame (rng:=rng) (ret a).
Proof. intros w r w' H. inversion H; subst. apply same_config_refl. Qed.

Lemma frame_raise {A} e : frame (rng:=rng) (@raise rng A e).
Proof. intros w r w' H. inversion H; subst. apply same_config_refl. Qed.

Lemma frame_lift {A} (x : result A) : frame (rng:=rng) (lift x).
Proof. intros w r w' H. inversion H; subst. apply same_config_refl. Qed.

Lemma frame_self : frame (rng:=rng) self.
Proof. intros w r w' H. inversion H; subst. apply same_config_refl. Qed.

Lemma frame_assign p : frame (rng:=rng) (assign_pixels p).
Proof. intros w r w' H. inversion H; subst. apply same_config_set. Qed.

Lemma frame_bind {A B} (m : @M rng A) (f : A -> @M rng B) :
  frame m -> (forall a, frame (f a)) -> frame (bind m f).
Proof.
  intros Hm Hf w r w' H.
  apply bind_inv in H as [(a & w1 & H1 & H2) | [(e & H1 & _) | (H1 & _)]].
  - eapply same_config_trans; [eapply Hm | eapply Hf]; eassumption.
  - eapply Hm; eassumption.
  - eapply Hm; eassumption.
Qed.

Lemma frame_if {A} (b : bool) (m1 m2 : @M rng A) :
  frame m1 -> frame m2 -> frame (rng:=rng) (if b then m1 else m2).
Proof. destruct b; auto. Qed.

End MonadFacts.

Create HintDb frame discriminated.
#[export] Hint Resolve frame_ret frame_raise frame_lift frame_self frame_assign
  frame_if : frame.

Ltac frame_tac :=
  repeat first
    [ solve [ auto with frame ]
    | apply frame_bind; [ | intros ? ] ].

(** ** Only [pixels] is ever written *)

Section FrameFacts.
Context {rng : Type} (draw : Q -> rng -> nat * rng).

Lemma frame_poisson lams : frame (poisson draw lams).
Proof.
  intros w r w'. unfold poisson.
  destruct (all_nonneg lams); [destruct (draws draw lams (snd w)) |];
    intros H; inversion H; subst; apply same_config_refl.
Qed.

Lemma frame_poisson_grid lams : frame (poisson_grid draw lams).
Proof.
  intros w r w'. unfold poisson_grid.
  destruct (forallb all_nonneg lams); [destruct (draws_grid draw lams (snd w)) |];
    intros H; inversion H; subst; apply same_config_refl.
Qed.

Lemma frame_poisson_sized lam h w : frame (poisson_sized draw lam h w).
Proof.
  unfold poisson_sized. destruct (negb (ndarray_nonneg lam)); [apply frame_raise|].
  destruct (broadcast_to h w lam); [apply frame_poisson_grid | apply frame_raise].
Qed.

Hint Resolve frame_poisson frame_poisson_grid frame_poisson_sized : frame.

Lemma frame_deposit_source lens nx ny dx dy bx by_ x y i :
  frame (deposit_source draw lens nx ny dx dy bx by_ x y i).
Proof. unfold deposit_source. frame_tac. Qed.

Lemma frame_for_sources body xs ys es :
  (forall x y i, frame (body x y i)) -> frame (rng:=rng) (for_sources body xs ys es).
Proof.
  intros Hb. revert ys es.
  induction xs as [|x xs IH]; intros [|y ys] [|e es]; cbn;
    try apply frame_ret.
  apply frame_bind; [apply Hb | intros _; apply IH].
Qed.

Lemma frame__applyPSF lens xs ys es : frame (_applyPSF draw lens xs ys es).
Proof.
  unfold _applyPSF. frame_tac.
  apply frame_for_sources. intros. apply frame_deposit_source.
Qed.

Lemma frame__applyBloom fuel : frame (rng:=rng) (_applyBloom fuel).
Proof.
  unfold _applyBloom. apply frame_bind; [apply frame_self | intros s].
  destruct (bool_decide (bloom s = ∅)); [apply frame_assign |].
  destruct (bloom_loop _ _ _ _); [apply frame_assign | apply frame_lift].
Qed.

Lemma frame_source_stage lens t xs ys fs : frame (source_stage draw lens t xs ys fs).
Proof.
  unfold source_stage. apply frame_bind; [apply frame_self | intros s].
  apply frame_if; [apply frame__applyPSF | apply frame_ret].
Qed.

Lemma frame_background_stage lens t bg : frame (background_stage draw lens t bg).
Proof. unfold background_stage. frame_tac. Qed.

Lemma frame_dark_stage t temp : frame (dark_stage draw t temp).
Proof. unfold dark_stage. frame_tac. Qed.

Hint Resolve frame_source_stage frame_background_stage frame_dark_stage
  frame__applyBloom : frame.

Lemma frame_accumulate fuel lens t temp xs ys fs bg :
  frame (accumulate draw fuel lens t temp xs ys fs bg).
Proof. unfold accumulate. frame_tac. Qed.

Lemma frame_readout : frame (readout draw).
Proof. unfold readout. frame_tac. Qed.

Lemma all_nonneg_repeat lam n : Qleb_dec 0 lam = true -> all_nonneg (repeat lam n) = true.
Proof. intros H. induction n; cbn; [reflexivity | now rewrite H]. Qed.

Lemma forallb_repeat {A} (f : A -> bool) x n : f x = true -> forallb f (repeat x n) = true.
Proof. intros H. induction n; cbn; [reflexivity | now rewrite H]. Qed.

(** [np.random.poisson(lam, (h, w))] for a scalar mean. *)
Lemma poisson_sized_scalar lam h w0 s g :
  poisson_sized draw (Arr0 lam) h w0 (s, g) =
  if Qleb_dec 0 lam
  then let n := draws_grid draw (repeat (repeat lam w0) h) g in
       (Ok (fst n), (s, snd n))
  else (Raise ValueError_lam, (s, g)).
Proof.
  unfold poisson_sized, ndarray_nonneg, broadcast_to, poisson_grid, raise.
  destruct (Qleb_dec 0 lam) eqn:E; cbn [negb]; [|reflexivity].
  rewrite forallb_repeat by (now apply all_nonneg_repeat).
  cbn [fst snd]. destruct (draws_grid _ _ _); reflexivity.
Qed.

(** What one call of [readout] does to the state. *)
Lemma readout_effect s g r s' g' :
  readout draw (s, g) = (r, (s', g')) ->
  let lam := repeat (repeat (read_noise s) (Z.to_nat (width_px s)))
                    (Z.to_nat (height_px s)) in
  let noise := draws_grid draw lam g in
  same_config s s' /\
  ((s' = s /\ g' = g /\ r = Raise ValueError_lam) \/
   (pixels s' = grid_map2 Qplus (pixels s) (fst noise) /\ g' = snd noise /\
    (r = Raise ValueError_broadcast \/ exists img, r = Ok img))).
Proof.
  intros H. split; [exact (frame_readout _ _ _ H)|].
  revert H. unfold readout.
  rewrite (bind_step self _ (s, g) s (s, g)) by reflexivity.
  pose proof (poisson_sized_scalar (read_noise s) (Z.to_nat (height_px s))
                (Z.to_nat (width_px s)) s g) as Hp.
  destruct (Qleb_dec 0 (read_noise s)).
  - cbv zeta in Hp. rewrite (bind_step _ _ _ _ _ Hp).
    unfold bind, assign_pixels, self, lift, ret, add_bias. cbn [fst snd].
    destruct (broadcast_to _ _ _); intros H; inversion H; subst;
      right; cbn [pixels set_pixels]; eauto.
  - rewrite (bind_raise _ _ _ _ _ Hp).
    intros H; inversion H; subst. left. auto.
Qed.

End FrameFacts.

(** ** Saturation without bloom, reproducibility, read noise *)

Section StateFacts.
Context {rng : Type} (draw : Q -> rng -> nat * rng).

Lemma everywhere_grid_map {A B} (P : B -> Prop) (f : A -> B) (a : grid A) :
  (forall x, P (f x)) -> everywhere P (grid_map f a).
Proof.
  intros H. unfold everywhere, grid_map.
  apply Forall_map, Forall_forall. intros row _.
  apply Forall_map, Forall_forall. intros x _. apply H.
Qed.

(** No-bloom branch of [_applyBloom]. *)
Lemma applyBloom_no_bloom fuel (w : Sensor * rng) :
  bloom (fst w) = ∅ ->
  _applyBloom fuel w =
  (Ok tt, (set_pixels (fst w)
             (grid_map (fun v => Qmin v (full_well (fst w))) (pixels (fst w))),
           snd w)).
Proof.
  intros Hb. unfold _applyBloom, bind, self, assign_pixels. cbn [fst snd].
  rewrite Hb. reflexivity.
Qed.

(** C4.  With an empty [bloom] set, after [accumulate] returns every
    element of [pixels] is at most [full_well]: the no-bloom branch of
    [_applyBloom] clips the buffer with [np.minimum]. *)
Theorem accumulate_no_bloom_at_most_full_well
  fuel lens exposure_time temperature xcoords ycoords photon_flux_density
  background_flux (w w' : Sensor * rng) :
  bloom (fst w) = ∅ ->
  accumulate draw fuel lens exposure_time temperature xcoords ycoords
             photon_flux_density background_flux w = (Ok tt, w') ->
  everywhere (fun v => v <= full_well (fst w')) (pixels (fst w')) /\
  full_well (fst w') = full_well (fst w).
Proof.
  intros Hb H.
  pose proof (frame_accumulate draw _ _ _ _ _ _ _ _ _ _ _ H) as Hfr.
  unfold accumulate in H.
  apply bind_Ok in H as (u1 & w1 & H1 & H).
  apply bind_Ok in H as (u2 & w2 & H2 & H).
  apply bind_Ok in H as (u3 & w3 & H3 & H).
  assert (Hc : same_config (fst w) (fst w3)).
  { eapply same_config_trans; [eapply frame_source_stage; eassumption|].
    eapply same_config_trans; [eapply frame_background_stage; eassumption|].
    eapply frame_dark_stage; eassumption. }
  assert (Hb3 : bloom (fst w3) = ∅) by (rewrite <- Hc; exact Hb).
  rewrite (applyBloom_no_bloom fuel w3 Hb3) in H. inversion H; subst w'.
  cbn [fst pixels set_pixels full_well]. split.
  - apply everywhere_grid_map. intros x. apply Q.le_min_r.
  - rewrite <- Hc. reflexivity.
Qed.

(** C8.  The sequence [clear]; [accumulate]; [readout] run on two
    sensors that differ at most in the old content of [pixels], with
    the same inputs and the generator in the same state, gives the same
    outcome, the same image, the same final buffer and the same final
    generator state. *)
Theorem exposure_reproducible
  fuel lens exposure_time temperature xcoords ycoords photon_flux_density
  background_flux (s1 s2 : Sensor) (g : rng) :
  same_config s1 s2 ->
  exposure draw fuel lens exposure_time temperature xcoords ycoords
           photon_flux_density background_flux (s1, g) =
  exposure draw fuel lens exposure_time temperature xcoords ycoords
           photon_flux_density background_flux (s2, g).
Proof.
  intros Hc. unfold exposure.
  rewrite (bind_step clear_m _ (s1, g) tt (clear s1, g)) by reflexivity.
  rewrite (bind_step clear_m _ (s2, g) tt (clear s2, g)) by reflexivity.
  replace (clear s2) with (clear s1); [reflexivity|].
  rewrite <- Hc. reflexivity.
Qed.

(** C7.  A call of [readout] writes no sensor attribute but [pixels];
    when it returns, the new buffer is the old one plus one Poisson
    draw of mean [read_noise] per pixel, taken from the generator in
    row-major order; a second call without [clear] adds a second
    family of draws on top of the first. *)
Theorem readout_accumulates_read_noise (s : Sensor) (g : rng) :
  let lam := repeat (repeat (read_noise s) (Z.to_nat (width_px s)))
                    (Z.to_nat (height_px s)) in
  forall img1 s1 g1,
    readout draw (s, g) = (Ok img1, (s1, g1)) ->
    let noise1 := draws_grid draw lam g in
    s1 = set_pixels s (grid_map2 Qplus (pixels s) (fst noise1)) /\
    g1 = snd noise1 /\
    forall img2 s2 g2,
      readout draw (s1, g1) = (Ok img2, (s2, g2)) ->
      let noise2 := draws_grid draw lam g1 in
      s2 = set_pixels s
             (grid_map2 Qplus (grid_map2 Qplus (pixels s) (fst noise1)) (fst noise2)) /\
      g2 = snd noise2.
Proof.
  intros lam img1 s1 g1 H1 noise1.
  apply readout_effect in H1 as [Hc1 [(_ & _ & Hr) | (Hp1 & Hg1 & _)]];
    [discriminate Hr|].
  assert (Hs1 : s1 = set_pixels s (grid_map2 Qplus (pixels s) (fst noise1))).
  { rewrite <- Hc1, Hp1. reflexivity. }
  split; [exact Hs1|]. split; [exact Hg1|].
  intros img2 s2 g2 H2 noise2.
  apply readout_effect in H2 as [Hc2 [(_ & _ & Hr) | (Hp2 & Hg2 & _)]];
    [discriminate Hr|].
  assert (Hcfg : read_noise s1 = read_noise s /\ width_px s1 = width_px s /\
                 height_px s1 = height_px s) by (rewrite Hs1; auto).
  destruct Hcfg as (E1 & E2 & E3). rewrite E1, E2, E3 in Hp2, Hg2.
  split; [|exact Hg2].
  rewrite <- Hc2, Hp2, Hs1. reflexivity.
Qed.

End StateFacts.

Lemma accumulate_no_bloom_at_most_full_well_witness :
  bloom (fst demo_state0) = ∅ /\
  demo_accumulate 0 ∅ (np_zeros 3 3) = (Ok tt, demo_state1) /\
  everywhere (fun v => v <= full_well (fst demo_state1)) (pixels (fst demo_state1)) /\
  full_well (fst demo_state1) = full_well (fst demo_state0).
Proof.
  split; [reflexivity|]. split; [vm_compute; reflexivity|].
  apply (accumulate_no_bloom_at_most_full_well tape_draw 10 demo_lens 1 0 [2] [2] [5]
           (Arr0 1) demo_state0 demo_state1);
    [reflexivity | vm_compute; reflexivity].
Defined.

Lemma exposure_reproducible_witness :
  same_config (fst demo_state0) (fst demo_state1) /\
  exposure tape_draw 10 demo_lens 1 0 [2] [2] [5] (Arr0 1) (fst demo_state0, demo_tape) =
  exposure tape_draw 10 demo_lens 1 0 [2] [2] [5] (Arr0 1) (fst demo_state1, demo_tape).
Proof.
  split; [reflexivity|].
  apply (exposure_reproducible tape_draw 10 demo_lens 1 0 [2] [2] [5] (Arr0 1)
           (fst demo_state0) (fst demo_state1) demo_tape).
  reflexivity.
Defined.

Lemma readout_accumulates_read_noise_witness :
  readout tape_draw demo_state0 =
    (Ok [[101; 102; 103]; [104; 105; 106]; [107; 108; 109]], demo_read1) /\
  readout tape_draw demo_read1 =
    (Ok [[111; 113; 115]; [117; 119; 121]; [123; 125; 127]], demo_read2) /\
  pixels (fst demo_read2) = [[11; 13; 15]; [17; 19; 21]; [23; 25; 27]].
Proof.
  assert (H1 : readout tape_draw demo_state0 =
               (Ok [[101; 102; 103]; [104; 105; 106]; [107; 108; 109]], demo_read1))
    by (vm_compute; reflexivity).
  assert (H2 : readout tape_draw demo_read1 =
               (Ok [[111; 113; 115]; [117; 119; 121]; [123; 125; 127]], demo_read2))
    by (vm_compute; reflexivity).
  split; [exact H1|]. split; [exact H2|].
  destruct (readout_accumulates_read_noise tape_draw (fst demo_state0) (snd demo_state0)
              _ _ _ H1) as (_ & _ & K).
  destruct (K _ _ _ H2) as (E & _).
  reflexivity.
Defined.

(** ** Quadrature sample counts *)

Lemma quad_samples_floor px_len resolution n :
  quad_samples px_len resolution = Ok n -> (2 <= n)%Z.
Proof.
  unfold quad_samples, int_ceil_div. destruct (Qis_zero resolution); [discriminate|].
  intros H; inversion H; subst. lia.
Qed.

Lemma quad_samples_value px_len resolution :
  0 < resolution ->
  quad_samples px_len resolution = Ok (Z.max 2 (Qceiling (px_len / resolution))).
Proof.
  intros Hr. unfold quad_samples, int_ceil_div, Qis_zero.
  destruct (Qeq_bool resolution 0) eqn:E; [|reflexivity].
  apply Qeq_bool_iff in E. rewrite E in Hr. discriminate Hr.
Qed.

(** The count bounds the spacing of [n] intervals, not of the [n - 1]
    intervals that the trapezoidal rule uses. *)
Lemma quad_samples_bounds_n_intervals px_len resolution n :
  0 < resolution -> quad_samples px_len resolution = Ok n ->
  px_len / inject_Z n <= resolution.
Proof.
  intros Hr H. pose proof (quad_samples_floor _ _ _ H) as Hn.
  rewrite (quad_samples_value _ _ Hr) in H. injection H as Hn'.
  assert (Hc : px_len / resolution <= inject_Z n).
  { eapply Qle_trans; [apply Qle_ceiling|]. rewrite <- Zle_Qle. lia. }
  assert (Hpos : 0 < inject_Z n) by (change 0 with (inject_Z 0); rewrite <- Zlt_Qlt; lia).
  apply Qle_shift_div_r; [exact Hpos|].
  apply (Qmult_le_r _ _ resolution) in Hc; [|exact Hr].
  assert (Ediv : px_len / resolution * resolution == px_len)
    by (field; intros E; rewrite E in Hr; discriminate Hr).
  rewrite Ediv in Hc.
  rewrite Qmult_comm. exact Hc.
Qed.

(** Whenever the pixel is longer than the resolution, the step of the
    quadrature exceeds the resolution. *)
Lemma quad_step_exceeds_resolution px_len resolution n :
  0 < resolution -> resolution < px_len ->
  quad_samples px_len resolution = Ok n ->
  resolution < quad_step px_len n.
Proof.
  intros Hr Hl H. pose proof (quad_samples_floor _ _ _ H) as Hn.
  rewrite (quad_samples_value _ _ Hr) in H. injection H as Hn'.
  assert (Hq : 1 < px_len / resolution).
  { apply Qlt_shift_div_l; [exact Hr|]. now rewrite Qmult_1_l. }
  assert (Hc : inject_Z (n - 1) < px_len / resolution).
  { destruct (Z.max_spec 2 (Qceiling (px_len / resolution))) as [[Hlt E] | [Hge E]];
      rewrite E in Hn'; subst n.
    - unfold Z.sub. rewrite inject_Z_plus. pose proof (Qceiling_lt (px_len / resolution)).
      change (inject_Z (- (1))) with (- (1)). unfold Z.sub in H. rewrite inject_Z_plus in H.
      change (inject_Z (- (1))) with (- (1)) in H. exact H.
    - exact Hq. }
  assert (Hpos : 0 < inject_Z (n - 1)) by (change 0 with (inject_Z 0); rewrite <- Zlt_Qlt; lia).
  unfold quad_step. apply Qlt_shift_div_l; [exact Hpos|].
  apply (Qmult_lt_r _ _ resolution) in Hc; [|exact Hr].
  assert (Ediv : px_len / resolution * resolution == px_len)
    by (field; intros E; rewrite E in Hr; discriminate Hr).
  rewrite Ediv in Hc.
  rewrite Qmult_comm. exact Hc.
Qed.

(** The step is within the resolution exactly when the whole pixel is. *)
Lemma quad_step_within_resolution px_len resolution n :
  0 < resolution -> px_len <= resolution ->
  quad_samples px_len resolution = Ok n ->
  n = 2%Z /\ quad_step px_len n <= resolution.
Proof.
  intros Hr Hl H. rewrite (quad_samples_value _ _ Hr) in H. injection H as Hn.
  assert (Hq : px_len / resolution <= 1).
  { apply Qle_shift_div_r; [exact Hr|]. now rewrite Qmult_1_l. }
  assert (Hc : (Qceiling (px_len / resolution) <= 1)%Z).
  { change 1%Z with (Qceiling 1). apply Qceiling_resp_le. exact Hq. }
  assert (E : n = 2%Z) by lia.
  split; [exact E|]. rewrite E. unfold quad_step.
  change (inject_Z (2 - 1)) with 1.
  assert (E1 : px_len / 1 == px_len) by field. now rewrite E1.
Qed.

(** C1.  The sample count and the step that [_applyPSF] computes for a
    3 um pixel and a 1 um PSF resolution: three samples, hence a step of
    1.5 um, which is not within the resolution. *)
Theorem quad_step_3um_pixel_1um_resolution :
  quad_samples 3 1 = Ok 3%Z /\
  quad_step 3 3 == 3 # 2 /\
  ~ quad_step 3 3 <= 1.
Proof.
  split; [reflexivity|]. split; [reflexivity|].
  intros H. vm_compute in H. apply H. reflexivity.
Qed.

(** ** Construction: the [bias] argument *)

Lemma init_bias_scalar width_px height_px v :
  init_bias width_px height_px (Arr0 v) = Ok (Arr0 v).
Proof. reflexivity. Qed.

Lemma init_bias_length1 width_px height_px v :
  init_bias width_px height_px (Arr1 [v]) =
  if (width_px =? 1)%Z then Ok (Arr2 (repeat [v] (Z.to_nat height_px)))
  else Raise ValueError_bias.
Proof.
  unfold init_bias. cbn [length]. change (Z.of_nat 1) with 1%Z.
  rewrite (Z.eqb_sym 1 width_px). reflexivity.
Qed.

(** A scalar bias is added to every element at [readout]. *)
Lemma add_bias_scalar h w raw v :
  add_bias h w raw (Arr0 v) = Ok (grid_map2 Qplus raw (repeat (repeat (inject_Z v) w) h)).
Proof. reflexivity. Qed.



(** ** Arrays: shapes and element access *)

Section GridFacts.
Context {A B C : Type}.

Lemma nth_zip_with (f : A -> B -> C) (a : list A) (b : list B) i da db dc :
  (i < length a)%nat -> (i < length b)%nat ->
  nth i (zip_with f a b) dc = f (nth i a da) (nth i b db).
Proof.
  revert b i. induction a as [|x a IH]; intros [|y b] [|i] Ha Hb; cbn in *;
    try lia; [reflexivity|]. apply IH; lia.
Qed.

Lemma nth_map_in (f : A -> B) (a : list A) i da db :
  (i < length a)%nat -> nth i (map f a) db = f (nth i a da).
Proof.
  revert i. induction a as [|x a IH]; intros [|i] Ha; cbn in *; try lia;
    [reflexivity|]. apply IH; lia.
Qed.

Lemma shape_is_row h w (a : grid A) i :
  shape_is h w a -> (i < h)%nat -> length (nth i a []) = w.
Proof.
  intros [Hl Hr] Hi. rewrite Forall_forall in Hr. apply Hr.
  apply list_elem_of_In, nth_In. lia.
Qed.

Lemma shape_is_grid_map h w (f : A -> B) (a : grid A) :
  shape_is h w a -> shape_is h w (grid_map f a).
Proof.
  intros [Hl Hr]. split; [unfold grid_map; now rewrite length_map|].
  unfold grid_map. apply Forall_map. eapply Forall_impl; [exact Hr|].
  intros row E. cbn. now rewrite length_map.
Qed.

Lemma shape_is_grid_map2 h w (f : A -> B -> C) (a : grid A) (b : grid B) :
  shape_is h w a -> shape_is h w b -> shape_is h w (grid_map2 f a b).
Proof.
  intros [Hla Hra] [Hlb Hrb]. unfold grid_map2. split.
  - rewrite length_zip_with. lia.
  - subst h. revert b Hlb Hrb.
    induction a as [|ra a IH]; intros [|rb b] Hlb Hrb; cbn; try constructor.
    + rewrite length_zip_with. inversion Hra; inversion Hrb; subst. lia.
    + inversion Hra; inversion Hrb; subst. apply IH; auto.
Qed.

Lemma shape_is_repeat h w (x : A) : shape_is h w (repeat (repeat x w) h).
Proof.
  split; [apply repeat_length|]. apply Forall_forall. intros row Hin.
  apply list_elem_of_In, repeat_spec in Hin. subst. apply repeat_length.
Qed.

Lemma everywhere_grid_map2 (P : A -> Prop) (Q0 : B -> Prop) (R : C -> Prop)
  (f : A -> B -> C) (a : grid A) (b : grid B) :
  (forall x y, P x -> Q0 y -> R (f x y)) ->
  everywhere P a -> everywhere Q0 b -> everywhere R (grid_map2 f a b).
Proof.
  intros Hf. unfold everywhere, grid_map2. revert b.
  induction a as [|ra a IH]; intros [|rb b] Ha Hb; cbn; try constructor.
  - inversion Ha as [|? ? Hra _]; inversion Hb as [|? ? Hrb _]; subst.
    clear -Hf Hra Hrb. revert rb Hrb.
    induction ra as [|x ra IHr]; intros [|y rb] Hrb; cbn; try constructor.
    + inversion Hra; inversion Hrb; subst. auto.
    + inversion Hra; inversion Hrb; subst. auto.
  - inversion Ha; inversion Hb; subst. auto.
Qed.

Lemma everywhere_impl (P P' : A -> Prop) (a : grid A) :
  (forall x, P x -> P' x) -> everywhere P a -> everywhere P' a.
Proof.
  intros H Ha. unfold everywhere in *. eapply Forall_impl; [exact Ha|].
  intros row Hr. eapply Forall_impl; [exact Hr | exact H].
Qed.

Lemma everywhere_repeat (P : A -> Prop) h w x : P x -> everywhere P (repeat (repeat x w) h).
Proof.
  intros H. apply Forall_forall. intros row Hin.
  apply list_elem_of_In, repeat_spec in Hin. subst.
  apply Forall_forall. intros y Hy. apply list_elem_of_In, repeat_spec in Hy. now subst.
Qed.

End GridFacts.

Lemma cell_grid_map h w (f : Q -> Q) (a : grid Q) i j :
  shape_is h w a -> (i < h)%nat -> (j < w)%nat ->
  cell (grid_map f a) i j = f (cell a i j).
Proof.
  intros Hs Hi Hj. unfold cell, grid_map.
  rewrite (nth_map_in (map f) a i [] []) by (destruct Hs; lia).
  apply nth_map_in. rewrite (shape_is_row h w a i Hs Hi). exact Hj.
Qed.

Lemma cell_grid_map2 h w (f : Q -> Q -> Q) (a b : grid Q) i j :
  shape_is h w a -> shape_is h w b -> (i < h)%nat -> (j < w)%nat ->
  cell (grid_map2 f a b) i j = f (cell a i j) (cell b i j).
Proof.
  intros Ha Hb Hi Hj. unfold cell, grid_map2.
  rewrite (nth_zip_with (zip_with f) a b i [] [] []) by (destruct Ha, Hb; lia).
  apply nth_zip_with.
  - rewrite (shape_is_row h w a i Ha Hi). exact Hj.
  - rewrite (shape_is_row h w b i Hb Hi). exact Hj.
Qed.

Lemma cell_outside h w (a : grid Q) i j :
  shape_is h w a -> (h <= i)%nat \/ (w <= j)%nat -> cell a i j = 0.
Proof.
  intros Hs Hout. unfold cell.
  destruct (Nat.lt_ge_cases i h) as [Hi | Hi].
  - apply nth_overflow. rewrite (shape_is_row h w a i Hs Hi). lia.
  - rewrite (nth_overflow a) by (destruct Hs; lia). now destruct j.
Qed.

Lemma everywhere_cell h w (P : Q -> Prop) (a : grid Q) :
  shape_is h w a ->
  (everywhere P a <-> forall i j, (i < h)%nat -> (j < w)%nat -> P (cell a i j)).
Proof.
  intros [Hl Hr]. unfold everywhere, cell. split.
  - intros Ha i j Hi Hj.
    assert (Hin : In (nth i a []) a) by (apply nth_In; lia).
    rewrite Forall_forall in Ha, Hr.
    pose proof (Ha _ (proj2 (list_elem_of_In _ _) Hin)) as Hrow.
    pose proof (Hr _ (proj2 (list_elem_of_In _ _) Hin)) as Hlen.
    rewrite Forall_forall in Hrow. apply Hrow, list_elem_of_In, nth_In. lia.
  - intros H. apply Forall_forall. intros row Hrow.
    apply list_elem_of_In, (In_nth _ _ []) in Hrow as (i & Hi & <-).
    apply Forall_forall. intros x Hx.
    apply list_elem_of_In, (In_nth _ _ 0) in Hx as (j & Hj & <-).
    apply H; [lia|].
    rewrite Forall_forall in Hr. rewrite <- (Hr (nth i a [])); [exact Hj|].
    apply list_elem_of_In, nth_In. exact Hi.
Qed.

Lemma everywhere_grid_map_of {A B} (P : A -> Prop) (R : B -> Prop) (f : A -> B)
  (a : grid A) :
  (forall x, P x -> R (f x)) -> everywhere P a -> everywhere R (grid_map f a).
Proof.
  intros H Ha. unfold everywhere, grid_map in *.
  apply Forall_map. eapply Forall_impl; [exact Ha|]. intros row Hr. cbn.
  apply Forall_map. eapply Forall_impl; [exact Hr|]. exact H.
Qed.

Lemma cell_repeat h w (x : Q) i j :
  (i < h)%nat -> (j < w)%nat -> cell (repeat (repeat x w) h) i j = x.
Proof.
  intros Hi Hj. unfold cell.
  rewrite (nth_repeat_lt (repeat x w) [] Hi). apply nth_repeat_lt. exact Hj.
Qed.

Lemma is_integer_inject z : is_integer (inject_Z z).
Proof. exists z. reflexivity. Qed.

Lemma is_integer_plus a b : is_integer a -> is_integer b -> is_integer (a + b).
Proof.
  intros [x Hx] [y Hy]. exists (x + y)%Z. rewrite Hx, Hy, inject_Z_plus. reflexivity.
Qed.

Lemma is_integer_min a b : is_integer a -> is_integer b -> is_integer (Qmin a b).
Proof.
  intros [x Hx] [y Hy].
  destruct (Q.min_spec a b) as [[_ E] | [_ E]]; [exists x | exists y]; now rewrite E.
Qed.

(** ** The generator's draws *)

Section DrawFacts.
Context {rng : Type} (draw : Q -> rng -> nat * rng).

Lemma draws_length lams g : length (fst (draws draw lams g)) = length lams.
Proof.
  revert g. induction lams as [|lam lams IH]; intros g; cbn; [reflexivity|].
  destruct (draw lam g) as [n g1]. specialize (IH g1).
  destruct (draws draw lams g1) as [ns g2]. cbn in *. now rewrite IH.
Qed.

Lemma draws_all (P : Q -> Prop) lams g :
  (forall n : nat, P (inject_Z (Z.of_nat n))) -> Forall P (fst (draws draw lams g)).
Proof.
  intros HP. revert g. induction lams as [|lam lams IH]; intros g; cbn; [constructor|].
  destruct (draw lam g) as [n g1]. specialize (IH g1).
  destruct (draws draw lams g1) as [ns g2]. cbn in *. constructor; [apply HP | exact IH].
Qed.

Lemma draws_grid_all (P : Q -> Prop) lams g :
  (forall n : nat, P (inject_Z (Z.of_nat n))) ->
  everywhere P (fst (draws_grid draw lams g)).
Proof.
  intros HP. revert g. induction lams as [|row lams IH]; intros g; cbn; [constructor|].
  pose proof (draws_all P row g HP) as Hrow.
  destruct (draws draw row g) as [r g1]. specialize (IH g1).
  destruct (draws_grid draw lams g1) as [rs g2]. cbn in *. constructor; assumption.
Qed.

Lemma draws_grid_shape h w lams g :
  shape_is h w lams -> shape_is h w (fst (draws_grid draw lams g)).
Proof.
  intros [Hl Hr]. subst h. revert g.
  induction lams as [|row lams IH]; intros g; cbn; [split; [reflexivity | constructor]|].
  pose proof (draws_length row g) as Hlen.
  destruct (draws draw row g) as [r g1].
  inversion Hr as [|? ? Hrow Hrest]; subst.
  destruct (IH Hrest g1) as [IHl IHr].
  destruct (draws_grid draw lams g1) as [rs g2]. cbn in *.
  split; [cbn; f_equal; exact IHl | constructor; [congruence | exact IHr]].
Qed.

Lemma count_nonneg (n : nat) : 0 <= inject_Z (Z.of_nat n).
Proof. change 0 with (inject_Z 0). rewrite <- Zle_Qle. lia. Qed.

End DrawFacts.

(** ** Analog to digital conversion *)

Section ReadoutFacts.
Context {rng : Type} (draw : Q -> rng -> nat * rng).

Lemma broadcast_row_same w0 (v : list Q) : length v = w0 -> broadcast_row w0 v = Some v.
Proof. intros <-. unfold broadcast_row. now rewrite Nat.eqb_refl. Qed.

Lemma broadcast_to_shaped h w0 (a : grid Q) :
  shape_is h w0 a -> broadcast_to h w0 (Arr2 a) = Some a.
Proof.
  intros [Hl Hr]. unfold broadcast_to.
  assert (E : mapM (broadcast_row w0) a = Some a).
  { apply mapM_Some_2. clear Hl. induction a as [|row a IH]; [constructor|].
    inversion Hr; subst. constructor; [now apply broadcast_row_same | auto]. }
  rewrite E. subst h. now rewrite Nat.eqb_refl.
Qed.

Lemma Qleb_dec_true a b : a <= b -> Qleb_dec a b = true.
Proof.
  intros H. unfold Qleb_dec. destruct (Qlt_le_dec b a) as [Hlt|]; [|reflexivity].
  exfalso. apply (Qlt_not_le _ _ Hlt H).
Qed.


End ReadoutFacts.

Lemma demo_sensor_wf dc bl : bl ⊆ valid_bloom_dirs -> wf_sensor (demo_sensor dc bl).
Proof.
  intros Hb. unfold wf_sensor. cbn.
  repeat split; try lia; try exact Hb; repeat constructor.
Qed.


(** ** What [__init__] establishes *)

Lemma has_shape_shape_is {A} (h w : Z) (a : grid A) :
  has_shape h w a = true -> shape_is (Z.to_nat h) (Z.to_nat w) a.
Proof.
  unfold has_shape. intros H. apply andb_prop in H as [Hl Hr].
  apply Z.eqb_eq in Hl. split; [lia|].
  rewrite forallb_forall in Hr. apply Forall_forall. intros row Hin.
  apply list_elem_of_In, Hr, Z.eqb_eq in Hin. lia.
Qed.

Lemma shape_is_tile {A} h (v : list A) : shape_is h (length v) (repeat v h).
Proof.
  split; [apply repeat_length|]. apply Forall_forall. intros row Hin.
  apply list_elem_of_In, repeat_spec in Hin. now subst.
Qed.

Lemma init_hot_pixels_shape width_px height_px hp hot :
  init_hot_pixels width_px height_px hp = Ok hot ->
  shape_is (Z.to_nat height_px) (Z.to_nat width_px) hot.
Proof.
  unfold init_hot_pixels. destruct hp as [[v | v | v |] |]; try discriminate.
  - destruct (has_shape height_px width_px v) eqn:E; [|discriminate].
    intros H; inversion H; subst. now apply has_shape_shape_is.
  - intros H; inversion H; subst. apply shape_is_grid_map, shape_is_repeat.
Qed.

Lemma init_bias_shape width_px height_px b b' :
  (0 <= width_px)%Z ->
  init_bias width_px height_px b = Ok b' ->
  match b' with
  | Arr0 _ => True
  | Arr2 v => shape_is (Z.to_nat height_px) (Z.to_nat width_px) v
  | _ => False
  end.
Proof.
  intros Hw. unfold init_bias. destruct b as [v | v | v |]; try discriminate.
  - intros H; inversion H; subst. exact I.
  - destruct (Z.of_nat (length v) =? width_px)%Z eqn:E; [|discriminate].
    intros H; inversion H; subst. apply Z.eqb_eq in E.
    replace (Z.to_nat width_px) with (length v) by lia. apply shape_is_tile.
  - destruct (has_shape height_px width_px v) eqn:E; [|discriminate].
    intros H; inversion H; subst. now apply has_shape_shape_is.
Qed.

(** A sensor that [__init__] returns is well formed. *)
Lemma init_wf w_px h_px len pitch qe dc hp rn gn bs fwc adc bl rt s :
  __init__ w_px h_px len pitch qe dc hp rn gn bs fwc adc bl rt = Ok s ->
  wf_sensor s.
Proof.
  unfold __init__.
  destruct ((w_px <? 0) || (h_px <? 0))%Z eqn:Hd; [discriminate|].
  apply orb_false_elim in Hd as [Hw Hh]. apply Z.ltb_ge in Hw, Hh.
  destruct len as [l | [lx ly]], pitch as [p | [px py]];
    (destruct (init_hot_pixels w_px h_px hp) as [hot | |] eqn:Ehot;
       [|discriminate|discriminate]);
    (destruct (init_bias w_px h_px bs) as [b | |] eqn:Eb;
       [|discriminate|discriminate]);
    (destruct (bool_decide (bl ⊆ valid_bloom_dirs)) eqn:Ebl; [|discriminate]);
    cbn [negb]; intros H; inversion H; subst;
    refine (conj Hh (conj Hw (conj _ (conj _ (conj _ _)))));
    cbn [pixels hot_pixels bias bloom height_px width_px];
    first [ apply shape_is_repeat
          | eapply init_hot_pixels_shape; eassumption
          | exact (init_bias_shape _ _ _ _ Hw Eb)
          | exact (proj1 (bool_decide_eq_true _) Ebl) ].
Qed.

(** ** Non-negativity of the buffer *)

Ltac bind_cases H :=
  let a := fresh "a" in let w1 := fresh "w1" in let H1 := fresh "H1" in
  let e := fresh "e" in let Er := fresh "Er" in
  apply bind_inv in H as [(a & w1 & H1 & H) | [(e & H & Er) | (H & Er)]].

Ltac inv_pure H :=
  unfold self, lift, ret, raise, assign_pixels in H; inversion H; subst; clear H.

Section NonnegFacts.
Context {rng : Type} (draw : Q -> rng -> nat * rng).

Lemma poisson_inv lams (w : Sensor * rng) r w' :
  poisson draw lams w = (r, w') ->
  fst w' = fst w /\ forall ns, r = Ok ns -> ns = fst (draws draw lams (snd w)).
Proof.
  unfold poisson. destruct (all_nonneg lams).
  - destruct (draws draw lams (snd w)) as [ns g'] eqn:E. intros H; inversion H; subst.
    split; [reflexivity|]. intros ns' Hns. now inversion Hns.
  - intros H; inversion H; subst. split; [reflexivity | discriminate].
Qed.

Lemma poisson_grid_inv lams (w : Sensor * rng) r w' :
  poisson_grid draw lams w = (r, w') ->
  fst w' = fst w /\ forall ns, r = Ok ns -> ns = fst (draws_grid draw lams (snd w)).
Proof.
  unfold poisson_grid. destruct (forallb all_nonneg lams).
  - destruct (draws_grid draw lams (snd w)) as [ns g'] eqn:E. intros H; inversion H; subst.
    split; [reflexivity|]. intros ns' Hns. now inversion Hns.
  - intros H; inversion H; subst. split; [reflexivity | discriminate].
Qed.

Lemma poisson_sized_inv lam h w0 (w : Sensor * rng) r w' :
  poisson_sized draw lam h w0 w = (r, w') ->
  fst w' = fst w /\
  forall ns, r = Ok ns ->
    exists lams, broadcast_to h w0 lam = Some lams /\
                 ns = fst (draws_grid draw lams (snd w)).
Proof.
  unfold poisson_sized. destruct (negb (ndarray_nonneg lam)).
  - intros H; inv_pure H. split; [reflexivity | discriminate].
  - destruct (broadcast_to h w0 lam) as [lams|].
    + intros H. apply poisson_grid_inv in H as [E Hns]. split; [exact E|].
      intros ns Hr. exists lams. split; [reflexivity | now apply Hns].
    + intros H; inv_pure H. split; [reflexivity | discriminate].
Qed.

Lemma nonneg_add_at p iy ix v : nonneg p -> 0 <= v -> nonneg (add_at p iy ix v).
Proof.
  intros Hp Hv. unfold nonneg, everywhere, add_at.
  apply Forall_alter; [exact Hp|]. intros row _ Hrow.
  apply Forall_alter; [exact Hrow|]. intros x _ Hx. cbn beta.
  rewrite <- (Qplus_0_r 0). apply Qplus_le_compat; assumption.
Qed.

Lemma nonneg_add_all cells vals p :
  nonneg p -> Forall (fun v => 0 <= v) vals -> nonneg (add_all p cells vals).
Proof.
  revert vals p. induction cells as [|[iy ix] cells IH]; intros [|v vals] p Hp Hv;
    cbn; try exact Hp.
  inversion Hv; subst. apply IH; [apply nonneg_add_at|]; assumption.
Qed.

Lemma nonneg_plus_draws p n :
  nonneg p -> nonneg n -> nonneg (grid_map2 Qplus p n).
Proof.
  intros Hp Hn.
  apply (everywhere_grid_map2 (fun v => 0 <= v) (fun v => 0 <= v)); [|exact Hp|exact Hn].
  intros x y Hx Hy. rewrite <- (Qplus_0_r 0). apply Qplus_le_compat; assumption.
Qed.

Lemma keeps_bind {A B} (P : grid Q -> Prop) (m : @M rng A) (f : A -> @M rng B) :
  keeps P m -> (forall a, keeps P (f a)) -> keeps P (bind m f).
Proof.
  intros Hm Hf w r w' H Hp. bind_cases H.
  - eapply Hf; [exact H|]. eapply Hm; eassumption.
  - eapply Hm; eassumption.
  - eapply Hm; eassumption.
Qed.

Lemma keeps_ret {A} P (a : A) : keeps (rng:=rng) P (ret a).
Proof. intros w r w' H Hp. inv_pure H. exact Hp. Qed.

Lemma keeps_deposit_source lens nx ny dx dy bx by_ x y i :
  keeps nonneg (deposit_source draw lens nx ny dx dy bx by_ x y i).
Proof.
  intros w r w' H Hp. unfold deposit_source in H.
  rewrite bind_self, bind_lift in H.
  destruct (center_index x _ _ _ _) as [xi | |]; [|inv_pure H; exact Hp ..].
  rewrite bind_lift in H.
  destruct (center_index y _ _ _ _) as [yi | |]; [|inv_pure H; exact Hp ..].
  bind_cases H.
  - apply poisson_inv in H1 as [E Hns]. specialize (Hns _ eq_refl).
    inv_pure H. cbn [fst pixels set_pixels].
    apply nonneg_add_all; [exact Hp|].
    apply draws_all. exact count_nonneg.
  - apply poisson_inv in H as [E _]. now rewrite E.
  - apply poisson_inv in H as [E _]. now rewrite E.
Qed.

Lemma keeps_for_sources P body xs ys es :
  (forall x y i, keeps P (body x y i)) -> keeps (rng:=rng) P (for_sources body xs ys es).
Proof.
  intros Hb. revert ys es.
  induction xs as [|x xs IH]; intros [|y ys] [|e es]; cbn; try apply keeps_ret.
  apply keeps_bind; [apply Hb | intros _; apply IH].
Qed.

Lemma keeps__applyPSF lens xs ys es : keeps nonneg (_applyPSF draw lens xs ys es).
Proof.
  intros w r w' H Hp. unfold _applyPSF in H.
  rewrite bind_self in H.
  do 4 (rewrite bind_lift in H;
        match type of H with
        | match ?x with _ => _ end = _ => destruct x; [|inv_pure H; exact Hp ..]
        end).
  eapply keeps_for_sources; [|exact H|exact Hp].
  intros. apply keeps_deposit_source.
Qed.

(** The PSF deposit keeps the buffer non-negative. *)
Lemma keeps_source_stage lens t xs ys fs : keeps nonneg (source_stage draw lens t xs ys fs).
Proof.
  intros w r w' H Hp. unfold source_stage in H.
  rewrite bind_self in H.
  destruct (0 <? length fs)%nat.
  - eapply keeps__applyPSF; eassumption.
  - inv_pure H. exact Hp.
Qed.

(** The background deposit keeps the buffer non-negative. *)
Lemma keeps_background_stage lens t bg : keeps nonneg (background_stage draw lens t bg).
Proof.
  intros w r w' H Hp. unfold background_stage in H.
  rewrite bind_self in H.
  bind_cases H.
  - apply poisson_sized_inv in H1 as [E Hns].
    destruct (Hns _ eq_refl) as (lams & _ & En).
    inv_pure H. cbn [fst pixels set_pixels].
    apply nonneg_plus_draws; [exact Hp|].
    apply draws_grid_all. exact count_nonneg.
  - apply poisson_sized_inv in H as [E _]. now rewrite E.
  - apply poisson_sized_inv in H as [E _]. now rewrite E.
Qed.

(** The dark-current deposit keeps the buffer non-negative. *)
Lemma keeps_dark_stage t temp : keeps nonneg (dark_stage draw t temp).
Proof.
  intros w r w' H Hp. unfold dark_stage in H.
  rewrite bind_self in H.
  bind_cases H.
  - apply poisson_grid_inv in H1 as [E Hns]. specialize (Hns _ eq_refl).
    inv_pure H. cbn [fst pixels set_pixels].
    apply nonneg_plus_draws; [exact Hp|].
    apply draws_grid_all. exact count_nonneg.
  - apply poisson_grid_inv in H as [E _]. now rewrite E.
  - apply poisson_grid_inv in H as [E _]. now rewrite E.
Qed.

End NonnegFacts.

(** ** The bloom pass, element by element *)

Lemma nth_imap {A B} (f : nat -> A -> B) (l : list A) i da db :
  (i < length l)%nat -> nth i (imap f l) db = f i (nth i l da).
Proof.
  intros Hi. rewrite !nth_lookup, list_lookup_imap.
  destruct (lookup_lt_is_Some_2 l i Hi) as [x Hx]. now rewrite Hx.
Qed.

Lemma Forall_imap_all {A B} (P : B -> Prop) (f : nat -> A -> B) (l : list A) :
  (forall i x, P (f i x)) -> Forall P (imap f l).
Proof.
  revert f. induction l as [|x l IH]; intros f H; [constructor|].
  rewrite imap_cons. constructor; [apply H | apply IH; intros; apply H].
Qed.

Lemma zip_with_map_same {A B C} (f : A -> B -> C) (g : A -> B) (l : list A) :
  zip_with f l (map g l) = map (fun v => f v (g v)) l.
Proof. induction l as [|x l IH]; cbn; [reflexivity | now rewrite IH]. Qed.

Lemma grid_map2_map_same {A B C} (f : A -> B -> C) (g : A -> B) (a : grid A) :
  grid_map2 f a (grid_map g a) = grid_map (fun v => f v (g v)) a.
Proof.
  unfold grid_map2, grid_map. induction a as [|row a IH]; cbn; [reflexivity|].
  now rewrite zip_with_map_same, IH.
Qed.

Lemma shape_is_convolve h w (a K : grid Q) :
  shape_is h w a -> shape_is h w (convolve2d_same a K).
Proof.
  intros [Hl Hr]. unfold convolve2d_same. split; [now rewrite length_imap|].
  apply Forall_forall. intros row Hin.
  apply list_elem_of_In, (In_nth _ _ []) in Hin as (i & Hi & <-).
  rewrite length_imap in Hi.
  rewrite (nth_imap _ a i [] []) by exact Hi. rewrite length_imap.
  rewrite Forall_forall in Hr. apply Hr, list_elem_of_In, nth_In. exact Hi.
Qed.

Lemma shape_is_bloom_excess h w F (p : grid Q) :
  shape_is h w p -> shape_is h w (bloom_excess F p).
Proof. apply shape_is_grid_map. Qed.

Lemma shape_is_bloom_step h w F K (p : grid Q) :
  shape_is h w p -> shape_is h w (bloom_step F K p).
Proof.
  intros Hp. unfold bloom_step.
  apply shape_is_grid_map2.
  - apply shape_is_grid_map2; [exact Hp | now apply shape_is_bloom_excess].
  - apply shape_is_grid_map, shape_is_convolve. now apply shape_is_bloom_excess.
Qed.

(** One element of [convolve2d]. *)
Lemma cell_convolve h w (a K : grid Q) i j :
  shape_is h w a -> (i < h)%nat -> (j < w)%nat ->
  cell (convolve2d_same a K) i j =
  Qsum (map (fun m =>
    Qsum (map (fun n => at2 K m n * at2 a (Z.of_nat i + 1 - m) (Z.of_nat j + 1 - n))
              [0; 1; 2]%Z)) [0; 1; 2]%Z).
Proof.
  intros Hs Hi Hj. unfold cell, convolve2d_same.
  rewrite (nth_imap _ a i [] []) by (destruct Hs; lia).
  rewrite (nth_imap _ _ j 0 0) by (rewrite (shape_is_row h w a i Hs Hi); exact Hj).
  reflexivity.
Qed.

(** With the kernel of [_applyBloom], the convolution is the inflow from
    the four orthogonal neighbours. *)
Lemma cell_convolve_filter h w (a : grid Q) bl i j :
  shape_is h w a -> (i < h)%nat -> (j < w)%nat ->
  cell (convolve2d_same a (conv_filter bl)) i j ==
  bloom_inflow bl (at2 a) (Z.of_nat i) (Z.of_nat j).
Proof.
  intros Hs Hi Hj. rewrite (cell_convolve h w) by assumption.
  unfold bloom_inflow, Qsum. cbn [map fold_right].
  change (at2 (conv_filter bl) 0 0) with 0.
  change (at2 (conv_filter bl) 0 1) with (kernel_weight bl "-y").
  change (at2 (conv_filter bl) 0 2) with 0.
  change (at2 (conv_filter bl) 1 0) with (kernel_weight bl "-x").
  change (at2 (conv_filter bl) 1 1) with 0.
  change (at2 (conv_filter bl) 1 2) with (kernel_weight bl "+x").
  change (at2 (conv_filter bl) 2 0) with 0.
  change (at2 (conv_filter bl) 2 1) with (kernel_weight bl "+y").
  change (at2 (conv_filter bl) 2 2) with 0.
  replace (Z.of_nat i + 1 - 0)%Z with (Z.of_nat i + 1)%Z by lia.
  replace (Z.of_nat i + 1 - 1)%Z with (Z.of_nat i) by lia.
  replace (Z.of_nat i + 1 - 2)%Z with (Z.of_nat i - 1)%Z by lia.
  replace (Z.of_nat j + 1 - 0)%Z with (Z.of_nat j + 1)%Z by lia.
  replace (Z.of_nat j + 1 - 1)%Z with (Z.of_nat j) by lia.
  replace (Z.of_nat j + 1 - 2)%Z with (Z.of_nat j - 1)%Z by lia.
  ring.
Qed.

Lemma at2_inside (a : grid Q) i j :
  (0 <= i)%Z -> (0 <= j)%Z -> at2 a i j = cell a (Z.to_nat i) (Z.to_nat j).
Proof.
  intros Hi Hj. unfold at2.
  replace (i <? 0)%Z with false by (symmetry; apply Z.ltb_ge; exact Hi).
  replace (j <? 0)%Z with false by (symmetry; apply Z.ltb_ge; exact Hj).
  reflexivity.
Qed.

Lemma at2_of_nat (a : grid Q) i j : at2 a (Z.of_nat i) (Z.of_nat j) = cell a i j.
Proof. rewrite at2_inside by lia. now rewrite !Nat2Z.id. Qed.

Lemma at2_outside h w (a : grid Q) i j :
  shape_is h w a ->
  ~ ((0 <= i < Z.of_nat h)%Z /\ (0 <= j < Z.of_nat w)%Z) -> at2 a i j = 0.
Proof.
  intros Hs Hout. unfold at2.
  destruct (i <? 0)%Z eqn:Ei; [reflexivity|].
  destruct (j <? 0)%Z eqn:Ej; [reflexivity|]. cbn [orb].
  apply Z.ltb_ge in Ei, Ej. apply (cell_outside h w); [exact Hs|]. lia.
Qed.

Lemma at2_excess_inside h w F (p : grid Q) i j :
  shape_is h w p -> (i < h)%nat -> (j < w)%nat ->
  at2 (bloom_excess F p) (Z.of_nat i) (Z.of_nat j) = Qmax 0 (cell p i j - F).
Proof.
  intros Hs Hi Hj. rewrite at2_of_nat. unfold bloom_excess.
  now rewrite (cell_grid_map h w).
Qed.

(** One element of the buffer after one pass of the bloom loop. *)
Lemma cell_bloom_step h w F bl (p : grid Q) i j :
  shape_is h w p -> (i < h)%nat -> (j < w)%nat ->
  cell (bloom_step F (conv_filter bl) p) i j =
  (cell p i j - Qmax 0 (cell p i j - F)) +
  inject_Z (Qfloor (bloom_inflow bl (at2 (bloom_excess F p)) (Z.of_nat i) (Z.of_nat j))).
Proof.
  intros Hs Hi Hj. unfold bloom_step.
  pose proof (shape_is_bloom_excess h w F p Hs) as He.
  rewrite (cell_grid_map2 h w); try assumption.
  - rewrite (cell_grid_map2 h w) by assumption.
    rewrite (cell_grid_map h w) by (try assumption; now apply shape_is_convolve).
    f_equal; [f_equal; unfold bloom_excess; now rewrite (cell_grid_map h w)|].
    f_equal. apply Qfloor_comp. now apply (cell_convolve_filter h w).
  - now apply shape_is_grid_map2.
  - apply shape_is_grid_map. now apply shape_is_convolve.
Qed.

(** ** Non-negativity through the bloom stage *)

Lemma cell_nonneg (a : grid Q) i j : nonneg a -> 0 <= cell a i j.
Proof.
  intros Ha. unfold cell.
  destruct (nth_in_or_default i a []) as [Hin | E].
  - unfold nonneg, everywhere in Ha. rewrite Forall_forall in Ha.
    apply list_elem_of_In, Ha in Hin.
    destruct (nth_in_or_default j (nth i a []) 0) as [Hin' | E'].
    + rewrite Forall_forall in Hin. apply Hin, list_elem_of_In, Hin'.
    + rewrite E'. apply Qle_refl.
  - rewrite E. destruct j; apply Qle_refl.
Qed.

Lemma at2_nonneg (a : grid Q) i j : nonneg a -> 0 <= at2 a i j.
Proof.
  intros Ha. unfold at2. destruct ((i <? 0) || (j <? 0))%Z; [apply Qle_refl|].
  now apply cell_nonneg.
Qed.

Lemma Qsum_nonneg (l : list Q) : Forall (fun v => 0 <= v) l -> 0 <= Qsum l.
Proof.
  induction 1 as [|x l Hx _ IH]; cbn; [apply Qle_refl|].
  unfold Qsum in IH. lra.
Qed.

Lemma nonneg_convolve (a K : grid Q) : nonneg a -> nonneg K -> nonneg (convolve2d_same a K).
Proof.
  intros Ha HK. unfold nonneg, everywhere, convolve2d_same.
  apply Forall_imap_all. intros i row. apply Forall_imap_all. intros j _.
  apply Qsum_nonneg, Forall_map, Forall_forall. intros m _. cbn beta.
  apply Qsum_nonneg, Forall_map, Forall_forall. intros n _. cbn beta.
  apply Qmult_le_0_compat; now apply at2_nonneg.
Qed.

Lemma kernel_weight_nonneg bl d : 0 <= kernel_weight bl d.
Proof.
  unfold kernel_weight. destruct (bool_decide (d ∈ bl)); [|apply Qle_refl].
  unfold Qdiv. rewrite Qmult_1_l. apply Qinv_le_0_compat.
  change 0 with (inject_Z 0). rewrite <- Zle_Qle. lia.
Qed.

Lemma nonneg_conv_filter bl : nonneg (conv_filter bl).
Proof.
  unfold conv_filter. fold (kernel_weight bl "-y") (kernel_weight bl "-x")
    (kernel_weight bl "+x") (kernel_weight bl "+y").
  repeat constructor; try apply Qle_refl; apply kernel_weight_nonneg.
Qed.

Lemma capped_nonneg F v : 0 <= F -> 0 <= v -> 0 <= v - Qmax 0 (v - F).
Proof.
  intros HF Hv. destruct (Q.max_spec 0 (v - F)) as [[Hlt E] | [Hle E]]; rewrite E; lra.
Qed.

Lemma capped_at_most F v : v - Qmax 0 (v - F) <= F.
Proof.
  destruct (Q.max_spec 0 (v - F)) as [[Hlt E] | [Hle E]]; rewrite E; lra.
Qed.

Lemma nonneg_bloom_step F (K p : grid Q) :
  0 <= F -> nonneg K -> nonneg p -> nonneg (bloom_step F K p).
Proof.
  intros HF HK Hp. unfold bloom_step, bloom_excess.
  rewrite grid_map2_map_same. apply nonneg_plus_draws.
  - apply (everywhere_grid_map_of (fun v => 0 <= v)); [|exact Hp].
    intros v Hv. now apply capped_nonneg.
  - apply (everywhere_grid_map_of (fun v => 0 <= v)).
    + intros v Hv. change 0 with (inject_Z 0). rewrite <- Zle_Qle.
      change 0%Z with (Qfloor 0). now apply Qfloor_resp_le.
    + apply nonneg_convolve; [|exact HK].
      apply (everywhere_grid_map_of (fun _ => True)); [intros; apply Q.le_max_l|].
      apply Forall_forall; intros; apply Forall_forall; auto.
Qed.

Lemma nonneg_bloom_loop fuel F (K p p' : grid Q) :
  0 <= F -> nonneg K -> nonneg p ->
  bloom_loop fuel F K p = Some p' -> nonneg p'.
Proof.
  intros HF HK. revert p. induction fuel as [|fuel IH]; intros p Hp; cbn; [discriminate|].
  destruct (negb (any_positive (bloom_excess F p))).
  - intros H; inversion H; subst. exact Hp.
  - apply IH. now apply nonneg_bloom_step.
Qed.

Section AccumulateNonneg.
Context {rng : Type} (draw : Q -> rng -> nat * rng).

(** The saturation and bloom stage keeps the buffer non-negative when
    [full_well] is not negative. *)
Lemma applyBloom_nonneg fuel (w : Sensor * rng) r w' :
  _applyBloom fuel w = (r, w') ->
  0 <= full_well (fst w) -> nonneg (pixels (fst w)) -> nonneg (pixels (fst w')).
Proof.
  intros H HF Hp. unfold _applyBloom in H. rewrite bind_self in H.
  destruct (bool_decide (bloom (fst w) = ∅)).
  - inv_pure H. cbn [fst pixels set_pixels].
    apply (everywhere_grid_map_of (fun v => 0 <= v)); [|exact Hp].
    intros v Hv. now apply Q.min_glb.
  - destruct (bloom_loop fuel _ _ _) as [p'|] eqn:E.
    + inv_pure H. cbn [fst pixels set_pixels].
      eapply nonneg_bloom_loop; [exact HF | apply nonneg_conv_filter | exact Hp | exact E].
    + inv_pure H. exact Hp.
Qed.

(** C5.  With [full_well >= 0], a call of [accumulate] that starts from
    a buffer without negative elements leaves a buffer without negative
    elements, whatever its outcome; the PSF deposit, the background, the
    dark current and the bloom stage each keep the property
    ([keeps_source_stage], [keeps_background_stage], [keeps_dark_stage],
    [applyBloom_nonneg]). *)
Theorem accumulate_keeps_nonneg
  fuel lens exposure_time temperature xcoords ycoords photon_flux_density
  background_flux (w : Sensor * rng) r w' :
  0 <= full_well (fst w) ->
  nonneg (pixels (fst w)) ->
  accumulate draw fuel lens exposure_time temperature xcoords ycoords
             photon_flux_density background_flux w = (r, w') ->
  nonneg (pixels (fst w')).
Proof.
  intros HF Hp H. unfold accumulate in H.
  bind_cases H; [|eapply keeps_source_stage; eassumption ..].
  pose proof (keeps_source_stage draw _ _ _ _ _ _ _ _ H1 Hp) as Hp1.
  pose proof (frame_source_stage draw _ _ _ _ _ _ _ _ H1) as Hc1.
  bind_cases H; [|eapply keeps_background_stage; eassumption ..].
  pose proof (keeps_background_stage draw _ _ _ _ _ _ H0 Hp1) as Hp2.
  pose proof (frame_background_stage draw _ _ _ _ _ _ H0) as Hc2.
  bind_cases H; [|eapply keeps_dark_stage; eassumption ..].
  pose proof (keeps_dark_stage draw _ _ _ _ _ H2 Hp2) as Hp3.
  pose proof (frame_dark_stage draw _ _ _ _ _ H2) as Hc3.
  eapply applyBloom_nonneg; [exact H | | exact Hp3].
  rewrite <- Hc3, <- Hc2, <- Hc1. exact HF.
Qed.

End AccumulateNonneg.

Lemma accumulate_keeps_nonneg_witness :
  0 <= full_well (demo_sensor 0 {["+x"]}) /\
  nonneg (np_zeros 3 3) /\
  nonneg (pixels (fst (snd (demo_accumulate 0 {["+x"]} (np_zeros 3 3))))).
Proof.
  assert (HF : 0 <= full_well (demo_sensor 0 {["+x"]})) by (cbn; discriminate).
  assert (Hp : nonneg (np_zeros 3 3)) by (repeat constructor; apply Qle_refl).
  split; [exact HF|]. split; [exact Hp|].
  apply (accumulate_keeps_nonneg tape_draw 10 demo_lens 1 0 [2] [2] [5] (Arr0 1)
           (demo_sensor 0 {["+x"]}, demo_tape)
           (fst (demo_accumulate 0 {["+x"]} (np_zeros 3 3)))
           (snd (demo_accumulate 0 {["+x"]} (np_zeros 3 3))) HF Hp).
  unfold demo_accumulate. apply surjective_pairing.
Defined.

(** ** Failures of [accumulate] *)

Section FailureFacts.
Context {rng : Type} (draw : Q -> rng -> nat * rng).

Lemma poisson_grid_raise lams (w : Sensor * rng) e w' :
  poisson_grid draw lams w = (Raise e, w') -> w' = w /\ e = ValueError_lam.
Proof.
  unfold poisson_grid. destruct (forallb all_nonneg lams).
  - destruct (draws_grid draw lams (snd w)). discriminate.
  - intros H; inversion H; subst. auto.
Qed.

Lemma poisson_grid_negative lams (w : Sensor * rng) :
  forallb all_nonneg lams = false -> poisson_grid draw lams w = (Raise ValueError_lam, w).
Proof. intros E. unfold poisson_grid. now rewrite E. Qed.

Lemma poisson_sized_raise lam h w0 (w : Sensor * rng) e w' :
  poisson_sized draw lam h w0 w = (Raise e, w') -> w' = w.
Proof.
  unfold poisson_sized. destruct (negb (ndarray_nonneg lam)).
  - intros H; inv_pure H. reflexivity.
  - destruct (broadcast_to h w0 lam).
    + intros H. now apply poisson_grid_raise in H as [E _].
    + intros H; inv_pure H. reflexivity.
Qed.

Lemma background_stage_raise lens t bg (w : Sensor * rng) e w' :
  background_stage draw lens t bg w = (Raise e, w') -> w' = w.
Proof.
  unfold background_stage. rewrite bind_self. intros H. bind_cases H.
  - inv_pure H.
  - now apply poisson_sized_raise in H.
  - discriminate Er.
Qed.

(** With no source the first stage does nothing. *)
Lemma source_stage_no_source lens t xs ys (w : Sensor * rng) :
  source_stage draw lens t xs ys [] w = (Ok tt, w).
Proof. reflexivity. Qed.

(** C2, as the code has it.  [accumulate] checks nothing at entry: an
    invalid input is reported by the stage that consumes it, and the
    deposits of the stages completed before stay in [pixels].  After the
    source deposits, (i) a failing background stage ends the call with
    the buffer as the source stage left it; (ii) a negative dark-current
    mean ends the call with [ValueError] and the buffer as the
    background stage left it, without the bloom stage. *)
Theorem accumulate_failure_keeps_deposits
  fuel lens exposure_time temperature xcoords ycoords photon_flux_density
  background_flux (w w1 : Sensor * rng) :
  source_stage draw lens exposure_time xcoords ycoords photon_flux_density w
    = (Ok tt, w1) ->
  (forall e w',
     background_stage draw lens exposure_time background_flux w1 = (Raise e, w') ->
     accumulate draw fuel lens exposure_time temperature xcoords ycoords
                photon_flux_density background_flux w = (Raise e, w1)) /\
  (forall w2,
     background_stage draw lens exposure_time background_flux w1 = (Ok tt, w2) ->
     forallb all_nonneg (dark_lambda (fst w2) exposure_time temperature) = false ->
     accumulate draw fuel lens exposure_time temperature xcoords ycoords
                photon_flux_density background_flux w = (Raise ValueError_lam, w2)).
Proof.
  intros H1. split.
  - intros e w' H2. pose proof (background_stage_raise _ _ _ _ _ _ H2) as ->.
    unfold accumulate. rewrite (bind_step _ _ _ _ _ H1).
    now rewrite (bind_raise _ _ _ _ _ H2).
  - intros w2 H2 Hneg.
    unfold accumulate. rewrite (bind_step _ _ _ _ _ H1), (bind_step _ _ _ _ _ H2).
    apply bind_raise. unfold dark_stage. rewrite bind_self.
    apply bind_raise. now apply poisson_grid_negative.
Qed.

End FailureFacts.

(** C2, counterexample.  On the 3x3 sensor with a dark current of
    -1 pA/cm**2, one source and unit background, [accumulate] raises
    [ValueError] at the dark-current stage, and the buffer, all zero at
    entry, holds the source and background deposits. *)
Lemma accumulate_negative_dark_leaves_deposits :
  pixels (demo_sensor (-1) ∅) = np_zeros 3 3 /\
  accumulate tape_draw 10 demo_lens 1 0 [2] [2] [5] (Arr0 1)
             (demo_sensor (-1) ∅, demo_tape)
    = (Raise ValueError_lam, demo_dark_failed) /\
  pixels (fst demo_dark_failed) = [[5; 6; 7]; [8; 10; 12]; [11; 15; 17]] /\
  pixels (fst demo_dark_failed) <> pixels (demo_sensor (-1) ∅).
Proof.
  split; [reflexivity|]. split; [vm_compute; reflexivity|].
  split; [reflexivity|]. discriminate.
Qed.

(** Coordinate sequences of different lengths are not reported: the
    loop over sources stops at the shortest. *)
Lemma accumulate_ignores_extra_coordinates :
  accumulate tape_draw 10 demo_lens 1 0 [2; 3] [2] [5] (Arr0 1) demo_state0 =
  accumulate tape_draw 10 demo_lens 1 0 [2] [2] [5] (Arr0 1) demo_state0 /\
  fst (accumulate tape_draw 10 demo_lens 1 0 [2; 3] [2] [5] (Arr0 1) demo_state0) = Ok tt.
Proof. split; vm_compute; reflexivity. Qed.

Lemma accumulate_failure_keeps_deposits_witness :
  source_stage tape_draw demo_lens 1 [2] [2] [5] (demo_sensor (-1) ∅, demo_tape)
    = (Ok tt, demo_after_sources) /\
  accumulate tape_draw 10 demo_lens 1 0 [2] [2] [5] (Arr0 1)
             (demo_sensor (-1) ∅, demo_tape)
    = (Raise ValueError_lam, demo_dark_failed).
Proof.
  assert (H1 : source_stage tape_draw demo_lens 1 [2] [2] [5]
                 (demo_sensor (-1) ∅, demo_tape) = (Ok tt, demo_after_sources))
    by (vm_compute; reflexivity).
  split; [exact H1|].
  destruct (accumulate_failure_keeps_deposits tape_draw 10 demo_lens 1 0 [2] [2] [5]
              (Arr0 1) _ _ H1) as [_ Hdark].
  apply Hdark; vm_compute; reflexivity.
Defined.

(** ** Symmetric bloom of one saturated interior pixel *)

Lemma kernel_weight_all4 d :
  d ∈ valid_bloom_dirs -> kernel_weight valid_bloom_dirs d == 1 # 4.
Proof.
  intros Hd. unfold kernel_weight. rewrite (bool_decide_eq_true_2 _ Hd).
  replace (size valid_bloom_dirs) with 4%nat by (vm_compute; reflexivity).
  reflexivity.
Qed.

Lemma bloom_inflow_all4 (ex : Z -> Z -> Q) i j :
  bloom_inflow valid_bloom_dirs ex i j ==
  (1 # 4) * (ex (i + 1)%Z j + ex i (j + 1)%Z + ex i (j - 1)%Z + ex (i - 1)%Z j).
Proof.
  unfold bloom_inflow.
  rewrite !kernel_weight_all4 by (unfold valid_bloom_dirs; set_solver).
  ring.
Qed.

(** A pass of the loop leaves a buffer without excess as it is. *)
Lemma bloom_step_no_excess h w F bl (p : grid Q) :
  shape_is h w p -> everywhere (fun v => v <= F) p ->
  forall i j, (i < h)%nat -> (j < w)%nat ->
    cell (bloom_step F (conv_filter bl) p) i j == cell p i j.
Proof.
  intros Hs Hle i j Hi Hj.
  assert (Hex : forall a b, at2 (bloom_excess F p) a b == 0).
  { intros a b.
    destruct (Z_lt_le_dec a 0) as [Ha|Ha];
      [rewrite (at2_outside h w) by (try lia; now apply shape_is_bloom_excess);
       reflexivity|].
    destruct (Z_lt_le_dec b 0) as [Hb|Hb];
      [rewrite (at2_outside h w) by (try lia; now apply shape_is_bloom_excess);
       reflexivity|].
    destruct (Z_lt_le_dec a (Z.of_nat h)) as [Ha'|Ha'];
      [|rewrite (at2_outside h w) by (try lia; now apply shape_is_bloom_excess);
        reflexivity].
    destruct (Z_lt_le_dec b (Z.of_nat w)) as [Hb'|Hb'];
      [|rewrite (at2_outside h w) by (try lia; now apply shape_is_bloom_excess);
        reflexivity].
    rewrite <- (Z2Nat.id a), <- (Z2Nat.id b) by lia.
    rewrite (at2_excess_inside h w) by (try assumption; lia).
    apply (proj1 (everywhere_cell h w _ p Hs)) with (i := Z.to_nat a) (j := Z.to_nat b)
      in Hle; [|lia|lia].
    apply Q.max_l. lra. }
  rewrite (cell_bloom_step h w) by assumption.
  unfold bloom_inflow. rewrite !Hex.
  pose proof (Hex (Z.of_nat i) (Z.of_nat j)) as E.
  rewrite (at2_excess_inside h w) in E by assumption. rewrite E.
  assert (E0 : kernel_weight bl "-y" * 0 + kernel_weight bl "-x" * 0 +
               kernel_weight bl "+x" * 0 + kernel_weight bl "+y" * 0 == 0) by ring.
  rewrite E0. change (Qfloor 0) with 0%Z. change (inject_Z 0) with 0. ring.
Qed.

Lemma any_positive_false F (p : grid Q) :
  everywhere (fun v => v <= F) p -> any_positive (bloom_excess F p) = false.
Proof.
  intros Hle. unfold any_positive, bloom_excess, grid_map.
  induction Hle as [|row p Hrow _ IH]; [reflexivity|].
  cbn [map existsb]. rewrite IH, orb_false_r. clear IH.
  induction Hrow as [|v row Hv _ IHr]; [reflexivity|].
  cbn [map existsb]. rewrite IHr, orb_false_r.
  unfold Qltb_dec. destruct (Qlt_le_dec 0 (Qmax 0 (v - F))) as [Hlt|]; [|reflexivity].
  exfalso. rewrite Q.max_l in Hlt by lra. apply (Qlt_irrefl 0 Hlt).
Qed.

Lemma existsb_nth_true {A} (f : A -> bool) (l : list A) i d :
  (i < length l)%nat -> f (nth i l d) = true -> existsb f l = true.
Proof.
  intros Hi Hf. apply existsb_exists. exists (nth i l d). split; [now apply nth_In | exact Hf].
Qed.

Lemma any_positive_true h w F (p : grid Q) i j :
  shape_is h w p -> (i < h)%nat -> (j < w)%nat -> F < cell p i j ->
  any_positive (bloom_excess F p) = true.
Proof.
  intros Hs Hi Hj Hlt.
  pose proof (shape_is_bloom_excess h w F p Hs) as He.
  unfold any_positive.
  apply (existsb_nth_true _ _ i []); [destruct He; lia|].
  apply (existsb_nth_true _ _ j 0); [rewrite (shape_is_row h w _ i He Hi); exact Hj|].
  fold (cell (bloom_excess F p) i j). unfold bloom_excess.
  rewrite (cell_grid_map h w) by assumption.
  unfold Qltb_dec. destruct (Qlt_le_dec 0 (Qmax 0 (cell p i j - F))) as [|Hle]; [reflexivity|].
  exfalso. rewrite Q.max_r in Hle by lra. lra.
Qed.

Lemma bloom_step_keeps_capped h w F bl (p : grid Q) :
  shape_is h w p -> everywhere (fun v => v <= F) p ->
  everywhere (fun v => v <= F) (bloom_step F (conv_filter bl) p).
Proof.
  intros Hs Hle.
  apply (everywhere_cell h w); [now apply shape_is_bloom_step|].
  intros i j Hi Hj. rewrite (bloom_step_no_excess h w) by assumption.
  exact (proj1 (everywhere_cell h w _ p Hs) Hle i j Hi Hj).
Qed.

Lemma bloom_iter_keeps_capped h w F bl (p : grid Q) n :
  shape_is h w p -> everywhere (fun v => v <= F) p ->
  shape_is h w (Nat.iter n (bloom_step F (conv_filter bl)) p) /\
  everywhere (fun v => v <= F) (Nat.iter n (bloom_step F (conv_filter bl)) p).
Proof.
  intros Hs Hle. induction n as [|n [IHs IHle]]; [now split|].
  cbn [Nat.iter]. split; [now apply shape_is_bloom_step | now apply (bloom_step_keeps_capped h w)].
Qed.

Section SymmetricBloom.
Variables (h w : nat) (p : grid Q) (F : Q) (k : Z) (r c : nat).
Hypothesis Hshape : shape_is h w p.
Hypothesis Hr : (1 <= r)%nat /\ (r + 1 < h)%nat.
Hypothesis Hc : (1 <= c)%nat /\ (c + 1 < w)%nat.
Hypothesis Hk : (0 < k)%Z.
Hypothesis HF : inject_Z (4 * k) <= F.
Hypothesis Hcenter : cell p r c == F + inject_Z (4 * k).
Hypothesis Hrest :
  forall i j, (i < h)%nat -> (j < w)%nat -> ~ (i = r /\ j = c) -> cell p i j == 0.

Let ex := at2 (bloom_excess F p).
Let p1 := bloom_step F (conv_filter valid_bloom_dirs) p.

Lemma k_pos : 0 < inject_Z k.
Proof. change 0 with (inject_Z 0). now rewrite <- Zlt_Qlt. Qed.

Lemma four_k : inject_Z (4 * k) == 4 * inject_Z k.
Proof. now rewrite inject_Z_mult. Qed.

Lemma ex_center : ex (Z.of_nat r) (Z.of_nat c) == inject_Z (4 * k).
Proof.
  unfold ex. rewrite (at2_excess_inside h w) by (try assumption; lia).
  rewrite Hcenter. pose proof k_pos. pose proof four_k.
  rewrite Q.max_r by lra. ring.
Qed.

Lemma ex_other (i j : Z) : ~ (i = Z.of_nat r /\ j = Z.of_nat c) -> ex i j == 0.
Proof.
  intros Hne. unfold ex.
  pose proof (shape_is_bloom_excess h w F p Hshape) as He.
  destruct (Z_lt_le_dec i 0); [now rewrite (at2_outside h w) by (try lia; assumption)|].
  destruct (Z_lt_le_dec j 0); [now rewrite (at2_outside h w) by (try lia; assumption)|].
  destruct (Z_lt_le_dec i (Z.of_nat h));
    [|now rewrite (at2_outside h w) by (try lia; assumption)].
  destruct (Z_lt_le_dec j (Z.of_nat w));
    [|now rewrite (at2_outside h w) by (try lia; assumption)].
  rewrite <- (Z2Nat.id i), <- (Z2Nat.id j) by lia.
  rewrite (at2_excess_inside h w) by (try assumption; lia).
  rewrite Hrest by lia. pose proof k_pos. pose proof four_k.
  apply Q.max_l. lra.
Qed.

Lemma floor_quarter_of_4k : Qfloor ((1 # 4) * inject_Z (4 * k)) = k.
Proof.
  assert (E : (1 # 4) * inject_Z (4 * k) == inject_Z k) by (rewrite four_k; field).
  rewrite E. apply Qfloor_Z.
Qed.

(** The saturated pixel is left at [full_well]. *)
Lemma p1_center : cell p1 r c == F.
Proof.
  unfold p1. rewrite (cell_bloom_step h w) by (try assumption; lia).
  rewrite bloom_inflow_all4. fold ex.
  rewrite !ex_other by lia.
  pose proof ex_center as E. unfold ex in E.
  rewrite (at2_excess_inside h w) in E by (try assumption; lia). rewrite E.
  assert (E0 : (1 # 4) * (0 + 0 + 0 + 0) == 0) by ring. rewrite E0.
  change (Qfloor 0) with 0%Z. change (inject_Z 0) with 0. rewrite Hcenter. ring.
Qed.

(** Each of the four orthogonal neighbours receives [k] electrons. *)
Lemma p1_neighbour i j :
  (i = r /\ (j = c + 1 \/ j + 1 = c))%nat \/ (j = c /\ (i = r + 1 \/ i + 1 = r))%nat ->
  cell p1 i j == inject_Z k.
Proof.
  intros Hn. unfold p1. rewrite (cell_bloom_step h w) by (try assumption; lia).
  rewrite bloom_inflow_all4. fold ex.
  rewrite Hrest by lia.
  assert (Efloor : forall q, q == (1 # 4) * inject_Z (4 * k) -> Qfloor q = k)
    by (intros q ->; apply floor_quarter_of_4k).
  assert (E0 : Qmax 0 (0 - F) == 0)
    by (pose proof k_pos; pose proof four_k; apply Q.max_l; lra).
  rewrite E0.
  destruct Hn as [[Hi [Hj | Hj]] | [Hj [Hi | Hi]]].
  - (* right neighbour: fed through its left side *)
    replace (ex (Z.of_nat i) (Z.of_nat j - 1)) with (ex (Z.of_nat r) (Z.of_nat c))
      by (f_equal; lia).
    rewrite ex_center, !ex_other by lia. rewrite (Efloor _) by ring. ring.
  - replace (ex (Z.of_nat i) (Z.of_nat j + 1)) with (ex (Z.of_nat r) (Z.of_nat c))
      by (f_equal; lia).
    rewrite ex_center, !ex_other by lia. rewrite (Efloor _) by ring. ring.
  - replace (ex (Z.of_nat i - 1) (Z.of_nat j)) with (ex (Z.of_nat r) (Z.of_nat c))
      by (f_equal; lia).
    rewrite ex_center, !ex_other by lia. rewrite (Efloor _) by ring. ring.
  - replace (ex (Z.of_nat i + 1) (Z.of_nat j)) with (ex (Z.of_nat r) (Z.of_nat c))
      by (f_equal; lia).
    rewrite ex_center, !ex_other by lia. rewrite (Efloor _) by ring. ring.
Qed.

(** Every other pixel stays empty. *)
Lemma p1_far i j :
  (i < h)%nat -> (j < w)%nat -> ~ (i = r /\ j = c) ->
  ~ ((i = r /\ (j = c + 1 \/ j + 1 = c))%nat \/ (j = c /\ (i = r + 1 \/ i + 1 = r))%nat) ->
  cell p1 i j == 0.
Proof.
  intros Hi Hj Hnc Hnn. unfold p1. rewrite (cell_bloom_step h w) by assumption.
  rewrite bloom_inflow_all4. fold ex.
  rewrite Hrest by assumption. rewrite !ex_other by lia.
  assert (E0 : Qmax 0 (0 - F) == 0)
    by (pose proof k_pos; pose proof four_k; apply Q.max_l; lra).
  rewrite E0.
  assert (E1 : (1 # 4) * (0 + 0 + 0 + 0) == 0) by ring. rewrite E1.
  change (Qfloor 0) with 0%Z. change (inject_Z 0) with 0. ring.
Qed.

Lemma p1_capped : everywhere (fun v => v <= F) p1.
Proof.
  apply (everywhere_cell h w); [now apply shape_is_bloom_step|].
  intros i j Hi Hj. pose proof k_pos. pose proof four_k.
  destruct (Nat.eq_dec i r) as [Ei | Ei], (Nat.eq_dec j c) as [Ej | Ej].
  - rewrite Ei, Ej, p1_center. apply Qle_refl.
  - destruct (Nat.eq_dec j (c + 1)%nat) as [E1 | E1];
      [rewrite p1_neighbour by lia; lra|].
    destruct (Nat.eq_dec (j + 1)%nat c) as [E2 | E2];
      [rewrite p1_neighbour by lia; lra|].
    rewrite p1_far by lia. lra.
  - destruct (Nat.eq_dec i (r + 1)%nat) as [E1 | E1];
      [rewrite p1_neighbour by lia; lra|].
    destruct (Nat.eq_dec (i + 1)%nat r) as [E2 | E2];
      [rewrite p1_neighbour by lia; lra|].
    rewrite p1_far by lia. lra.
  - rewrite p1_far by lia. lra.
Qed.

(** C9.  A single interior pixel [(r, c)] at [full_well + 4k], all
    others empty, [full_well >= 4k], the four bloom directions: one pass
    of the loop leaves [(r, c)] at [full_well], gives [k] electrons to
    each orthogonal neighbour and nothing to any other pixel; the loop
    then exits with that buffer, and further passes would leave every
    pixel at most [full_well]. *)
Theorem symmetric_bloom_one_pass :
  cell p1 r c == F /\
  cell p1 (r - 1) c == inject_Z k /\ cell p1 (r + 1) c == inject_Z k /\
  cell p1 r (c - 1) == inject_Z k /\ cell p1 r (c + 1) == inject_Z k /\
  (forall i j, (i < h)%nat -> (j < w)%nat -> ~ (i = r /\ j = c) ->
     ~ ((i = r /\ (j = c + 1 \/ j + 1 = c))%nat \/
        (j = c /\ (i = r + 1 \/ i + 1 = r))%nat) ->
     cell p1 i j == 0) /\
  (forall n, bloom_loop (S (S n)) F (conv_filter valid_bloom_dirs) p = Some p1) /\
  (forall n, everywhere (fun v => v <= F)
               (Nat.iter n (bloom_step F (conv_filter valid_bloom_dirs)) p1)).
Proof.
  split; [exact p1_center|].
  split; [apply p1_neighbour; lia|]. split; [apply p1_neighbour; lia|].
  split; [apply p1_neighbour; lia|]. split; [apply p1_neighbour; lia|].
  split; [exact p1_far|]. split.
  - intros n. cbn [bloom_loop].
    rewrite (any_positive_true h w F p r c); try assumption; try lia.
    + cbn [negb]. fold p1. now rewrite (any_positive_false F p1 p1_capped).
    + rewrite Hcenter. pose proof k_pos. pose proof four_k. lra.
  - intros n. apply (bloom_iter_keeps_capped h w); [|exact p1_capped].
    now apply shape_is_bloom_step.
Qed.

End SymmetricBloom.

Lemma symmetric_bloom_one_pass_witness :
  shape_is 3 3 demo_peak /\
  cell demo_peak 1 1 == 20 + inject_Z (4 * 2) /\
  bloom_loop 2 20 (conv_filter valid_bloom_dirs) demo_peak =
    Some (bloom_step 20 (conv_filter valid_bloom_dirs) demo_peak) /\
  cell (bloom_step 20 (conv_filter valid_bloom_dirs) demo_peak) 1 1 == 20 /\
  cell (bloom_step 20 (conv_filter valid_bloom_dirs) demo_peak) 0 1 == inject_Z 2.
Proof.
  assert (Hs : shape_is 3 3 demo_peak) by (split; [reflexivity | repeat constructor]).
  assert (Hr : (1 <= 1)%nat /\ (1 + 1 < 3)%nat) by lia.
  assert (Hk : (0 < 2)%Z) by lia.
  assert (HF : inject_Z (4 * 2) <= 20) by (vm_compute; discriminate).
  assert (Hcen : cell demo_peak 1 1 == 20 + inject_Z (4 * 2)) by reflexivity.
  assert (Hrest : forall i j, (i < 3)%nat -> (j < 3)%nat -> ~ (i = 1%nat /\ j = 1%nat) ->
                    cell demo_peak i j == 0).
  { intros i j Hi Hj Hne.
    destruct i as [|[|[|i]]]; try lia; destruct j as [|[|[|j]]]; try lia;
      reflexivity. }
  destruct (symmetric_bloom_one_pass 3 3 demo_peak 20 2 1 1 Hs Hr Hr Hk HF Hcen Hrest)
    as (Ec & Eup & _ & _ & _ & _ & Hloop & _).
  split; [exact Hs|]. split; [exact Hcen|]. split; [exact (Hloop 0%nat)|].
  split; [exact Ec | exact Eup].
Defined.

(** ** Termination of the bloom loop *)

Section SumFacts.

Lemma zsum_ext n (f g : Z -> Z) :
  (forall k, (0 <= k < Z.of_nat n)%Z -> f k = g k) -> zsum n f = zsum n g.
Proof.
  induction n as [|n IH]; intros H; [reflexivity|]. cbn [zsum].
  rewrite IH by (intros k Hk; apply H; lia). rewrite H by lia. reflexivity.
Qed.

Lemma zsum_le n (f g : Z -> Z) :
  (forall k, (0 <= k < Z.of_nat n)%Z -> (f k <= g k)%Z) -> (zsum n f <= zsum n g)%Z.
Proof.
  induction n as [|n IH]; intros H; [reflexivity|]. cbn [zsum].
  pose proof (IH ltac:(intros k Hk; apply H; lia)). pose proof (H (Z.of_nat n) ltac:(lia)). lia.
Qed.

Lemma zsum_nonneg n (f : Z -> Z) :
  (forall k, (0 <= k < Z.of_nat n)%Z -> (0 <= f k)%Z) -> (0 <= zsum n f)%Z.
Proof.
  induction n as [|n IH]; intros H; [reflexivity|]. cbn [zsum].
  pose proof (IH ltac:(intros k Hk; apply H; lia)). pose proof (H (Z.of_nat n) ltac:(lia)). lia.
Qed.

Lemma zsum_zero n : zsum n (fun _ => 0%Z) = 0%Z.
Proof. induction n as [|n IH]; cbn [zsum]; lia. Qed.

Lemma zsum_plus n (f g : Z -> Z) :
  zsum n (fun k => (f k + g k)%Z) = (zsum n f + zsum n g)%Z.
Proof. induction n as [|n IH]; cbn [zsum]; lia. Qed.

Lemma zsum_scale n c (f : Z -> Z) : zsum n (fun k => (c * f k)%Z) = (c * zsum n f)%Z.
Proof. induction n as [|n IH]; cbn [zsum]; lia. Qed.

(** A term of the sum is a lower bound when all terms are non-negative. *)
Lemma zsum_term n (f : Z -> Z) k :
  (forall k, (0 <= k < Z.of_nat n)%Z -> (0 <= f k)%Z) ->
  (0 <= k < Z.of_nat n)%Z -> (f k <= zsum n f)%Z.
Proof.
  induction n as [|n IH]; intros H Hk; [lia|]. cbn [zsum].
  pose proof (zsum_nonneg n f ltac:(intros; apply H; lia)).
  pose proof (H (Z.of_nat n) ltac:(lia)).
  destruct (Z.eq_dec k (Z.of_nat n)) as [->|Hne]; [lia|].
  pose proof (IH ltac:(intros; apply H; lia) ltac:(lia)). lia.
Qed.

Lemma zsum_last n (G : Z -> Z) :
  (zsum n (fun j => if (j + 1 <? Z.of_nat n)%Z then G j else 0) +
   (if (0 <? Z.of_nat n)%Z then G (Z.of_nat n - 1) else 0))%Z = zsum n G.
Proof.
  destruct n as [|n]; [reflexivity|]. cbn [zsum].
  replace (0 <? Z.of_nat (S n))%Z with true by (symmetry; apply Z.ltb_lt; lia).
  replace (Z.of_nat n + 1 <? Z.of_nat (S n))%Z with false by (symmetry; apply Z.ltb_ge; lia).
  replace (Z.of_nat (S n) - 1)%Z with (Z.of_nat n) by lia.
  rewrite (zsum_ext n _ G); [lia|].
  intros k Hk. replace (k + 1 <? Z.of_nat (S n))%Z with true; [reflexivity|].
  symmetry; apply Z.ltb_lt; lia.
Qed.

(** Re-indexing: the pairs [(j, j+1)] inside [0, n), by first or by
    second component. *)
Lemma zsum_shift n (T : Z -> Z -> Z) :
  zsum n (fun j => if (j + 1 <? Z.of_nat n)%Z then T j (j + 1)%Z else 0%Z) =
  zsum n (fun j => if (0 <=? j - 1)%Z then T (j - 1)%Z j else 0%Z).
Proof.
  induction n as [|n IH]; [reflexivity|].
  cbn [zsum].
  replace (Z.of_nat n + 1 <? Z.of_nat (S n))%Z with false by (symmetry; apply Z.ltb_ge; lia).
  rewrite <- IH.
  rewrite (zsum_ext n _ (fun j => T j (j + 1)%Z)).
  2:{ intros k Hk. replace (k + 1 <? Z.of_nat (S n))%Z with true; [reflexivity|].
      symmetry; apply Z.ltb_lt; lia. }
  rewrite <- (zsum_last n (fun j => T j (j + 1)%Z)).
  destruct n as [|n]; [reflexivity|].
  replace (0 <? Z.of_nat (S n))%Z with true by (symmetry; apply Z.ltb_lt; lia).
  replace (0 <=? Z.of_nat (S n) - 1)%Z with true by (symmetry; apply Z.leb_le; lia).
  replace (Z.of_nat (S n) - 1 + 1)%Z with (Z.of_nat (S n)) by lia. lia.
Qed.

End SumFacts.

Section Sum2Facts.
Variables h w : nat.

Lemma in_grid_true i j : inside h w i j -> in_grid h w i j = true.
Proof.
  intros [Hi Hj]. unfold in_grid.
  rewrite !andb_true_iff, !Z.leb_le, !Z.ltb_lt. lia.
Qed.

Lemma in_grid_false i j : ~ inside h w i j -> in_grid h w i j = false.
Proof.
  intros Hout. destruct (in_grid h w i j) eqn:E; [|reflexivity].
  exfalso. apply Hout. unfold in_grid in E.
  rewrite !andb_true_iff, !Z.leb_le, !Z.ltb_lt in E. unfold inside. lia.
Qed.

Lemma clip_inside N i j : inside h w i j -> clip h w N i j = N i j.
Proof. intros H. unfold clip. now rewrite in_grid_true. Qed.

Lemma clip_outside N i j : ~ inside h w i j -> clip h w N i j = 0%Z.
Proof. intros H. unfold clip. now rewrite in_grid_false. Qed.

Lemma zsum2_ext (f g : Z -> Z -> Z) :
  (forall i j, inside h w i j -> f i j = g i j) -> zsum2 h w f = zsum2 h w g.
Proof.
  intros H. unfold zsum2. apply zsum_ext. intros i Hi.
  apply zsum_ext. intros j Hj. apply H. now split.
Qed.

Lemma zsum2_le (f g : Z -> Z -> Z) :
  (forall i j, inside h w i j -> (f i j <= g i j)%Z) -> (zsum2 h w f <= zsum2 h w g)%Z.
Proof.
  intros H. unfold zsum2. apply zsum_le. intros i Hi.
  apply zsum_le. intros j Hj. apply H. now split.
Qed.

Lemma zsum2_nonneg (f : Z -> Z -> Z) :
  (forall i j, inside h w i j -> (0 <= f i j)%Z) -> (0 <= zsum2 h w f)%Z.
Proof.
  intros H. unfold zsum2. apply zsum_nonneg. intros i Hi.
  apply zsum_nonneg. intros j Hj. apply H. now split.
Qed.

Lemma zsum2_term (f : Z -> Z -> Z) i j :
  (forall i j, inside h w i j -> (0 <= f i j)%Z) -> inside h w i j -> (f i j <= zsum2 h w f)%Z.
Proof.
  intros H [Hi Hj]. unfold zsum2.
  transitivity (zsum w (fun j => f i j)).
  - apply (zsum_term w (fun j => f i j)); [|exact Hj]. intros k Hk. apply H. now split.
  - apply (zsum_term h (fun i => zsum w (fun j => f i j))); [|exact Hi].
    intros k Hk. apply zsum_nonneg. intros k' Hk'. apply H. now split.
Qed.

Lemma zsum2_plus (f g : Z -> Z -> Z) :
  zsum2 h w (fun i j => (f i j + g i j)%Z) = (zsum2 h w f + zsum2 h w g)%Z.
Proof.
  unfold zsum2. rewrite <- zsum_plus. apply zsum_ext. intros i _. apply zsum_plus.
Qed.

Lemma zsum2_scale c (f : Z -> Z -> Z) :
  zsum2 h w (fun i j => (c * f i j)%Z) = (c * zsum2 h w f)%Z.
Proof.
  unfold zsum2. rewrite <- zsum_scale. apply zsum_ext. intros i _. apply zsum_scale.
Qed.

Lemma zsum2_lin4 a b c d (A B C D : Z -> Z -> Z) :
  zsum2 h w (fun i j => (a * A i j + b * B i j + c * C i j + d * D i j)%Z) =
  (a * zsum2 h w A + b * zsum2 h w B + c * zsum2 h w C + d * zsum2 h w D)%Z.
Proof.
  rewrite <- !zsum2_scale, <- !zsum2_plus. reflexivity.
Qed.

(** Charge moved one column up ([+x]): summing over receivers equals
    summing over senders. *)
Lemma shift_pos_x (g N : Z -> Z -> Z) :
  zsum2 h w (fun i j => (g i j * clip h w N i (j - 1))%Z) =
  zsum2 h w (fun i j => (clip h w g i (j + 1) * N i j)%Z).
Proof.
  unfold zsum2. apply zsum_ext. intros i Hi.
  rewrite (zsum_ext w _ (fun j => if (0 <=? j - 1)%Z then (g i j * N i (j - 1))%Z else 0%Z)).
  2:{ intros j Hj. destruct (Z.leb_spec 0 (j - 1)).
      - rewrite clip_inside by (unfold inside; lia). reflexivity.
      - rewrite clip_outside by (unfold inside; lia). lia. }
  rewrite <- (zsum_shift w (fun a b => (g i b * N i a)%Z)).
  apply zsum_ext. intros j Hj. destruct (Z.ltb_spec (j + 1) (Z.of_nat w)).
  - rewrite clip_inside by (unfold inside; lia). reflexivity.
  - rewrite clip_outside by (unfold inside; lia). reflexivity.
Qed.

(** Charge moved one column down ([-x]). *)
Lemma shift_neg_x (g N : Z -> Z -> Z) :
  zsum2 h w (fun i j => (g i j * clip h w N i (j + 1))%Z) =
  zsum2 h w (fun i j => (clip h w g i (j - 1) * N i j)%Z).
Proof.
  unfold zsum2. apply zsum_ext. intros i Hi.
  rewrite (zsum_ext w _ (fun j => if (j + 1 <? Z.of_nat w)%Z
                                  then (g i j * N i (j + 1))%Z else 0%Z)).
  2:{ intros j Hj. destruct (Z.ltb_spec (j + 1) (Z.of_nat w)).
      - rewrite clip_inside by (unfold inside; lia). reflexivity.
      - rewrite clip_outside by (unfold inside; lia). lia. }
  rewrite (zsum_shift w (fun a b => (g i a * N i b)%Z)).
  apply zsum_ext. intros j Hj. destruct (Z.leb_spec 0 (j - 1)).
  - rewrite clip_inside by (unfold inside; lia). reflexivity.
  - rewrite clip_outside by (unfold inside; lia). reflexivity.
Qed.

(** Charge moved one row up ([+y]). *)
Lemma shift_pos_y (g N : Z -> Z -> Z) :
  zsum2 h w (fun i j => (g i j * clip h w N (i - 1) j)%Z) =
  zsum2 h w (fun i j => (clip h w g (i + 1) j * N i j)%Z).
Proof.
  unfold zsum2.
  rewrite (zsum_ext h _ (fun i => if (0 <=? i - 1)%Z
                                  then zsum w (fun j => (g i j * N (i - 1) j)%Z) else 0%Z)).
  2:{ intros i Hi. destruct (Z.leb_spec 0 (i - 1)).
      - apply zsum_ext. intros j Hj. rewrite clip_inside by (unfold inside; lia). reflexivity.
      - rewrite <- (zsum_zero w). apply zsum_ext. intros j Hj.
        rewrite clip_outside by (unfold inside; lia). lia. }
  rewrite <- (zsum_shift h (fun a b => zsum w (fun j => (g b j * N a j)%Z))).
  apply zsum_ext. intros i Hi. destruct (Z.ltb_spec (i + 1) (Z.of_nat h)).
  - apply zsum_ext. intros j Hj. rewrite clip_inside by (unfold inside; lia). reflexivity.
  - rewrite <- (zsum_zero w). apply zsum_ext. intros j Hj.
    rewrite clip_outside by (unfold inside; lia). reflexivity.
Qed.

(** Charge moved one row down ([-y]). *)
Lemma shift_neg_y (g N : Z -> Z -> Z) :
  zsum2 h w (fun i j => (g i j * clip h w N (i + 1) j)%Z) =
  zsum2 h w (fun i j => (clip h w g (i - 1) j * N i j)%Z).
Proof.
  unfold zsum2.
  rewrite (zsum_ext h _ (fun i => if (i + 1 <? Z.of_nat h)%Z
                                  then zsum w (fun j => (g i j * N (i + 1) j)%Z) else 0%Z)).
  2:{ intros i Hi. destruct (Z.ltb_spec (i + 1) (Z.of_nat h)).
      - apply zsum_ext. intros j Hj. rewrite clip_inside by (unfold inside; lia). reflexivity.
      - rewrite <- (zsum_zero w). apply zsum_ext. intros j Hj.
        rewrite clip_outside by (unfold inside; lia). lia. }
  rewrite (zsum_shift h (fun a b => zsum w (fun j => (g a j * N b j)%Z))).
  apply zsum_ext. intros i Hi. destruct (Z.leb_spec 0 (i - 1)).
  - apply zsum_ext. intros j Hj. rewrite clip_inside by (unfold inside; lia). reflexivity.
  - rewrite <- (zsum_zero w). apply zsum_ext. intros j Hj.
    rewrite clip_outside by (unfold inside; lia). reflexivity.
Qed.

End Sum2Facts.

Section PotentialFacts.
Variables (h w : nat) (bl : gset string).
Hypothesis Hne : bl <> ∅.

Lemma size_pos : (1 <= Z.of_nat (size bl))%Z.
Proof.
  assert (size bl <> 0%nat); [|lia].
  intros E. apply Hne. apply leibniz_equiv, size_empty_iff. exact E.
Qed.

Ltac count_present :=
  match goal with
  | |- (_ <= Z.of_nat (size bl))%Z =>
      repeat match goal with
             | H : bool_decide (_ ∈ bl) = true |- _ => apply bool_decide_eq_true_1 in H
             | H : bool_decide (_ ∈ bl) = false |- _ => clear H
             end
  end.

Ltac present_subset :=
  repeat apply union_least; apply singleton_subseteq_l; assumption.

Lemma size_at_least (X : gset string) n :
  X ⊆ bl -> size X = n -> (Z.of_nat n <= Z.of_nat (size bl))%Z.
Proof. intros Hsub <-. apply Nat2Z.inj_le, subseteq_size, Hsub. Qed.

(** There are at least as many elements in [bloom] as directions among
    them. *)
Lemma flags_le_size :
  (dir_flag bl "-y" + dir_flag bl "-x" + dir_flag bl "+x" + dir_flag bl "+y"
   <= Z.of_nat (size bl))%Z.
Proof.
  pose proof size_pos as Hpos. unfold dir_flag, has_dir.
  destruct (bool_decide ("-y" ∈ bl)) eqn:E1, (bool_decide ("-x" ∈ bl)) eqn:E2,
           (bool_decide ("+x" ∈ bl)) eqn:E3, (bool_decide ("+y" ∈ bl)) eqn:E4;
    count_present; cbn [Z.add Pos.add Pos.succ]; try exact Hpos; try lia.
  - apply (size_at_least {[ "-y"; "-x"; "+x"; "+y" ]} 4); [present_subset | vm_compute; reflexivity].
  - apply (size_at_least {[ "-y"; "-x"; "+x" ]} 3); [present_subset | vm_compute; reflexivity].
  - apply (size_at_least {[ "-y"; "-x"; "+y" ]} 3); [present_subset | vm_compute; reflexivity].
  - apply (size_at_least {[ "-y"; "-x" ]} 2); [present_subset | vm_compute; reflexivity].
  - apply (size_at_least {[ "-y"; "+x"; "+y" ]} 3); [present_subset | vm_compute; reflexivity].
  - apply (size_at_least {[ "-y"; "+x" ]} 2); [present_subset | vm_compute; reflexivity].
  - apply (size_at_least {[ "-y"; "+y" ]} 2); [present_subset | vm_compute; reflexivity].
  - apply (size_at_least {[ "-x"; "+x"; "+y" ]} 3); [present_subset | vm_compute; reflexivity].
  - apply (size_at_least {[ "-x"; "+x" ]} 2); [present_subset | vm_compute; reflexivity].
  - apply (size_at_least {[ "-x"; "+y" ]} 2); [present_subset | vm_compute; reflexivity].
  - apply (size_at_least {[ "+x"; "+y" ]} 2); [present_subset | vm_compute; reflexivity].
Qed.

Lemma axis_weight_nonneg n neg pos x :
  (-1 <= x <= Z.of_nat n)%Z -> (0 <= axis_weight n neg pos x)%Z.
Proof. intros Hx. unfold axis_weight. destruct neg, pos; nia. Qed.

Lemma weight_pos i j :
  (-1 <= i <= Z.of_nat h)%Z -> (-1 <= j <= Z.of_nat w)%Z -> (1 <= weight h w bl i j)%Z.
Proof.
  intros Hi Hj. unfold weight.
  pose proof (axis_weight_nonneg w (has_dir bl "-x") (has_dir bl "+x") j Hj).
  pose proof (axis_weight_nonneg h (has_dir bl "-y") (has_dir bl "+y") i Hi). lia.
Qed.

Lemma clip_weight_le i j :
  (-1 <= i <= Z.of_nat h)%Z -> (-1 <= j <= Z.of_nat w)%Z ->
  (0 <= clip h w (weight h w bl) i j <= weight h w bl i j)%Z.
Proof.
  intros Hi Hj. pose proof (weight_pos i j Hi Hj). unfold clip.
  destruct (in_grid h w i j); lia.
Qed.

(** The weights around a pixel, counted with the directions in which it
    sends charge, stay below [size bloom] times its own weight. *)
Lemma weight_step i j :
  inside h w i j ->
  (dir_flag bl "-y" * clip h w (weight h w bl) (i - 1) j +
   dir_flag bl "-x" * clip h w (weight h w bl) i (j - 1) +
   dir_flag bl "+x" * clip h w (weight h w bl) i (j + 1) +
   dir_flag bl "+y" * clip h w (weight h w bl) (i + 1) j
   <= Z.of_nat (size bl) * weight h w bl i j - 1)%Z.
Proof.
  intros [Hi Hj].
  pose proof (clip_weight_le (i - 1) j ltac:(lia) ltac:(lia)) as B1.
  pose proof (clip_weight_le i (j - 1) ltac:(lia) ltac:(lia)) as B2.
  pose proof (clip_weight_le i (j + 1) ltac:(lia) ltac:(lia)) as B3.
  pose proof (clip_weight_le (i + 1) j ltac:(lia) ltac:(lia)) as B4.
  pose proof (weight_pos i j ltac:(lia) ltac:(lia)) as Hg.
  pose proof flags_le_size as Hk. pose proof size_pos as Hpos.
  set (k := Z.of_nat (size bl)) in *.
  set (c1 := clip h w (weight h w bl) (i - 1) j) in *.
  set (c2 := clip h w (weight h w bl) i (j - 1)) in *.
  set (c3 := clip h w (weight h w bl) i (j + 1)) in *.
  set (c4 := clip h w (weight h w bl) (i + 1) j) in *.
  revert B1 B2 B3 B4 Hg Hk. unfold weight, dir_flag, axis_weight.
  set (H := Z.of_nat h) in *. set (W := Z.of_nat w) in *.
  destruct (has_dir bl "-y"), (has_dir bl "-x"), (has_dir bl "+x"), (has_dir bl "+y");
    intros B1 B2 B3 B4 Hg Hk; nia.
Qed.

Lemma next_bound_nonneg N i j :
  (forall i j, inside h w i j -> (0 <= N i j)%Z) -> (0 <= next_bound h w bl N i j)%Z.
Proof.
  intros HN. unfold next_bound. apply Z.div_pos; [|pose proof size_pos; lia].
  assert (Hc : forall a b, (0 <= clip h w N a b)%Z).
  { intros a b. unfold clip. destruct (in_grid h w a b) eqn:E; [|lia].
    apply HN. unfold in_grid in E.
    rewrite !andb_true_iff, !Z.leb_le, !Z.ltb_lt in E. unfold inside. lia. }
  assert (Hf : forall d, (0 <= dir_flag bl d)%Z)
    by (intros d; unfold dir_flag; destruct (has_dir bl d); lia).
  pose proof (Hc (i + 1)%Z j). pose proof (Hc i (j + 1)%Z).
  pose proof (Hc i (j - 1)%Z). pose proof (Hc (i - 1)%Z j).
  pose proof (Hf "-y"). pose proof (Hf "-x"). pose proof (Hf "+x"). pose proof (Hf "+y").
  nia.
Qed.

(** One pass of the loop strictly lowers the potential of the integer
    bound, as long as some pixel has excess. *)
Lemma potential_decreases N :
  (forall i j, inside h w i j -> (0 <= N i j)%Z) ->
  (exists i j, inside h w i j /\ (1 <= N i j)%Z) ->
  (potential h w bl (next_bound h w bl N) < potential h w bl N)%Z.
Proof.
  intros HN (i0 & j0 & Hin0 & Hpos0).
  pose proof size_pos as Hk. unfold potential.
  set (k := Z.of_nat (size bl)) in *. set (g := weight h w bl).
  set (S1 := fun i j : Z =>
    (dir_flag bl "-y" * clip h w N (i + 1) j + dir_flag bl "-x" * clip h w N i (j + 1) +
     dir_flag bl "+x" * clip h w N i (j - 1) + dir_flag bl "+y" * clip h w N (i - 1) j)%Z).
  assert (Step1 : (k * zsum2 h w (fun i j => g i j * next_bound h w bl N i j)
                   <= zsum2 h w (fun i j => g i j * S1 i j))%Z).
  { rewrite <- zsum2_scale. apply zsum2_le. intros i j [Hi Hj].
    pose proof (weight_pos i j ltac:(lia) ltac:(lia)) as Hg. fold g in Hg.
    unfold next_bound. fold (S1 i j). fold k.
    pose proof (Z.mul_div_le (S1 i j) k ltac:(lia)). nia. }
  assert (Step2 : zsum2 h w (fun i j => (g i j * S1 i j)%Z) =
                  zsum2 h w (fun i j =>
                    ((dir_flag bl "-y" * clip h w g (i - 1) j +
                      dir_flag bl "-x" * clip h w g i (j - 1) +
                      dir_flag bl "+x" * clip h w g i (j + 1) +
                      dir_flag bl "+y" * clip h w g (i + 1) j) * N i j)%Z)).
  { rewrite (zsum2_ext h w _ (fun i j =>
      (dir_flag bl "-y" * (g i j * clip h w N (i + 1) j) +
       dir_flag bl "-x" * (g i j * clip h w N i (j + 1)) +
       dir_flag bl "+x" * (g i j * clip h w N i (j - 1)) +
       dir_flag bl "+y" * (g i j * clip h w N (i - 1) j))%Z))
      by (intros; unfold S1; ring).
    rewrite zsum2_lin4.
    rewrite shift_neg_y, shift_neg_x, shift_pos_x, shift_pos_y.
    rewrite <- zsum2_lin4. apply zsum2_ext. intros; ring. }
  assert (Step3 : (zsum2 h w (fun i j =>
                    ((dir_flag bl "-y" * clip h w g (i - 1) j +
                      dir_flag bl "-x" * clip h w g i (j - 1) +
                      dir_flag bl "+x" * clip h w g i (j + 1) +
                      dir_flag bl "+y" * clip h w g (i + 1) j) * N i j)%Z)
                   <= zsum2 h w (fun i j => (k * (g i j * N i j) + (-1) * N i j)%Z))%Z).
  { apply zsum2_le. intros i j Hin.
    pose proof (weight_step i j Hin) as Hw. fold g k in Hw.
    pose proof (HN i j Hin). nia. }
  rewrite zsum2_plus, !zsum2_scale in Step3.
  assert (Step5 : (1 <= zsum2 h w N)%Z).
  { pose proof (zsum2_term h w N i0 j0 HN Hin0). lia. }
  nia.
Qed.

End PotentialFacts.

Lemma Qfloor_div_Z (S k : Z) : (0 < k)%Z -> Qfloor (inject_Z S / inject_Z k) = (S / k)%Z.
Proof.
  intros Hk. destruct k as [|kp|kp]; try lia.
  assert (E : inject_Z S / inject_Z (Z.pos kp) == S # kp).
  { unfold Qdiv, Qinv, inject_Z, Qmult, Qeq. cbn. lia. }
  rewrite E. reflexivity.
Qed.

Lemma bloom_loop_more_fuel n m F K (p p' : grid Q) :
  bloom_loop n F K p = Some p' -> (n <= m)%nat -> bloom_loop m F K p = Some p'.
Proof.
  revert m p. induction n as [|n IH]; intros m p H Hle; [discriminate|].
  destruct m as [|m]; [lia|]. cbn [bloom_loop] in *.
  destruct (negb (any_positive (bloom_excess F p))); [exact H|].
  apply IH; [exact H | lia].
Qed.

Lemma bloom_loop_exit n F K (p p' : grid Q) :
  bloom_loop n F K p = Some p' -> any_positive (bloom_excess F p') = false.
Proof.
  revert p. induction n as [|n IH]; intros p H; [discriminate|].
  cbn [bloom_loop] in H.
  destruct (any_positive (bloom_excess F p)) eqn:E; cbn [negb] in H.
  - now apply IH in H.
  - inversion H; subst. exact E.
Qed.

Lemma any_positive_inv h w F (p : grid Q) :
  shape_is h w p -> any_positive (bloom_excess F p) = true ->
  exists i j, (i < h)%nat /\ (j < w)%nat /\ 0 < Qmax 0 (cell p i j - F).
Proof.
  intros Hs H. pose proof (shape_is_bloom_excess h w F p Hs) as He.
  unfold any_positive in H.
  apply existsb_exists in H as (row & Hrow & H).
  apply (In_nth _ _ []) in Hrow as (i & Hi & <-).
  apply existsb_exists in H as (v & Hv & H).
  apply (In_nth _ _ 0) in Hv as (j & Hj & <-).
  assert (Hi' : (i < h)%nat) by (destruct He; lia).
  rewrite (shape_is_row h w _ i He Hi') in Hj.
  exists i, j. split; [exact Hi'|]. split; [exact Hj|].
  fold (cell (bloom_excess F p) i j) in H. unfold bloom_excess in H.
  rewrite (cell_grid_map h w) in H by assumption.
  unfold Qltb_dec in H. now destruct (Qlt_le_dec 0 (Qmax 0 (cell p i j - F))).
Qed.

Section BloomTermination.
Variables (h w : nat) (bl : gset string) (F : Q).
Hypothesis Hne : bl <> ∅.

(** [N] bounds the excess of every pixel of [p]. *)
Let bounded (p : grid Q) (N : Z -> Z -> Z) : Prop :=
  forall i j, inside h w i j -> at2 (bloom_excess F p) i j <= inject_Z (N i j).

Lemma kernel_weight_flag d :
  kernel_weight bl d == inject_Z (dir_flag bl d) / inject_Z (Z.of_nat (size bl)).
Proof.
  unfold kernel_weight, dir_flag, has_dir.
  destruct (bool_decide (d ∈ bl)); [reflexivity|]. unfold Qdiv. ring.
Qed.

Lemma excess_nonneg (p : grid Q) i j : 0 <= at2 (bloom_excess F p) i j.
Proof.
  apply at2_nonneg. unfold bloom_excess.
  apply (everywhere_grid_map_of (fun _ => True)); [intros; apply Q.le_max_l|].
  apply Forall_forall; intros; apply Forall_forall; auto.
Qed.

Lemma bounded_nonneg (p : grid Q) N :
  bounded p N -> forall i j, inside h w i j -> (0 <= N i j)%Z.
Proof.
  intros Hb i j Hin. pose proof (Hb i j Hin) as H1.
  pose proof (excess_nonneg p i j) as H2.
  rewrite Zle_Qle. change (inject_Z 0) with 0. lra.
Qed.

Lemma excess_le_clip (p : grid Q) N i j :
  shape_is h w p -> bounded p N ->
  at2 (bloom_excess F p) i j <= inject_Z (clip h w N i j).
Proof.
  intros Hs Hb. unfold clip. destruct (in_grid h w i j) eqn:E.
  - apply Hb. unfold in_grid in E.
    rewrite !andb_true_iff, !Z.leb_le, !Z.ltb_lt in E. unfold inside. lia.
  - rewrite (at2_outside h w); [apply Qle_refl | now apply shape_is_bloom_excess |].
    intros Hin. rewrite (in_grid_true h w i j Hin) in E. discriminate E.
Qed.

Lemma inflow_le (p : grid Q) N i j :
  shape_is h w p -> bounded p N ->
  (Qfloor (bloom_inflow bl (at2 (bloom_excess F p)) i j) <= next_bound h w bl N i j)%Z.
Proof.
  intros Hs Hb. pose proof (size_pos bl Hne) as Hk.
  unfold next_bound. rewrite <- Qfloor_div_Z by lia.
  apply Qfloor_resp_le. unfold bloom_inflow. rewrite !kernel_weight_flag.
  rewrite !inject_Z_plus, !inject_Z_mult.
  pose proof (excess_le_clip p N (i + 1) j Hs Hb) as B1.
  pose proof (excess_le_clip p N i (j + 1) Hs Hb) as B2.
  pose proof (excess_le_clip p N i (j - 1) Hs Hb) as B3.
  pose proof (excess_le_clip p N (i - 1) j Hs Hb) as B4.
  assert (Hf : forall d, 0 <= inject_Z (dir_flag bl d)).
  { intros d. unfold dir_flag. destruct (has_dir bl d); discriminate. }
  assert (Hkq : 0 < inject_Z (Z.of_nat (size bl)))
    by (change 0 with (inject_Z 0); rewrite <- Zlt_Qlt; lia).
  set (kq := inject_Z (Z.of_nat (size bl))) in *.
  apply Qle_shift_div_l; [exact Hkq|].
  assert (E : (inject_Z (dir_flag bl "-y") / kq * at2 (bloom_excess F p) (i + 1) j +
               inject_Z (dir_flag bl "-x") / kq * at2 (bloom_excess F p) i (j + 1) +
               inject_Z (dir_flag bl "+x") / kq * at2 (bloom_excess F p) i (j - 1) +
               inject_Z (dir_flag bl "+y") / kq * at2 (bloom_excess F p) (i - 1) j) * kq ==
              inject_Z (dir_flag bl "-y") * at2 (bloom_excess F p) (i + 1) j +
              inject_Z (dir_flag bl "-x") * at2 (bloom_excess F p) i (j + 1) +
              inject_Z (dir_flag bl "+x") * at2 (bloom_excess F p) i (j - 1) +
              inject_Z (dir_flag bl "+y") * at2 (bloom_excess F p) (i - 1) j).
  { field. intros E0. rewrite E0 in Hkq. apply (Qlt_irrefl 0 Hkq). }
  rewrite E.
  repeat apply Qplus_le_compat;
    (apply Qmult_le_compat_nonneg;
     [split; [apply Hf | apply Qle_refl] | split; [apply excess_nonneg | assumption]]).
Qed.

Lemma step_bounded (p : grid Q) N :
  shape_is h w p -> bounded p N ->
  bounded (bloom_step F (conv_filter bl) p) (next_bound h w bl N).
Proof.
  intros Hs Hb i j [Hi Hj].
  pose proof (next_bound_nonneg h w bl Hne N i j (bounded_nonneg p N Hb)) as Hnn.
  pose proof (inflow_le p N i j Hs Hb) as Hin.
  rewrite <- (Z2Nat.id i), <- (Z2Nat.id j) by lia.
  rewrite (at2_excess_inside h w) by (try lia; now apply shape_is_bloom_step).
  rewrite (cell_bloom_step h w) by (try assumption; lia).
  rewrite !Z2Nat.id by lia.
  pose proof (capped_at_most F (cell p (Z.to_nat i) (Z.to_nat j))) as Hcap.
  rewrite Zle_Qle in Hin, Hnn. change (inject_Z 0) with 0 in Hnn.
  apply Q.max_lub; lra.
Qed.

Lemma bloom_loop_terminates_from m :
  forall (p : grid Q) N,
    shape_is h w p -> bounded p N -> (potential h w bl N <= Z.of_nat m)%Z ->
    exists p', bloom_loop (S m) F (conv_filter bl) p = Some p'.
Proof.
  induction m as [|m IH]; intros p N Hs Hb Hpot; cbn [bloom_loop];
    destruct (any_positive (bloom_excess F p)) eqn:E; cbn [negb];
    try (eexists; reflexivity).
  - exfalso.
    apply (any_positive_inv h w) in E as (i & j & Hi & Hj & Hex); [|exact Hs].
    assert (Hin : inside h w (Z.of_nat i) (Z.of_nat j)) by (unfold inside; lia).
    pose proof (Hb _ _ Hin) as Hbd. rewrite (at2_excess_inside h w) in Hbd by assumption.
    assert (HN : (1 <= N (Z.of_nat i) (Z.of_nat j))%Z).
    { assert (0 < inject_Z (N (Z.of_nat i) (Z.of_nat j))) by lra.
      change 0 with (inject_Z 0) in H. rewrite <- Zlt_Qlt in H. lia. }
    pose proof (potential_decreases h w bl Hne N (bounded_nonneg p N Hb)
                  (ex_intro _ _ (ex_intro _ _ (conj Hin HN)))) as Hdec.
    assert (0 <= potential h w bl (next_bound h w bl N))%Z; [|lia].
    apply zsum2_nonneg. intros a b [Ha Hb'].
    pose proof (weight_pos h w bl a b ltac:(lia) ltac:(lia)).
    pose proof (next_bound_nonneg h w bl Hne N a b (bounded_nonneg p N Hb)). nia.
  - apply (any_positive_inv h w) in E as (i & j & Hi & Hj & Hex); [|exact Hs].
    assert (Hin : inside h w (Z.of_nat i) (Z.of_nat j)) by (unfold inside; lia).
    pose proof (Hb _ _ Hin) as Hbd. rewrite (at2_excess_inside h w) in Hbd by assumption.
    assert (HN : (1 <= N (Z.of_nat i) (Z.of_nat j))%Z).
    { assert (0 < inject_Z (N (Z.of_nat i) (Z.of_nat j))) by lra.
      change 0 with (inject_Z 0) in H. rewrite <- Zlt_Qlt in H. lia. }
    pose proof (potential_decreases h w bl Hne N (bounded_nonneg p N Hb)
                  (ex_intro _ _ (ex_intro _ _ (conj Hin HN)))) as Hdec.
    apply (IH _ (next_bound h w bl N));
      [now apply shape_is_bloom_step | now apply step_bounded | lia].
Qed.

(** The budget [bloom_fuel] is enough for the loop to stop. *)
Lemma bloom_fuel_suffices (p : grid Q) :
  shape_is h w p ->
  exists p', bloom_loop (bloom_fuel h w bl F p) F (conv_filter bl) p = Some p'.
Proof.
  intros Hs.
  assert (Hb : bounded p (excess_bound F p)).
  { intros i j _. unfold excess_bound. apply Qle_ceiling. }
  assert (Hpot : (0 <= potential h w bl (excess_bound F p))%Z).
  { apply zsum2_nonneg. intros a b [Ha Hb'].
    pose proof (weight_pos h w bl a b ltac:(lia) ltac:(lia)).
    pose proof (bounded_nonneg p _ Hb a b ltac:(unfold inside; lia)). nia. }
  exact (bloom_loop_terminates_from
           (Z.to_nat (potential h w bl (excess_bound F p))) p _ Hs Hb ltac:(lia)).
Qed.


End BloomTermination.

(** ** The number of passes is not bounded by the dimensions *)

Lemma kernel_weight_two_dirs :
  kernel_weight two_dirs "-y" == 0 /\ kernel_weight two_dirs "-x" == 1 # 2 /\
  kernel_weight two_dirs "+x" == 1 # 2 /\ kernel_weight two_dirs "+y" == 0.
Proof. repeat split; vm_compute; reflexivity. Qed.

Lemma shape_1_2 (a : grid Q) : shape_is 1 2 a -> a = [[cell a 0 0; cell a 0 1]].
Proof.
  intros [Hl Hr]. destruct a as [|row [|? ?]]; try discriminate Hl.
  inversion Hr as [|? ? Hrow _]; subst.
  destruct row as [|x [|y [|? ?]]]; try discriminate Hrow. reflexivity.
Qed.

Lemma pow2_pos m : 0 < inject_Z (2 ^ Z.of_nat m).
Proof. change 0 with (inject_Z 0). rewrite <- Zlt_Qlt. apply Z.pow_pos_nonneg; lia. Qed.

Lemma pow2_succ m : inject_Z (2 ^ Z.of_nat (S m)) == 2 * inject_Z (2 ^ Z.of_nat m).
Proof. rewrite Nat2Z.inj_succ, Z.pow_succ_r by lia. now rewrite inject_Z_mult. Qed.

(** One pass halves both pixels. *)
Lemma halving_pass (x y : Q) m :
  x == inject_Z (2 ^ Z.of_nat (S m)) -> y == inject_Z (2 ^ Z.of_nat (S m)) ->
  exists x' y',
    bloom_step 0 (conv_filter two_dirs) [[x; y]] = [[x'; y']] /\
    x' == inject_Z (2 ^ Z.of_nat m) /\ y' == inject_Z (2 ^ Z.of_nat m).
Proof.
  intros Hx Hy.
  assert (Hs : shape_is 1 2 [[x; y]]) by (split; [reflexivity | repeat constructor]).
  pose proof (shape_is_bloom_step 1 2 0 (conv_filter two_dirs) _ Hs) as Hs1.
  destruct kernel_weight_two_dirs as (K1 & K2 & K3 & K4).
  pose proof (pow2_pos m) as Hpos. pose proof (pow2_succ m) as Hsucc.
  assert (Ex : Qmax 0 (x - 0) == x) by (rewrite Q.max_r by lra; ring).
  assert (Ey : Qmax 0 (y - 0) == y) by (rewrite Q.max_r by lra; ring).
  assert (Efl : forall q, q == inject_Z (2 ^ Z.of_nat m) -> Qfloor q = (2 ^ Z.of_nat m)%Z)
    by (intros q ->; apply Qfloor_Z).
  exists (cell (bloom_step 0 (conv_filter two_dirs) [[x; y]]) 0 0),
         (cell (bloom_step 0 (conv_filter two_dirs) [[x; y]]) 0 1).
  split; [now apply shape_1_2|]. split.
  - rewrite (cell_bloom_step 1 2) by (try assumption; lia).
    unfold bloom_inflow. rewrite K1, K2, K3, K4.
    change (cell [[x; y]] 0 0) with x.
    change (at2 (bloom_excess 0 [[x; y]]) (Z.of_nat 0 + 1) (Z.of_nat 0)) with 0.
    change (at2 (bloom_excess 0 [[x; y]]) (Z.of_nat 0) (Z.of_nat 0 + 1))
      with (Qmax 0 (y - 0)).
    change (at2 (bloom_excess 0 [[x; y]]) (Z.of_nat 0) (Z.of_nat 0 - 1)) with 0.
    change (at2 (bloom_excess 0 [[x; y]]) (Z.of_nat 0 - 1) (Z.of_nat 0)) with 0.
    rewrite Ex, Ey. rewrite (Efl _) by (rewrite Hy; lra). ring.
  - rewrite (cell_bloom_step 1 2) by (try assumption; lia).
    unfold bloom_inflow. rewrite K1, K2, K3, K4.
    change (cell [[x; y]] 0 1) with y.
    change (at2 (bloom_excess 0 [[x; y]]) (Z.of_nat 0 + 1) (Z.of_nat 1)) with 0.
    change (at2 (bloom_excess 0 [[x; y]]) (Z.of_nat 0) (Z.of_nat 1 + 1)) with 0.
    change (at2 (bloom_excess 0 [[x; y]]) (Z.of_nat 0) (Z.of_nat 1 - 1))
      with (Qmax 0 (x - 0)).
    change (at2 (bloom_excess 0 [[x; y]]) (Z.of_nat 0 - 1) (Z.of_nat 1)) with 0.
    rewrite Ex, Ey. rewrite (Efl _) by (rewrite Hx; lra). ring.
Qed.

(** With [2^m] electrons in each pixel, [m + 1] tests of the exit
    condition are not enough. *)
Lemma halving_needs_fuel n :
  forall m (x y : Q),
    x == inject_Z (2 ^ Z.of_nat m) -> y == inject_Z (2 ^ Z.of_nat m) ->
    (n <= m + 1)%nat ->
    bloom_loop n 0 (conv_filter two_dirs) [[x; y]] = None.
Proof.
  induction n as [|n IH]; intros m x y Hx Hy Hn; [reflexivity|].
  cbn [bloom_loop].
  assert (Hs : shape_is 1 2 [[x; y]]) by (split; [reflexivity | repeat constructor]).
  rewrite (any_positive_true 1 2 0 [[x; y]] 0 0 Hs) by
    (try lia; change (cell [[x; y]] 0 0) with x; rewrite Hx; apply pow2_pos).
  cbn [negb]. destruct m as [|m].
  - assert (n = 0%nat) as -> by lia. reflexivity.
  - destruct (halving_pass x y m Hx Hy) as (x' & y' & -> & Hx' & Hy').
    apply (IH m); [exact Hx' | exact Hy' | lia].
Qed.


(** On a sensor of the same dimensions, the number of passes grows with
    the charge: 2 tests for one electron per pixel, 12 for 1024. *)
Lemma bloom_passes_grow_with_charge :
  bloom_loop 2 0 (conv_filter two_dirs) (halving_pair 0) = Some [[0; 0]] /\
  bloom_loop 11 0 (conv_filter two_dirs) (halving_pair 10) = None /\
  bloom_loop 12 0 (conv_filter two_dirs) (halving_pair 10) = Some [[0; 0]].
Proof. repeat split; vm_compute; reflexivity. Qed.


(** ** Shapes are kept, and [accumulate] returns or raises *)

Lemma shape_is_add_at h w (p : grid Q) iy ix v :
  shape_is h w p -> shape_is h w (add_at p iy ix v).
Proof.
  intros [Hl Hr]. unfold add_at. split; [rewrite <- Hl; apply (length_alter (A:=list Q))|].
  apply Forall_alter; [exact Hr|]. intros row _ Hrow. cbn beta in *.
  rewrite length_alter. exact Hrow.
Qed.

Lemma shape_is_add_all h w cells vals (p : grid Q) :
  shape_is h w p -> shape_is h w (add_all p cells vals).
Proof.
  revert vals p. induction cells as [|[iy ix] cells IH]; intros [|v vals] p Hp;
    cbn; try exact Hp.
  apply IH. now apply shape_is_add_at.
Qed.

Lemma broadcast_row_length w0 (v row : list Q) :
  broadcast_row w0 v = Some row -> length row = w0.
Proof.
  unfold broadcast_row. destruct (Nat.eqb (length v) w0) eqn:E.
  - intros H; inversion H; subst. now apply Nat.eqb_eq.
  - destruct v as [|x [|? ?]]; try discriminate.
    intros H; inversion H; subst. apply repeat_length.
Qed.

Lemma broadcast_to_shape h w0 (a : ndarray Q) (b : grid Q) :
  broadcast_to h w0 a = Some b -> shape_is h w0 b.
Proof.
  unfold broadcast_to. destruct a as [v | v | rows |]; try discriminate.
  - intros H; inversion H; subst. apply shape_is_repeat.
  - destruct (broadcast_row w0 v) as [row|] eqn:E; [|discriminate].
    cbn [option_map]. intros H; inversion H; subst.
    rewrite <- (broadcast_row_length _ _ _ E). apply shape_is_tile.
  - destruct (mapM (broadcast_row w0) rows) as [rows'|] eqn:E; [|discriminate].
    assert (Hr : Forall (fun row => length row = w0) rows').
    { apply mapM_Some_1 in E. clear -E.
      induction E as [|x y l k Hxy _ IH]; constructor; [|exact IH].
      now apply broadcast_row_length in Hxy. }
    destruct (Nat.eqb (length rows') h) eqn:El.
    + intros H; inversion H; subst. split; [now apply Nat.eqb_eq | exact Hr].
    + destruct rows' as [|r0 [|? ?]]; try discriminate.
      intros H; inversion H; subst. inversion Hr; subst. apply shape_is_tile.
Qed.

Lemma wf_set_pixels s (p : grid Q) :
  wf_sensor s ->
  shape_is (Z.to_nat (height_px s)) (Z.to_nat (width_px s)) p ->
  wf_sensor (set_pixels s p).
Proof.
  intros (Hh & Hw & _ & Hhot & Hbias & Hbl) Hp.
  exact (conj Hh (conj Hw (conj Hp (conj Hhot (conj Hbias Hbl))))).
Qed.

Section ReturnFacts.
Context {rng : Type} (draw : Q -> rng -> nat * rng).

Lemma keeps_wf_bind {A B} (m : @M rng A) (f : A -> @M rng B) :
  keeps_wf m -> (forall a, keeps_wf (f a)) -> keeps_wf (bind m f).
Proof.
  intros Hm Hf w r w' H Hwf. bind_cases H.
  - eapply Hf; [exact H|]. eapply Hm; eassumption.
  - eapply Hm; eassumption.
  - eapply Hm; eassumption.
Qed.

Lemma keeps_wf_ret {A} (a : A) : keeps_wf (rng:=rng) (ret a).
Proof. intros w r w' H Hwf. inv_pure H. exact Hwf. Qed.

Lemma keeps_wf_deposit_source lens nx ny dx dy bx by_ x y i :
  keeps_wf (deposit_source draw lens nx ny dx dy bx by_ x y i).
Proof.
  intros w r w' H Hwf. unfold deposit_source in H.
  rewrite bind_self, bind_lift in H.
  destruct (center_index x _ _ _ _) as [xi | |]; [|inv_pure H; exact Hwf ..].
  rewrite bind_lift in H.
  destruct (center_index y _ _ _ _) as [yi | |]; [|inv_pure H; exact Hwf ..].
  bind_cases H.
  - apply poisson_inv in H1 as [E _]. inv_pure H. cbn [fst]. rewrite E.
    apply wf_set_pixels; [exact Hwf|]. apply shape_is_add_all.
    now destruct Hwf as (_ & _ & Hp & _).
  - apply poisson_inv in H as [E _]. now rewrite E.
  - apply poisson_inv in H as [E _]. now rewrite E.
Qed.

Lemma keeps_wf_for_sources body xs ys es :
  (forall x y i, keeps_wf (body x y i)) -> keeps_wf (rng:=rng) (for_sources body xs ys es).
Proof.
  intros Hb. revert ys es.
  induction xs as [|x xs IH]; intros [|y ys] [|e es]; cbn; try apply keeps_wf_ret.
  apply keeps_wf_bind; [apply Hb | intros _; apply IH].
Qed.

Lemma keeps_wf_source_stage lens t xs ys fs : keeps_wf (source_stage draw lens t xs ys fs).
Proof.
  intros w r w' H Hwf. unfold source_stage in H. rewrite bind_self in H.
  destruct (0 <? length fs)%nat; [|inv_pure H; exact Hwf].
  unfold _applyPSF in H. rewrite bind_self in H.
  do 4 (rewrite bind_lift in H;
        match type of H with
        | match ?x with _ => _ end = _ => destruct x; [|inv_pure H; exact Hwf ..]
        end).
  eapply keeps_wf_for_sources; [|exact H|exact Hwf].
  intros. apply keeps_wf_deposit_source.
Qed.

Lemma keeps_wf_background_stage lens t bg : keeps_wf (background_stage draw lens t bg).
Proof.
  intros w r w' H Hwf. unfold background_stage in H. rewrite bind_self in H.
  bind_cases H.
  - apply poisson_sized_inv in H1 as [E Hns].
    destruct (Hns _ eq_refl) as (lams & Hb & En).
    inv_pure H. cbn [fst]. rewrite E.
    apply wf_set_pixels; [exact Hwf|].
    apply shape_is_grid_map2; [now destruct Hwf as (_ & _ & Hp & _)|].
    apply draws_grid_shape. now apply broadcast_to_shape in Hb.
  - apply poisson_sized_inv in H as [E _]. now rewrite E.
  - apply poisson_sized_inv in H as [E _]. now rewrite E.
Qed.

Lemma keeps_wf_dark_stage t temp : keeps_wf (dark_stage draw t temp).
Proof.
  intros w r w' H Hwf. unfold dark_stage in H. rewrite bind_self in H.
  bind_cases H.
  - apply poisson_grid_inv in H1 as [E Hns]. specialize (Hns _ eq_refl).
    inv_pure H. cbn [fst]. rewrite E.
    apply wf_set_pixels; [exact Hwf|].
    destruct Hwf as (_ & _ & Hp & Hhot & _).
    apply shape_is_grid_map2; [exact Hp|].
    apply draws_grid_shape. unfold dark_lambda. now apply shape_is_grid_map.
  - apply poisson_grid_inv in H as [E _]. now rewrite E.
  - apply poisson_grid_inv in H as [E _]. now rewrite E.
Qed.

Lemma no_budget_bind {A B} (m : @M rng A) (f : A -> @M rng B) :
  no_budget m -> (forall a, no_budget (f a)) -> no_budget (bind m f).
Proof.
  intros Hm Hf w w' H. bind_cases H.
  - exact (Hf _ _ _ H).
  - discriminate Er.
  - exact (Hm _ _ H).
Qed.

Lemma no_budget_lift {A} (x : result A) : x <> OutOfFuel -> no_budget (rng:=rng) (lift x).
Proof. intros Hx w w' H. inv_pure H. now apply Hx. Qed.

Lemma int_ceil_div_no_budget a b : int_ceil_div a b <> OutOfFuel.
Proof. unfold int_ceil_div. destruct (Qis_zero b); discriminate. Qed.

Lemma quad_samples_no_budget a b : quad_samples a b <> OutOfFuel.
Proof.
  unfold quad_samples. pose proof (int_ceil_div_no_budget a b).
  destruct (int_ceil_div a b); congruence.
Qed.

Lemma center_index_no_budget a b c d n : center_index a b c d n <> OutOfFuel.
Proof. unfold center_index. destruct (Qis_zero _); discriminate. Qed.

Lemma no_budget_poisson lams : no_budget (poisson draw lams).
Proof.
  intros w w'. unfold poisson.
  destruct (all_nonneg lams); [destruct (draws draw lams (snd w))|]; discriminate.
Qed.

Lemma no_budget_poisson_grid lams : no_budget (poisson_grid draw lams).
Proof.
  intros w w'. unfold poisson_grid.
  destruct (forallb all_nonneg lams); [destruct (draws_grid draw lams (snd w))|];
    discriminate.
Qed.

Lemma no_budget_poisson_sized lam h w0 : no_budget (poisson_sized draw lam h w0).
Proof.
  unfold poisson_sized. destruct (negb (ndarray_nonneg lam)); [intros w w'; discriminate|].
  destruct (broadcast_to h w0 lam); [apply no_budget_poisson_grid|].
  intros w w'; discriminate.
Qed.

Lemma no_budget_simple {A} (m : @M rng A) :
  (forall w, exists a w', m w = (Ok a, w')) -> no_budget m.
Proof. intros H w w' E. destruct (H w) as (a & w1 & E1). congruence. Qed.

Lemma no_budget_for_sources body xs ys es :
  (forall x y i, no_budget (body x y i)) -> no_budget (rng:=rng) (for_sources body xs ys es).
Proof.
  intros Hb. revert ys es.
  induction xs as [|x xs IH]; intros [|y ys] [|e es]; cbn;
    try (intros w w'; discriminate).
  apply no_budget_bind; [apply Hb | intros _; apply IH].
Qed.

Lemma no_budget_deposit_source lens nx ny dx dy bx by_ x y i :
  no_budget (deposit_source draw lens nx ny dx dy bx by_ x y i).
Proof.
  unfold deposit_source.
  apply no_budget_bind; [intros w w'; discriminate | intros s].
  apply no_budget_bind; [apply no_budget_lift, center_index_no_budget | intros xi].
  apply no_budget_bind; [apply no_budget_lift, center_index_no_budget | intros yi].
  apply no_budget_bind; [apply no_budget_poisson | intros n].
  intros w w'; discriminate.
Qed.

Lemma no_budget_source_stage lens t xs ys fs : no_budget (source_stage draw lens t xs ys fs).
Proof.
  unfold source_stage.
  apply no_budget_bind; [intros w w'; discriminate | intros s].
  destruct (0 <? length fs)%nat; [|intros w w'; discriminate].
  unfold _applyPSF.
  apply no_budget_bind; [intros w w'; discriminate | intros s'].
  apply no_budget_bind; [apply no_budget_lift, quad_samples_no_budget | intros nx].
  apply no_budget_bind; [apply no_budget_lift, quad_samples_no_budget | intros ny].
  apply no_budget_bind; [apply no_budget_lift, int_ceil_div_no_budget | intros bx].
  apply no_budget_bind; [apply no_budget_lift, int_ceil_div_no_budget | intros by_].
  apply no_budget_for_sources. intros. apply no_budget_deposit_source.
Qed.

Lemma no_budget_background_stage lens t bg : no_budget (background_stage draw lens t bg).
Proof.
  unfold background_stage.
  apply no_budget_bind; [intros w w'; discriminate | intros s].
  apply no_budget_bind; [apply no_budget_poisson_sized | intros n].
  intros w w'; discriminate.
Qed.

Lemma no_budget_dark_stage t temp : no_budget (dark_stage draw t temp).
Proof.
  unfold dark_stage.
  apply no_budget_bind; [intros w w'; discriminate | intros s].
  apply no_budget_bind; [apply no_budget_poisson_grid | intros n].
  intros w w'; discriminate.
Qed.

(** On a well-formed sensor [_applyBloom] returns: every budget from
    some budget on gives the same normal return. *)
Lemma applyBloom_returns (w : Sensor * rng) :
  wf_sensor (fst w) ->
  exists fuel w',
    forall fuel', (fuel <= fuel')%nat -> _applyBloom fuel' w = (Ok tt, w').
Proof.
  intros (_ & _ & Hp & _). unfold _applyBloom.
  destruct (bool_decide (bloom (fst w) = ∅)) eqn:E.
  - exists 0%nat. eexists. intros fuel' _. rewrite bind_self, E. reflexivity.
  - assert (Hne : bloom (fst w) <> ∅) by (intros E0; now rewrite bool_decide_eq_true_2 in E).
    destruct (bloom_fuel_suffices _ _ _ (full_well (fst w)) Hne _ Hp) as (p' & Hl).
    eexists. eexists. intros fuel' Hf.
    rewrite bind_self, E, (bloom_loop_more_fuel _ _ _ _ _ _ Hl Hf). reflexivity.
Qed.


End ReturnFacts.

(** ** Well-formedness is an invariant of the sensor *)

Lemma wf_clear s : wf_sensor s -> wf_sensor (clear s).
Proof. intros Hwf. unfold clear. apply wf_set_pixels; [exact Hwf | apply shape_is_repeat]. Qed.

Lemma shape_is_bloom_loop h w fuel F K (p p' : grid Q) :
  shape_is h w p -> bloom_loop fuel F K p = Some p' -> shape_is h w p'.
Proof.
  revert p. induction fuel as [|fuel IH]; intros p Hs; cbn [bloom_loop]; [discriminate|].
  destruct (negb (any_positive (bloom_excess F p))).
  - intros H; inversion H; subst. exact Hs.
  - apply IH. now apply shape_is_bloom_step.
Qed.

Section InvariantFacts.
Context {rng : Type} (draw : Q -> rng -> nat * rng).

Lemma keeps_wf__applyBloom fuel : keeps_wf (rng:=rng) (_applyBloom fuel).
Proof.
  intros w r w' H Hwf. unfold _applyBloom in H. rewrite bind_self in H.
  pose proof Hwf as (_ & _ & Hp & _).
  destruct (bool_decide (bloom (fst w) = ∅)).
  - inv_pure H. cbn [fst]. apply wf_set_pixels; [exact Hwf|]. now apply shape_is_grid_map.
  - destruct (bloom_loop fuel _ _ _) as [p'|] eqn:E.
    + inv_pure H. cbn [fst]. apply wf_set_pixels; [exact Hwf|].
      eapply shape_is_bloom_loop; eassumption.
    + inv_pure H. exact Hwf.
Qed.

Lemma keeps_wf_accumulate fuel lens t temp xs ys fs bg :
  keeps_wf (accumulate draw fuel lens t temp xs ys fs bg).
Proof.
  unfold accumulate.
  apply keeps_wf_bind; [apply keeps_wf_source_stage | intros _].
  apply keeps_wf_bind; [apply keeps_wf_background_stage | intros _].
  apply keeps_wf_bind; [apply keeps_wf_dark_stage | intros _].
  apply keeps_wf__applyBloom.
Qed.

Lemma keeps_wf_readout : keeps_wf (readout draw).
Proof.
  intros [s g] r [s' g'] H Hwf. cbn [fst] in *.
  apply readout_effect in H as [Hc [(-> & _) | (Hp & _)]]; [exact Hwf|].
  rewrite <- Hc. apply wf_set_pixels; [exact Hwf|]. rewrite Hp.
  apply shape_is_grid_map2; [now destruct Hwf as (_ & _ & Hpix & _)|].
  apply draws_grid_shape, shape_is_repeat.
Qed.

End InvariantFacts.

(** ** A negative read noise *)

Section ReadNoiseFacts.
Context {rng : Type} (draw : Q -> rng -> nat * rng).

(** X20.  [__init__] accepts any number as [read_noise]; with a negative
    one [np.random.poisson] refuses the mean and [readout] raises
    [ValueError], leaving the sensor and the generator as they were. *)
Lemma readout_negative_read_noise (s : Sensor) (g : rng) :
  read_noise s < 0 -> readout draw (s, g) = (Raise ValueError_lam, (s, g)).
Proof.
  intros Hneg. unfold readout. rewrite bind_self. cbn [fst].
  apply bind_raise. rewrite poisson_sized_scalar.
  unfold Qleb_dec. destruct (Qlt_le_dec (read_noise s) 0) as [|Hle]; [reflexivity|].
  exfalso. apply (Qlt_not_le _ _ Hneg Hle).
Qed.

End ReadNoiseFacts.

(** * Further properties of the sensor *)

(** ** Construction *)

Lemma init_hot_pixels_outcome w_px h_px hp :
  if hot_pixels_accepted w_px h_px hp
  then exists hot, init_hot_pixels w_px h_px hp = Ok hot
  else init_hot_pixels w_px h_px hp = Raise ValueError_hot_pixels.
Proof.
  unfold hot_pixels_accepted, init_hot_pixels.
  destruct hp as [[v | v | v |] |]; try reflexivity; [|eexists; reflexivity].
  destruct (has_shape h_px w_px v); [eexists; reflexivity | reflexivity].
Qed.

Lemma init_bias_outcome w_px h_px b :
  if bias_accepted w_px h_px b
  then exists b', init_bias w_px h_px b = Ok b'
  else init_bias w_px h_px b = Raise ValueError_bias.
Proof.
  unfold bias_accepted, init_bias. destruct b as [v | v | v |]; try reflexivity.
  - eexists; reflexivity.
  - destruct (Z.of_nat (length v) =? w_px)%Z; [eexists; reflexivity | reflexivity].
  - destruct (has_shape h_px w_px v); [eexists; reflexivity | reflexivity].
Qed.

(** The outcome of [__init__], check by check. *)
Lemma init_outcome w_px h_px len pitch qe dc hp rn gn bs fwc adc bl rt :
  __init__ w_px h_px len pitch qe dc hp rn gn bs fwc adc bl rt =
  if ((w_px <? 0) || (h_px <? 0))%Z then Raise ValueError_dims
  else match init_hot_pixels w_px h_px hp with
       | Raise e => Raise e
       | OutOfFuel => OutOfFuel
       | Ok hot =>
         match init_bias w_px h_px bs with
         | Raise e => Raise e
         | OutOfFuel => OutOfFuel
         | Ok b =>
           if negb (bool_decide (bl ⊆ valid_bloom_dirs)) then Raise ValueError_bloom
           else
             let lx := match len with inl l => l | inr p => fst p end in
             let ly := match len with inl l => l | inr p => snd p end in
             let px := match pitch with inl l => l | inr p => fst p end in
             let py := match pitch with inl l => l | inr p => snd p end in
             Ok (mkSensor w_px h_px (np_zeros (Z.to_nat h_px) (Z.to_nat w_px))
                          lx ly (lx * ly) px py
                          (inject_Z (w_px + 1) * px - lx) (inject_Z (h_px + 1) * py - ly)
                          qe dc hot rn gn b fwc adc bl rt)
         end
       end.
Proof.
  unfold __init__. destruct ((w_px <? 0) || (h_px <? 0))%Z; [reflexivity|].
  destruct len as [l | [lx ly]], pitch as [p | [px py]]; reflexivity.
Qed.



(** X3.  The sensor that [__init__] returns: an all-zero buffer of shape
    [(height_px, width_px)], the extent
    [(width_px + 1) * px_pitch_x - px_len_x] (and the same for the
    height), the pixel area, a map of ones when [hot_pixels] is [None],
    the other arguments stored as given, and the shapes that the methods
    rely on. *)
Theorem init_state w_px h_px len pitch qe dc hp rn gn bs fwc adc bl rt s :
  __init__ w_px h_px len pitch qe dc hp rn gn bs fwc adc bl rt = Ok s ->
  wf_sensor s /\
  width_px s = w_px /\ height_px s = h_px /\
  pixels s = np_zeros (Z.to_nat h_px) (Z.to_nat w_px) /\
  px_len_x s = match len with inl l => l | inr p => fst p end /\
  px_len_y s = match len with inl l => l | inr p => snd p end /\
  px_pitch_x s = match pitch with inl l => l | inr p => fst p end /\
  px_pitch_y s = match pitch with inl l => l | inr p => snd p end /\
  px_area s = px_len_x s * px_len_y s /\
  width s = inject_Z (w_px + 1) * px_pitch_x s - px_len_x s /\
  height s = inject_Z (h_px + 1) * px_pitch_y s - px_len_y s /\
  (hp = None -> everywhere (fun v => v = 1) (hot_pixels s)) /\
  quantum_eff s = qe /\ dark_current s = dc /\ read_noise s = rn /\ gain s = gn /\
  full_well s = fwc /\ adc_limit s = adc /\ bloom s = bl /\ readout_time s = rt.
Proof.
  intros H. split; [exact (init_wf _ _ _ _ _ _ _ _ _ _ _ _ _ _ _ H)|].
  rewrite init_outcome in H.
  destruct ((w_px <? 0) || (h_px <? 0))%Z; [discriminate|].
  destruct (init_hot_pixels w_px h_px hp) as [hot | |] eqn:Ehot; try discriminate.
  destruct (init_bias w_px h_px bs) as [b | |]; try discriminate.
  destruct (negb (bool_decide (bl ⊆ valid_bloom_dirs))); [discriminate|].
  cbv zeta in H. inversion H; subst s; clear H. cbn.
  repeat (split; [reflexivity|]).
  split; [|repeat split; reflexivity].
  intros ->. cbn in Ehot. inversion Ehot; subst hot.
  apply (everywhere_grid_map_of (fun _ => True)); [reflexivity|].
  apply Forall_forall; intros; apply Forall_forall; auto.
Qed.

Lemma init_state_witness :
  __init__ 3 3 (inl 1) (inl 2) 1 (fun _ => 0) None 1 1 (Arr0 100%Z) 10 65535 ∅ 0
    = Ok (demo_sensor 0 ∅) /\
  pixels (demo_sensor 0 ∅) = np_zeros 3 3 /\
  width (demo_sensor 0 ∅) = inject_Z (3 + 1) * 2 - 1.
Proof.
  assert (H : __init__ 3 3 (inl 1) (inl 2) 1 (fun _ => 0) None 1 1 (Arr0 100%Z) 10
                65535 ∅ 0 = Ok (demo_sensor 0 ∅)) by (vm_compute; reflexivity).
  destruct (init_state _ _ _ _ _ _ _ _ _ _ _ _ _ _ _ H)
    as (_ & _ & _ & Hp & _ & _ & _ & _ & _ & Hw & _).
  split; [exact H|]. split; [exact Hp | exact Hw].
Defined.

(** X4.  A 1-D [bias] of length [width_px] is tiled over the rows: in the
    sensor that [__init__] returns, [bias[i, j]] is the [j]-th element of
    the argument on every row [i]. *)
Theorem init_bias_row w_px h_px len pitch qe dc hp rn gn (v : list Z) fwc adc bl rt s :
  __init__ w_px h_px len pitch qe dc hp rn gn (Arr1 v) fwc adc bl rt = Ok s ->
  Z.of_nat (length v) = w_px /\
  bias s = Arr2 (repeat v (Z.to_nat h_px)) /\
  forall i j, (i < Z.to_nat h_px)%nat -> bias_at s i j = nth j v 0%Z.
Proof.
  intros H. rewrite init_outcome in H.
  destruct ((w_px <? 0) || (h_px <? 0))%Z; [discriminate|].
  destruct (init_hot_pixels w_px h_px hp) as [hot | |]; try discriminate.
  unfold init_bias in H.
  destruct (Z.of_nat (length v) =? w_px)%Z eqn:E; [|discriminate].
  destruct (negb (bool_decide (bl ⊆ valid_bloom_dirs))); [discriminate|].
  cbv zeta in H. inversion H; subst s; clear H.
  apply Z.eqb_eq in E. split; [exact E|]. split; [reflexivity|].
  intros i j Hi. unfold bias_at. cbn [bias].
  now rewrite (nth_repeat_lt v [] Hi).
Qed.

Lemma init_bias_row_witness :
  __init__ 3 2 (inl 1) (inl 2) 1 (fun _ => 0) None 1 1 (Arr1 [10; 20; 30]%Z) 10 65535 ∅ 0
    = Ok demo_row_bias /\
  bias demo_row_bias = Arr2 (repeat [10; 20; 30]%Z (Z.to_nat 2)) /\
  bias_at demo_row_bias 1 2 = nth 2 [10; 20; 30]%Z 0%Z.
Proof.
  assert (H : __init__ 3 2 (inl 1) (inl 2) 1 (fun _ => 0) None 1 1
                (Arr1 [10; 20; 30]%Z) 10 65535 ∅ 0 = Ok demo_row_bias)
    by (vm_compute; reflexivity).
  destruct (init_bias_row _ _ _ _ _ _ _ _ _ _ _ _ _ _ _ H) as (_ & Hb & Hat).
  split; [exact H|]. split; [exact Hb|].
  apply Hat. vm_compute. lia.
Defined.

(** ** [clear] *)

(** The buffer of a sensor that [__init__] returns. *)
Lemma init_buffer w_px h_px len pitch qe dc hp rn gn bs fwc adc bl rt s :
  __init__ w_px h_px len pitch qe dc hp rn gn bs fwc adc bl rt = Ok s ->
  width_px s = w_px /\ height_px s = h_px /\
  pixels s = np_zeros (Z.to_nat h_px) (Z.to_nat w_px).
Proof.
  intros H. rewrite init_outcome in H.
  destruct ((w_px <? 0) || (h_px <? 0))%Z; [discriminate|].
  destruct (init_hot_pixels w_px h_px hp) as [hot | |]; try discriminate.
  destruct (init_bias w_px h_px bs) as [b | |]; try discriminate.
  destruct (negb (bool_decide (bl ⊆ valid_bloom_dirs))); [discriminate|].
  cbv zeta in H. injection H as <-. repeat split.
Qed.

Lemma clear_same_config s s' : same_config s s' -> clear s' = clear s.
Proof. unfold same_config. intros <-. reflexivity. Qed.

Section ClearFacts.
Context {rng : Type} (draw : Q -> rng -> nat * rng).

(** X5.  [clear] returns a sensor to the state in which [__init__] built
    it: after any [accumulate] and any [readout] on a sensor from
    [__init__], whatever their outcomes, [clear] gives back exactly the
    constructed sensor. *)
Theorem clear_restores_constructed
  w_px h_px len pitch qe dc hp rn gn bs fwc adc bl rt s0
  fuel lens exposure_time temperature xcoords ycoords photon_flux_density
  background_flux (g : rng) r1 w1 r2 w2 :
  __init__ w_px h_px len pitch qe dc hp rn gn bs fwc adc bl rt = Ok s0 ->
  accumulate draw fuel lens exposure_time temperature xcoords ycoords
             photon_flux_density background_flux (s0, g) = (r1, w1) ->
  readout draw w1 = (r2, w2) ->
  clear s0 = s0 /\ clear (fst w1) = s0 /\ clear (fst w2) = s0.
Proof.
  intros Hinit Hacc Hread.
  assert (E0 : clear s0 = s0).
  { destruct (init_buffer _ _ _ _ _ _ _ _ _ _ _ _ _ _ _ Hinit) as (Ew & Eh & Ep).
    unfold clear. rewrite Ew, Eh, <- Ep. apply same_config_refl. }
  pose proof (frame_accumulate draw _ _ _ _ _ _ _ _ _ _ _ Hacc) as Hc1.
  pose proof (frame_readout draw _ _ _ Hread) as Hc2. cbn [fst] in Hc1.
  split; [exact E0|]. split.
  - now rewrite (clear_same_config _ _ Hc1).
  - now rewrite (clear_same_config _ _ Hc2), (clear_same_config _ _ Hc1).
Qed.

End ClearFacts.

Lemma clear_restores_constructed_witness :
  __init__ 3 3 (inl 1) (inl 2) 1 (fun _ => 0) None 1 1 (Arr0 100%Z) 10 65535 ∅ 0
    = Ok (demo_sensor 0 ∅) /\
  clear (fst (snd (readout tape_draw (snd (demo_accumulate 0 ∅ (np_zeros 3 3))))))
    = demo_sensor 0 ∅.
Proof.
  assert (H : __init__ 3 3 (inl 1) (inl 2) 1 (fun _ => 0) None 1 1 (Arr0 100%Z) 10
                65535 ∅ 0 = Ok (demo_sensor 0 ∅)) by (vm_compute; reflexivity).
  split; [exact H|].
  destruct (clear_restores_constructed tape_draw _ _ _ _ _ _ _ _ _ _ _ _ _ _ _
              10%nat demo_lens 1 0 [2] [2] [5] (Arr0 1) demo_tape
              (fst (demo_accumulate 0 ∅ (np_zeros 3 3)))
              (snd (demo_accumulate 0 ∅ (np_zeros 3 3)))
              (fst (readout tape_draw (snd (demo_accumulate 0 ∅ (np_zeros 3 3)))))
              (snd (readout tape_draw (snd (demo_accumulate 0 ∅ (np_zeros 3 3)))))
              H (surjective_pairing _) (surjective_pairing _)) as (_ & _ & E).
  exact E.
Defined.

(** ** [accumulate]: what it keeps and what it leaves *)

Lemma any_positive_false_inv F (p : grid Q) :
  any_positive (bloom_excess F p) = false -> everywhere (fun v => v <= F) p.
Proof.
  unfold any_positive, bloom_excess, grid_map, everywhere.
  induction p as [|row p IH]; cbn [map existsb]; intros H; [constructor|].
  apply orb_false_elim in H as [Hrow Hrest]. constructor; [|now apply IH].
  clear IH Hrest. induction row as [|v row IHr]; cbn [map existsb] in *; [constructor|].
  apply orb_false_elim in Hrow as [Hv Hrow]. constructor; [|now apply IHr].
  unfold Qltb_dec in Hv. destruct (Qlt_le_dec 0 (Qmax 0 (v - F))) as [|Hle]; [discriminate|].
  pose proof (Q.le_max_r 0 (v - F)). lra.
Qed.

Section AccumulateFacts.
Context {rng : Type} (draw : Q -> rng -> nat * rng).

(** When [_applyBloom] returns, no pixel is above [full_well], with or
    without bloom directions. *)
Lemma applyBloom_capped fuel (w w' : Sensor * rng) :
  _applyBloom fuel w = (Ok tt, w') ->
  everywhere (fun v => v <= full_well (fst w)) (pixels (fst w')).
Proof.
  unfold _applyBloom. rewrite bind_self.
  destruct (bool_decide (bloom (fst w) = ∅)).
  - intros H; inv_pure H. cbn [fst pixels set_pixels].
    apply (everywhere_grid_map_of (fun _ => True)); [intros; apply Q.le_min_r|].
    apply Forall_forall; intros; apply Forall_forall; auto.
  - destruct (bloom_loop fuel _ _ _) as [p'|] eqn:E; intros H; inv_pure H.
    cbn [fst pixels set_pixels].
    apply any_positive_false_inv. eapply bloom_loop_exit; exact E.
Qed.

(** X6.  Whatever its outcome, [accumulate] writes no attribute of the
    sensor but [pixels], and it keeps the sensor well formed: the buffer
    keeps the shape [(height_px, width_px)]. *)
Theorem accumulate_invariant
  fuel lens exposure_time temperature xcoords ycoords photon_flux_density
  background_flux (w : Sensor * rng) r w' :
  accumulate draw fuel lens exposure_time temperature xcoords ycoords
             photon_flux_density background_flux w = (r, w') ->
  same_config (fst w) (fst w') /\ (wf_sensor (fst w) -> wf_sensor (fst w')).
Proof.
  intros H. split.
  - exact (frame_accumulate draw _ _ _ _ _ _ _ _ _ _ _ H).
  - exact (keeps_wf_accumulate draw _ _ _ _ _ _ _ _ _ _ _ H).
Qed.

(** X8.  When [accumulate] returns, no pixel is above [full_well],
    whatever the [bloom] set: the bloom loop is left only when no pixel
    has excess. *)
Theorem accumulate_at_most_full_well
  fuel lens exposure_time temperature xcoords ycoords photon_flux_density
  background_flux (w w' : Sensor * rng) :
  accumulate draw fuel lens exposure_time temperature xcoords ycoords
             photon_flux_density background_flux w = (Ok tt, w') ->
  everywhere (fun v => v <= full_well (fst w')) (pixels (fst w')).
Proof.
  intros H.
  pose proof (frame_accumulate draw _ _ _ _ _ _ _ _ _ _ _ H) as Hfr.
  unfold accumulate in H.
  apply bind_Ok in H as (u1 & w1 & H1 & H).
  apply bind_Ok in H as (u2 & w2 & H2 & H).
  apply bind_Ok in H as (u3 & w3 & H3 & H).
  pose proof (frame__applyBloom fuel _ _ _ H) as Hc.
  pose proof (applyBloom_capped _ _ _ H) as Hcap.
  rewrite <- Hc. exact Hcap.
Qed.

(** X9.  With no source, a background that [np.random.poisson] refuses
    ends [accumulate] with [ValueError] before anything is written or
    drawn: the sensor and the generator are exactly as before.  A
    negative mean is reported before a shape that does not broadcast. *)
Theorem accumulate_no_source_bad_background
  fuel lens exposure_time temperature xcoords ycoords background_flux
  (w : Sensor * rng) :
  let bg := ndarray_map (fun b => b * exposure_time * area lens) background_flux in
  let run := accumulate draw fuel lens exposure_time temperature xcoords ycoords []
                        background_flux w in
  (ndarray_nonneg bg = false -> run = (Raise ValueError_lam, w)) /\
  (ndarray_nonneg bg = true ->
   broadcast_to (Z.to_nat (height_px (fst w))) (Z.to_nat (width_px (fst w))) bg = None ->
   run = (Raise ValueError_broadcast, w)).
Proof.
  cbv zeta. unfold accumulate.
  rewrite (bind_step _ _ _ _ _ (source_stage_no_source draw lens exposure_time
                                  xcoords ycoords w)).
  split.
  - intros Hneg. apply bind_raise. unfold background_stage. rewrite bind_self.
    apply bind_raise. unfold poisson_sized. now rewrite Hneg.
  - intros Hpos Hb. apply bind_raise. unfold background_stage. rewrite bind_self.
    apply bind_raise. unfold poisson_sized. now rewrite Hpos, Hb.
Qed.

End AccumulateFacts.

Lemma accumulate_invariant_witness :
  same_config (demo_sensor 0 {["+x"]})
              (fst (snd (demo_accumulate 0 {["+x"]} (np_zeros 3 3)))) /\
  wf_sensor (fst (snd (demo_accumulate 0 {["+x"]} (np_zeros 3 3)))).
Proof.
  destruct (accumulate_invariant tape_draw 10 demo_lens 1 0 [2] [2] [5] (Arr0 1)
              (demo_sensor 0 {["+x"]}, demo_tape)
              (fst (demo_accumulate 0 {["+x"]} (np_zeros 3 3)))
              (snd (demo_accumulate 0 {["+x"]} (np_zeros 3 3)))
              (surjective_pairing _)) as [Hc Hwf].
  split; [exact Hc|]. apply Hwf. apply demo_sensor_wf.
  apply (bool_decide_unpack _). vm_compute. exact I.
Defined.

Lemma accumulate_at_most_full_well_witness :
  demo_accumulate 0 {["+x"]} (np_zeros 3 3) =
    (Ok tt, (set_pixels (demo_sensor 0 {["+x"]}) [[5; 6; 7]; [8; 10; 10]; [10; 10; 10]],
             skipn 13 demo_tape)) /\
  everywhere (fun v => v <= 10) [[5; 6; 7]; [8; 10; 10]; [10; 10; 10]].
Proof.
  assert (H : demo_accumulate 0 {["+x"]} (np_zeros 3 3) =
              (Ok tt, (set_pixels (demo_sensor 0 {["+x"]})
                         [[5; 6; 7]; [8; 10; 10]; [10; 10; 10]], skipn 13 demo_tape)))
    by (vm_compute; reflexivity).
  split; [exact H|].
  exact (accumulate_at_most_full_well tape_draw 10 demo_lens 1 0 [2] [2] [5] (Arr0 1)
           _ _ H).
Defined.

(** ** [_applyPSF]: the loop over sources *)

Lemma nth_alter_ne {A} (f : A -> A) k (l : list A) i d :
  i <> k -> nth i (alter f k l) d = nth i l d.
Proof.
  revert k i. induction l as [|a l IH]; intros [|k] [|i] Hne; cbn; try reflexivity;
    try congruence.
  apply IH. congruence.
Qed.

Lemma nth_alter_eq {A} (f : A -> A) k (l : list A) d :
  (k < length l)%nat -> nth k (alter f k l) d = f (nth k l d).
Proof.
  revert k. induction l as [|a l IH]; intros [|k] Hk; cbn in *; try lia; [reflexivity|].
  apply IH. lia.
Qed.

Lemma alter_out {A} (f : A -> A) k (l : list A) :
  (length l <= k)%nat -> alter f k l = l.
Proof.
  revert k. induction l as [|a l IH]; intros [|k] Hk; cbn in *; try reflexivity; try lia.
  f_equal. apply IH. lia.
Qed.

(** [pixels[iy, ix] += v] changes no other pixel, and the pixel itself
    by [v]. *)
Lemma cell_add_at_other p iy ix v i j :
  Z.to_nat iy <> i \/ Z.to_nat ix <> j -> cell (add_at p iy ix v) i j = cell p i j.
Proof.
  intros Hne. unfold cell, add_at.
  destruct (Nat.eq_dec i (Z.to_nat iy)) as [->|Hi].
  - destruct Hne as [Hne|Hne]; [congruence|].
    destruct (Nat.lt_ge_cases (Z.to_nat iy) (length p)) as [Hlt|Hge].
    + rewrite (nth_alter_eq (A:=list Q) _ _ p [] Hlt). apply nth_alter_ne. congruence.
    + now rewrite (alter_out (A:=list Q)).
  - now rewrite (nth_alter_ne (A:=list Q)).
Qed.

Lemma cell_add_at_cases p iy ix v i j :
  cell (add_at p iy ix v) i j = cell p i j \/
  cell (add_at p iy ix v) i j = cell p i j + v.
Proof.
  destruct (Nat.eq_dec (Z.to_nat iy) i) as [<-|Hi];
    [|left; apply cell_add_at_other; now left].
  destruct (Nat.eq_dec (Z.to_nat ix) j) as [<-|Hj];
    [|left; apply cell_add_at_other; now right].
  unfold cell, add_at.
  destruct (Nat.lt_ge_cases (Z.to_nat iy) (length p)) as [Hlt|Hge];
    [|left; now rewrite (alter_out (A:=list Q))].
  rewrite (nth_alter_eq (A:=list Q) _ _ p [] Hlt).
  destruct (Nat.lt_ge_cases (Z.to_nat ix) (length (nth (Z.to_nat iy) p []))) as [Hlt'|Hge'].
  - right. now rewrite nth_alter_eq.
  - left. now rewrite alter_out.
Qed.

Lemma cell_add_all_other cells vals p i j :
  (forall c, In c cells -> Z.to_nat (fst c) <> i \/ Z.to_nat (snd c) <> j) ->
  cell (add_all p cells vals) i j = cell p i j.
Proof.
  revert vals p. induction cells as [|[iy ix] cells IH]; intros [|v vals] p Hout;
    cbn [add_all]; try reflexivity.
  rewrite IH by (intros c Hc; apply Hout; now right).
  apply cell_add_at_other. exact (Hout (iy, ix) (or_introl eq_refl)).
Qed.

Lemma grid_le_refl p : grid_le p p.
Proof. intros i j. apply Qle_refl. Qed.

Lemma grid_le_trans p q r : grid_le p q -> grid_le q r -> grid_le p r.
Proof. intros H1 H2 i j. eapply Qle_trans; [apply H1 | apply H2]. Qed.

Lemma grid_le_add_all cells vals p :
  Forall (fun v => 0 <= v) vals -> grid_le p (add_all p cells vals).
Proof.
  revert vals p. induction cells as [|[iy ix] cells IH]; intros [|v vals] p Hv;
    cbn [add_all]; try apply grid_le_refl.
  inversion Hv as [|? ? Hv0 Hvs]; subst.
  eapply grid_le_trans; [|apply IH; exact Hvs].
  intros i j. destruct (cell_add_at_cases p iy ix v i j) as [-> | ->]; lra.
Qed.

Lemma grid_le_plus h w (p n : grid Q) :
  shape_is h w p -> shape_is h w n -> nonneg n -> grid_le p (grid_map2 Qplus p n).
Proof.
  intros Hp Hn Hpos i j.
  assert (Hs : shape_is h w (grid_map2 Qplus p n)) by now apply shape_is_grid_map2.
  destruct (Nat.lt_ge_cases i h) as [Hi|Hi], (Nat.lt_ge_cases j w) as [Hj|Hj].
  2-4: rewrite (cell_outside h w p), (cell_outside h w (grid_map2 Qplus p n));
       auto; apply Qle_refl.
  rewrite (cell_grid_map2 h w) by assumption.
  pose proof (proj1 (everywhere_cell h w _ n Hn) Hpos i j Hi Hj) as H0. cbn beta in H0. lra.
Qed.

(** The loop over sources reads the three sequences only up to the
    length of the shortest. *)
Lemma for_sources_take {rng} (body : Q -> Q -> Q -> @M rng unit) xs ys es :
  let n := Nat.min (length xs) (Nat.min (length ys) (length es)) in
  for_sources body xs ys es = for_sources body (take n xs) (take n ys) (take n es).
Proof.
  revert ys es. induction xs as [|x xs IH]; intros [|y ys] [|e es]; cbn; try reflexivity.
  cbv zeta in IH. now rewrite <- (IH ys es).
Qed.

Lemma bind_congr {rng A B} (m m' : @M rng A) (f : A -> @M rng B) w :
  m w = m' w -> bind m f w = bind m' f w.
Proof. unfold bind. now intros ->. Qed.

Section SourceFacts.
Context {rng : Type} (draw : Q -> rng -> nat * rng).

(** X10.  [zip] stops at the shortest of [xcoords], [ycoords] and the
    third sequence (the doses of [_applyPSF], the flux densities of
    [accumulate]): neither method reads the entries beyond it, and a
    call with sequences of different lengths is not reported. *)
Theorem applyPSF_stops_at_shortest
  fuel lens exposure_time temperature xcoords ycoords fluxes background_flux
  (w : Sensor * rng) :
  let n := Nat.min (length xcoords) (Nat.min (length ycoords) (length fluxes)) in
  _applyPSF draw lens xcoords ycoords fluxes w =
    _applyPSF draw lens (take n xcoords) (take n ycoords) (take n fluxes) w /\
  accumulate draw fuel lens exposure_time temperature xcoords ycoords
             fluxes background_flux w =
    accumulate draw fuel lens exposure_time temperature (take n xcoords) (take n ycoords)
               fluxes background_flux w.
Proof.
  intros n. split.
  - unfold _applyPSF. rewrite !bind_self.
    do 4 (rewrite !bind_lift;
          match goal with
          | |- match ?x with _ => _ end = _ => destruct x; [|reflexivity ..]
          end).
    apply (f_equal (fun m => m w)). apply for_sources_take.
  - unfold accumulate. apply bind_congr.
    unfold source_stage. rewrite !bind_self.
    destruct (0 <? length fluxes)%nat; [|reflexivity].
    unfold _applyPSF. rewrite !bind_self.
    do 4 (rewrite !bind_lift;
          match goal with
          | |- match ?x with _ => _ end = _ => destruct x; [|reflexivity ..]
          end).
    apply (f_equal (fun m => m w)).
    set (es := map _ fluxes).
    assert (Hn : Nat.min (length xcoords) (Nat.min (length ycoords) (length es)) = n)
      by (unfold es; now rewrite length_map).
    rewrite (for_sources_take _ (take n xcoords) (take n ycoords) es). cbv zeta.
    rewrite (for_sources_take _ xcoords ycoords es). cbv zeta. rewrite Hn.
    rewrite !length_take.
    replace (Nat.min (Nat.min n (length xcoords))
               (Nat.min (Nat.min n (length ycoords)) (length es)))
      with n by lia.
    now rewrite !take_take, !Nat.min_id.
Qed.

End SourceFacts.

Lemma In_np_arange lo hi k : In k (np_arange lo hi) <-> (lo <= k < hi)%Z.
Proof.
  unfold np_arange. rewrite in_map_iff. split.
  - intros (n & <- & Hn). apply in_seq in Hn. lia.
  - intros Hk. exists (Z.to_nat (k - lo)). split; [lia|]. apply in_seq. lia.
Qed.

Lemma In_footprint xmin xmax ymin ymax iy ix :
  In (iy, ix) (footprint xmin xmax ymin ymax) <->
  (ymin <= iy < ymax)%Z /\ (xmin <= ix < xmax)%Z.
Proof.
  unfold footprint. rewrite in_flat_map. split.
  - intros (y0 & Hy & Hin). apply in_map_iff in Hin as (x0 & E & Hx).
    inversion E; subst. now rewrite In_np_arange in Hy, Hx.
  - intros [Hy Hx]. exists iy. split; [now apply In_np_arange|].
    apply in_map_iff. exists ix. split; [reflexivity | now apply In_np_arange].
Qed.

Lemma footprint_empty xmin xmax ymin ymax :
  (xmax <= xmin)%Z \/ (ymax <= ymin)%Z -> footprint xmin xmax ymin ymax = [].
Proof.
  intros H. destruct (footprint xmin xmax ymin ymax) as [|[iy ix] l] eqn:E; [reflexivity|].
  assert (Hin : In (iy, ix) (footprint xmin xmax ymin ymax)) by (rewrite E; now left).
  apply In_footprint in Hin. lia.
Qed.

Lemma source_window_config s s' bx by_ x y row col :
  same_config s s' ->
  source_window s' bx by_ x y row col <-> source_window s bx by_ x y row col.
Proof. unfold same_config. intros <-. reflexivity. Qed.

Lemma is_integer_minus a b : is_integer a -> is_integer b -> is_integer (a - b).
Proof.
  intros [x Hx] [y Hy]. exists (x - y)%Z. rewrite Hx, Hy.
  unfold Z.sub, Qminus. now rewrite inject_Z_plus, inject_Z_opp.
Qed.

Lemma is_integer_max a b : is_integer a -> is_integer b -> is_integer (Qmax a b).
Proof.
  intros [x Hx] [y Hy].
  destruct (Q.max_spec a b) as [[_ E] | [_ E]]; [exists y | exists x]; now rewrite E.
Qed.

Lemma everywhere_trivial {A} (a : grid A) : everywhere (fun _ => True) a.
Proof. apply Forall_forall; intros; apply Forall_forall; auto. Qed.

Lemma integer_add_all cells vals p :
  everywhere is_integer p -> Forall is_integer vals ->
  everywhere is_integer (add_all p cells vals).
Proof.
  revert vals p. induction cells as [|[iy ix] cells IH]; intros [|v vals] p Hp Hv;
    cbn [add_all]; try exact Hp.
  inversion Hv as [|? ? Hv0 Hvs]; subst. apply IH; [|exact Hvs].
  unfold everywhere, add_at. apply Forall_alter; [exact Hp|]. intros row _ Hrow.
  apply Forall_alter; [exact Hrow|]. intros e _ He. now apply is_integer_plus.
Qed.

Lemma integer_bloom_step F K (p : grid Q) :
  is_integer F -> everywhere is_integer p -> everywhere is_integer (bloom_step F K p).
Proof.
  intros HF Hp. unfold bloom_step.
  apply (everywhere_grid_map2 is_integer is_integer); [apply is_integer_plus | |].
  - apply (everywhere_grid_map2 is_integer is_integer); [apply is_integer_minus|exact Hp|].
    unfold bloom_excess. apply (everywhere_grid_map_of is_integer); [|exact Hp].
    intros v Hv. apply is_integer_max; [exists 0%Z; reflexivity|].
    now apply is_integer_minus.
  - apply (everywhere_grid_map_of (fun _ => True)); [|apply everywhere_trivial].
    intros; apply is_integer_inject.
Qed.

Lemma integer_bloom_loop fuel F K (p p' : grid Q) :
  is_integer F -> everywhere is_integer p -> bloom_loop fuel F K p = Some p' ->
  everywhere is_integer p'.
Proof.
  intros HF. revert p. induction fuel as [|fuel IH]; intros p Hp; cbn [bloom_loop];
    [discriminate|].
  destruct (negb (any_positive (bloom_excess F p))).
  - intros H; inversion H; subst. exact Hp.
  - apply IH. now apply integer_bloom_step.
Qed.

Section DepositFacts.
Context {rng : Type} (draw : Q -> rng -> nat * rng).

(** What one pass of the loop over sources does: it raises with nothing
    changed, or it adds one count per pixel of the window. *)
Lemma deposit_source_effect lens nx ny dx dy bx by_ x y i (w : Sensor * rng) r w' :
  deposit_source draw lens nx ny dx dy bx by_ x y i w = (r, w') ->
  w' = w \/
  exists xi yi n g',
    center_index x (width (fst w)) (px_pitch_x (fst w)) (px_len_x (fst w))
                 (width_px (fst w)) = Ok xi /\
    center_index y (height (fst w)) (px_pitch_y (fst w)) (px_len_y (fst w))
                 (height_px (fst w)) = Ok yi /\
    Forall (fun v => 0 <= v /\ is_integer v) n /\
    w' = (set_pixels (fst w)
            (add_all (pixels (fst w))
               (footprint (Z.max (xi - bx) 0) (Z.min (xi + bx + 1) (width_px (fst w)))
                          (Z.max (yi - by_) 0) (Z.min (yi + by_ + 1) (height_px (fst w))))
               n), g').
Proof.
  unfold deposit_source. rewrite bind_self, bind_lift.
  destruct (center_index x _ _ _ _) as [xi | |] eqn:Ex; [|intros H; inv_pure H; now left ..].
  rewrite bind_lift.
  destruct (center_index y _ _ _ _) as [yi | |] eqn:Ey; [|intros H; inv_pure H; now left ..].
  intros H. bind_cases H.
  - right. exists xi, yi, a, (snd w1).
    pose proof (poisson_inv draw _ _ _ _ H1) as [E Hns]. specialize (Hns _ eq_refl).
    split; [reflexivity|]. split; [reflexivity|]. split.
    + rewrite Hns. apply draws_all. intros k. split; [apply count_nonneg | apply is_integer_inject].
    + inv_pure H. now rewrite E.
  - left. unfold poisson in H. destruct (all_nonneg _); [destruct (draws _ _ _)|];
      inversion H; reflexivity.
  - left. unfold poisson in H. destruct (all_nonneg _); [destruct (draws _ _ _)|];
      discriminate H.
Qed.

Lemma keeps_le_deposit_source p0 lens nx ny dx dy bx by_ x y i :
  keeps (grid_le p0) (deposit_source draw lens nx ny dx dy bx by_ x y i).
Proof.
  intros w r w' H Hp.
  apply deposit_source_effect in H as [-> | (xi & yi & n & g' & _ & _ & Hn & ->)];
    [exact Hp|].
  cbn [fst pixels set_pixels]. eapply grid_le_trans; [exact Hp|].
  apply grid_le_add_all. eapply Forall_impl; [exact Hn|]. now intros v [Hv _].
Qed.

Lemma keeps_integer_deposit_source lens nx ny dx dy bx by_ x y i :
  keeps (everywhere is_integer) (deposit_source draw lens nx ny dx dy bx by_ x y i).
Proof.
  intros w r w' H Hp.
  apply deposit_source_effect in H as [-> | (xi & yi & n & g' & _ & _ & Hn & ->)];
    [exact Hp|].
  cbn [fst pixels set_pixels]. apply integer_add_all; [exact Hp|].
  eapply Forall_impl; [exact Hn|]. now intros v [_ Hv].
Qed.

Lemma keeps_source_stage_of (P : grid Q -> Prop) lens t xs ys fs :
  (forall nx ny dx dy bx by_ x y i,
     keeps P (deposit_source draw lens nx ny dx dy bx by_ x y i)) ->
  keeps P (source_stage draw lens t xs ys fs).
Proof.
  intros Hb w r w' H Hp. unfold source_stage in H. rewrite bind_self in H.
  destruct (0 <? length fs)%nat; [|inv_pure H; exact Hp].
  unfold _applyPSF in H. rewrite bind_self in H.
  do 4 (rewrite bind_lift in H;
        match type of H with
        | match ?x with _ => _ end = _ => destruct x; [|inv_pure H; exact Hp ..]
        end).
  eapply keeps_for_sources; [|exact H|exact Hp].
  intros. apply Hb.
Qed.

(** X11.  On a well-formed sensor each of the three deposits of
    [accumulate] only adds charge: whatever its outcome, no pixel holds
    less after the source, the background or the dark-current stage than
    before it. *)
Theorem deposits_only_add lens exposure_time temperature xcoords ycoords
  photon_flux_density background_flux (w : Sensor * rng) r w' :
  wf_sensor (fst w) ->
  (source_stage draw lens exposure_time xcoords ycoords photon_flux_density w = (r, w') ->
   grid_le (pixels (fst w)) (pixels (fst w'))) /\
  (background_stage draw lens exposure_time background_flux w = (r, w') ->
   grid_le (pixels (fst w)) (pixels (fst w'))) /\
  (dark_stage draw exposure_time temperature w = (r, w') ->
   grid_le (pixels (fst w)) (pixels (fst w'))).
Proof.
  intros (_ & _ & Hpix & Hhot & _). split; [|split]; intros H.
  - eapply (keeps_source_stage_of (grid_le (pixels (fst w)))); [|exact H|apply grid_le_refl].
    intros. apply keeps_le_deposit_source.
  - unfold background_stage in H. rewrite bind_self in H. bind_cases H.
    + apply poisson_sized_inv in H1 as [E Hns].
      destruct (Hns _ eq_refl) as (lams & Hb & En).
      inv_pure H. cbn [fst pixels set_pixels].
      eapply grid_le_plus; [exact Hpix| |].
      * apply draws_grid_shape. now apply broadcast_to_shape in Hb.
      * apply draws_grid_all. exact count_nonneg.
    + apply poisson_sized_inv in H as [E _]. rewrite E. apply grid_le_refl.
    + apply poisson_sized_inv in H as [E _]. rewrite E. apply grid_le_refl.
  - unfold dark_stage in H. rewrite bind_self in H. bind_cases H.
    + apply poisson_grid_inv in H1 as [E Hns]. specialize (Hns _ eq_refl).
      inv_pure H. cbn [fst pixels set_pixels].
      eapply grid_le_plus; [exact Hpix| |].
      * apply draws_grid_shape. unfold dark_lambda. apply shape_is_grid_map. exact Hhot.
      * apply draws_grid_all. exact count_nonneg.
    + apply poisson_grid_inv in H as [E _]. rewrite E. apply grid_le_refl.
    + apply poisson_grid_inv in H as [E _]. rewrite E. apply grid_le_refl.
Qed.

Lemma deposit_source_local lens nx ny dx dy bx by_ x y i (w : Sensor * rng) r w' row col :
  deposit_source draw lens nx ny dx dy bx by_ x y i w = (r, w') ->
  ~ source_window (fst w) bx by_ x y row col ->
  cell (pixels (fst w')) row col = cell (pixels (fst w)) row col.
Proof.
  intros H Hout.
  apply deposit_source_effect in H as [-> | (xi & yi & n & g' & Ex & Ey & _ & ->)];
    [reflexivity|].
  cbn [fst pixels set_pixels]. apply cell_add_all_other.
  intros [iy ix] Hin. apply In_footprint in Hin. cbn [fst snd].
  destruct (Nat.eq_dec (Z.to_nat iy) row) as [Er|Er]; [|now left].
  destruct (Nat.eq_dec (Z.to_nat ix) col) as [Ec|Ec]; [|now right].
  exfalso. apply Hout. exists xi, yi. split; [exact Ex|]. split; [exact Ey|]. lia.
Qed.

Lemma for_sources_local lens nx ny dx dy bx by_ row col xs ys es (w : Sensor * rng) r w' :
  for_sources (deposit_source draw lens nx ny dx dy bx by_) xs ys es w = (r, w') ->
  (forall x y, In (x, y) (combine xs ys) -> ~ source_window (fst w) bx by_ x y row col) ->
  cell (pixels (fst w')) row col = cell (pixels (fst w)) row col.
Proof.
  revert ys es w. induction xs as [|x xs IH]; intros [|y ys] [|e es] w; cbn [for_sources];
    try (intros H _; inv_pure H; reflexivity).
  intros H Hout. bind_cases H.
  - rewrite (IH _ _ _ H).
    + eapply deposit_source_local; [exact H1|]. apply Hout. now left.
    + intros x0 y0 Hin Hw. apply (Hout x0 y0); [now right|].
      exact (proj1 (source_window_config _ _ _ _ _ _ _ _
                      (frame_deposit_source draw lens nx ny dx dy bx by_ x y e _ _ _ H1))
                   Hw).
  - eapply deposit_source_local; [exact H|]. apply Hout. now left.
  - eapply deposit_source_local; [exact H|]. apply Hout. now left.
Qed.

(** X12.  [_applyPSF] is local: a pixel that lies in the window of no
    source, that is farther than [px_bounds_y] rows or [px_bounds_x]
    columns from every source's centre pixel, holds after the call what
    it held before, whatever the outcome of the call. *)
Theorem applyPSF_local lens xcoords ycoords electron_dose (w : Sensor * rng) r w'
  bx by_ row col :
  int_ceil_div (psf_bounds_x lens) (px_len_x (fst w)) = Ok bx ->
  int_ceil_div (psf_bounds_y lens) (px_len_y (fst w)) = Ok by_ ->
  _applyPSF draw lens xcoords ycoords electron_dose w = (r, w') ->
  (forall x y, In (x, y) (combine xcoords ycoords) ->
               ~ source_window (fst w) bx by_ x y row col) ->
  cell (pixels (fst w')) row col = cell (pixels (fst w)) row col.
Proof.
  intros Hbx Hby H Hout. unfold _applyPSF in H. rewrite bind_self in H.
  do 2 (rewrite bind_lift in H;
        match type of H with
        | match ?x with _ => _ end = _ => destruct x; [|inv_pure H; reflexivity ..]
        end).
  rewrite bind_lift, Hbx, bind_lift, Hby in H.
  eapply for_sources_local; eassumption.
Qed.

Lemma deposit_source_off_sensor lens nx ny dx dy bx by_ x y i (w : Sensor * rng) :
  off_sensor (fst w) bx by_ x y ->
  deposit_source draw lens nx ny dx dy bx by_ x y i w = (Ok tt, w).
Proof.
  intros (xi & yi & Ex & Ey & Hoff). unfold deposit_source.
  rewrite bind_self, bind_lift, Ex, bind_lift, Ey. cbv zeta.
  rewrite footprint_empty by lia.
  destruct w as [s g]. destruct s. reflexivity.
Qed.

Lemma for_sources_off_sensor lens nx ny dx dy bx by_ xs ys es (w : Sensor * rng) :
  (forall x y, In (x, y) (combine xs ys) -> off_sensor (fst w) bx by_ x y) ->
  for_sources (deposit_source draw lens nx ny dx dy bx by_) xs ys es w = (Ok tt, w).
Proof.
  revert ys es. induction xs as [|x xs IH]; intros [|y ys] [|e es] Hoff; cbn [for_sources];
    try reflexivity.
  rewrite (bind_step _ _ _ _ _ (deposit_source_off_sensor _ _ _ _ _ _ _ x y e w
                                  (Hoff x y (or_introl eq_refl)))).
  apply IH. intros x0 y0 Hin. apply Hoff. now right.
Qed.


End DepositFacts.

Lemma deposits_only_add_witness :
  wf_sensor (demo_sensor (-1) ∅) /\
  grid_le (pixels (demo_sensor (-1) ∅)) (pixels (fst demo_after_sources)).
Proof.
  assert (Hwf : wf_sensor (demo_sensor (-1) ∅))
    by (apply demo_sensor_wf; apply (bool_decide_unpack _); vm_compute; exact I).
  split; [exact Hwf|].
  destruct (deposits_only_add tape_draw demo_lens 1 0 [2] [2] [5] (Arr0 1)
              (demo_sensor (-1) ∅, demo_tape) (Ok tt) demo_after_sources Hwf) as [Hs _].
  apply Hs. vm_compute. reflexivity.
Defined.

Lemma applyPSF_local_witness :
  cell (pixels (fst (snd (_applyPSF tape_draw demo_lens [2] [2] [5] demo_state0)))) 0 0 =
  cell (pixels (fst demo_state0)) 0 0.
Proof.
  apply (applyPSF_local tape_draw demo_lens [2] [2] [5] demo_state0
           (fst (_applyPSF tape_draw demo_lens [2] [2] [5] demo_state0)) _ 1 1 0 0).
  - vm_compute. reflexivity.
  - vm_compute. reflexivity.
  - apply surjective_pairing.
  - intros x y [E | []]. inversion E; subst x y.
    intros (xi & yi & Ex & Ey & Hr & Hc).
    vm_compute in Ex. injection Ex as <-. lia.
Defined.


(** ** The quadrature of the PSF over a pixel *)

Lemma np_trapezoid_const d c (ys : list Q) :
  Forall (fun v => v == c) ys ->
  np_trapezoid d ys == d * c * inject_Z (Z.of_nat (Nat.pred (length ys))).
Proof.
  induction 1 as [|y0 tl Hy0 Htl IH]; [cbn; ring|].
  destruct tl as [|y1 tl]; [cbn; ring|].
  change (np_trapezoid d (y0 :: y1 :: tl))
    with (d * (y1 + y0) / 2 + np_trapezoid d (y1 :: tl)).
  rewrite IH. cbn [length Nat.pred]. inversion Htl as [|? ? Hy1 _]; subst.
  cbn beta in Hy0, Hy1. rewrite Hy0, Hy1.
  rewrite Nat2Z.inj_succ. unfold Z.succ. rewrite inject_Z_plus. field.
Qed.

Lemma np_linspace_length a b n : length (np_linspace a b n) = Z.to_nat n.
Proof.
  unfold np_linspace, np_arange. rewrite !length_map, length_seq. f_equal. lia.
Qed.

Lemma quad_samples_at_least_2 px_len res n : quad_samples px_len res = Ok n -> (2 <= n)%Z.
Proof.
  unfold quad_samples. destruct (int_ceil_div px_len res); intros H; inversion H. lia.
Qed.

(** X14.  For a PSF that is flat over the pixel, the double trapezoidal
    rule of [_applyPSF] is exact: with the sample counts and steps that
    the method computes, the integral over a pixel is the PSF value times
    [px_len_x * px_len_y], whatever the resolution and the pixel. *)
Theorem pixel_fraction_flat (s : Sensor) (lens : Lens) nx ny x y iy ix c :
  quad_samples (px_len_x s) (psf_resolution lens) = Ok nx ->
  quad_samples (px_len_y s) (psf_resolution lens) = Ok ny ->
  (forall X Y, psf lens X Y == c) ->
  pixel_fraction s lens nx ny (quad_step (px_len_x s) nx) (quad_step (px_len_y s) ny)
                 x y iy ix
    == c * (px_len_x s * px_len_y s).
Proof.
  intros Hnx Hny Hc.
  apply quad_samples_at_least_2 in Hnx, Hny.
  unfold pixel_fraction. cbv zeta.
  rewrite (np_trapezoid_const _ (quad_step (px_len_y s) ny * c * inject_Z (ny - 1))).
  - rewrite length_map, np_linspace_length. unfold quad_step.
    replace (Z.of_nat (Nat.pred (Z.to_nat nx))) with (nx - 1)%Z by lia.
    field. split; intros E;
      [change 0 with (inject_Z 0) in E; pose proof (proj1 (inject_Z_injective _ _) E); lia ..].
  - apply Forall_forall. intros v Hv. apply list_elem_of_In, in_map_iff in Hv as (X & <- & _).
    rewrite (np_trapezoid_const _ c).
    + rewrite length_map, np_linspace_length.
      replace (Z.of_nat (Nat.pred (Z.to_nat ny))) with (ny - 1)%Z by lia. reflexivity.
    + apply Forall_forall. intros v Hv. apply list_elem_of_In, in_map_iff in Hv as (Y & <- & _).
      apply Hc.
Qed.

Lemma pixel_fraction_flat_witness :
  pixel_fraction (demo_sensor 0 ∅) demo_lens 2 2 (quad_step 1 2) (quad_step 1 2) 2 2 1 2
    == (1 # 4) * (1 * 1).
Proof.
  apply (pixel_fraction_flat (demo_sensor 0 ∅) demo_lens 2 2 2 2 1 2 (1 # 4)).
  - vm_compute. reflexivity.
  - vm_compute. reflexivity.
  - intros X Y. reflexivity.
Defined.

(** ** A sensor one pixel wide or high *)

Lemma center_index_degenerate coord extent pitch len n_px :
  extent - 2 * pitch + len == 0 -> center_index coord extent pitch len n_px = Raise NonFinite.
Proof.
  intros H. unfold center_index, Qis_zero. cbv zeta.
  now rewrite (proj2 (Qeq_bool_iff _ _) H).
Qed.

Lemma center_index_outcome coord extent pitch len n_px :
  center_index coord extent pitch len n_px = Raise NonFinite \/
  exists k, center_index coord extent pitch len n_px = Ok k.
Proof. unfold center_index. cbv zeta. destruct (Qis_zero _); eauto. Qed.

Lemma int_ceil_div_outcome a b :
  int_ceil_div a b = Raise NonFinite \/ exists k, int_ceil_div a b = Ok k.
Proof. unfold int_ceil_div. destruct (Qis_zero _); eauto. Qed.

Lemma quad_samples_outcome a b :
  quad_samples a b = Raise NonFinite \/ exists k, quad_samples a b = Ok k.
Proof.
  unfold quad_samples. destruct (int_ceil_div_outcome a b) as [-> | [k ->]]; eauto.
Qed.

Section DegenerateFacts.
Context {rng : Type} (draw : Q -> rng -> nat * rng).

Lemma applyPSF_degenerate lens x xs y ys e es (w : Sensor * rng) :
  width (fst w) - 2 * px_pitch_x (fst w) + px_len_x (fst w) == 0 \/
  height (fst w) - 2 * px_pitch_y (fst w) + px_len_y (fst w) == 0 ->
  _applyPSF draw lens (x :: xs) (y :: ys) (e :: es) w = (Raise NonFinite, w).
Proof.
  intros Hdeg. unfold _applyPSF. rewrite bind_self, bind_lift.
  destruct (quad_samples_outcome (px_len_x (fst w)) (psf_resolution lens)) as [-> | [nx ->]];
    [reflexivity|].
  rewrite bind_lift.
  destruct (quad_samples_outcome (px_len_y (fst w)) (psf_resolution lens)) as [-> | [ny ->]];
    [reflexivity|].
  rewrite bind_lift.
  destruct (int_ceil_div_outcome (psf_bounds_x lens) (px_len_x (fst w))) as [-> | [bx ->]];
    [reflexivity|].
  rewrite bind_lift.
  destruct (int_ceil_div_outcome (psf_bounds_y lens) (px_len_y (fst w))) as [-> | [by_ ->]];
    [reflexivity|].
  cbn [for_sources]. apply bind_raise. unfold deposit_source. rewrite bind_self, bind_lift.
  destruct Hdeg as [Hx | Hy].
  - now rewrite (center_index_degenerate _ _ _ _ _ Hx).
  - destruct (center_index_outcome x (width (fst w)) (px_pitch_x (fst w))
                (px_len_x (fst w)) (width_px (fst w))) as [-> | [xi ->]]; [reflexivity|].
    now rewrite bind_lift, (center_index_degenerate _ _ _ _ _ Hy).
Qed.


End DegenerateFacts.


(** ** Whole electrons *)

Lemma same_config_full_well s s' : same_config s s' -> full_well s' = full_well s.
Proof. unfold same_config. intros <-. reflexivity. Qed.

Section IntegerFacts.
Context {rng : Type} (draw : Q -> rng -> nat * rng).

Lemma integer_plus_draws (p n : grid Q) :
  everywhere is_integer p -> everywhere is_integer n ->
  everywhere is_integer (grid_map2 Qplus p n).
Proof. apply (everywhere_grid_map2 is_integer is_integer). apply is_integer_plus. Qed.

Lemma keeps_integer_background_stage lens t bg :
  keeps (everywhere is_integer) (background_stage draw lens t bg).
Proof.
  intros w r w' H Hp. unfold background_stage in H. rewrite bind_self in H.
  bind_cases H.
  - apply poisson_sized_inv in H1 as [E Hns].
    destruct (Hns _ eq_refl) as (lams & _ & En).
    inv_pure H. cbn [fst pixels set_pixels].
    apply integer_plus_draws; [exact Hp|]. apply draws_grid_all. intros k. apply is_integer_inject.
  - apply poisson_sized_inv in H as [E _]. now rewrite E.
  - apply poisson_sized_inv in H as [E _]. now rewrite E.
Qed.

Lemma keeps_integer_dark_stage t temp :
  keeps (everywhere is_integer) (dark_stage draw t temp).
Proof.
  intros w r w' H Hp. unfold dark_stage in H. rewrite bind_self in H.
  bind_cases H.
  - apply poisson_grid_inv in H1 as [E Hns]. specialize (Hns _ eq_refl).
    inv_pure H. cbn [fst pixels set_pixels].
    apply integer_plus_draws; [exact Hp|]. apply draws_grid_all. intros k. apply is_integer_inject.
  - apply poisson_grid_inv in H as [E _]. now rewrite E.
  - apply poisson_grid_inv in H as [E _]. now rewrite E.
Qed.

Lemma integer_applyBloom fuel (w : Sensor * rng) r w' :
  is_integer (full_well (fst w)) -> everywhere is_integer (pixels (fst w)) ->
  _applyBloom fuel w = (r, w') -> everywhere is_integer (pixels (fst w')).
Proof.
  intros HF Hp H. unfold _applyBloom in H. rewrite bind_self in H.
  destruct (bool_decide (bloom (fst w) = ∅)).
  - inv_pure H. cbn [fst pixels set_pixels].
    apply (everywhere_grid_map_of is_integer); [|exact Hp].
    intros v Hv. now apply is_integer_min.
  - destruct (bloom_loop fuel _ _ _) as [p'|] eqn:E; inv_pure H; [|exact Hp].
    cbn [fst pixels set_pixels]. eapply integer_bloom_loop; eassumption.
Qed.

(** X16.  Charge stays in whole electrons: when [full_well] is a whole
    number and every pixel holds one, every pixel holds a whole number
    after [accumulate] and after [readout], whatever their outcome. *)
Theorem pixels_stay_whole
  fuel lens exposure_time temperature xcoords ycoords photon_flux_density
  background_flux (w : Sensor * rng) :
  is_integer (full_well (fst w)) ->
  everywhere is_integer (pixels (fst w)) ->
  (forall r w',
     accumulate draw fuel lens exposure_time temperature xcoords ycoords
                photon_flux_density background_flux w = (r, w') ->
     everywhere is_integer (pixels (fst w'))) /\
  (forall r w', readout draw w = (r, w') -> everywhere is_integer (pixels (fst w'))).
Proof.
  intros HF Hp. split; intros r w' H.
  - assert (Hsrc : keeps (everywhere is_integer)
                     (source_stage draw lens exposure_time xcoords ycoords
                                   photon_flux_density))
      by (apply keeps_source_stage_of; intros; apply keeps_integer_deposit_source).
    unfold accumulate in H. bind_cases H; [|exact (Hsrc _ _ _ H Hp) ..].
    pose proof (Hsrc _ _ _ H1 Hp) as Hp1.
    pose proof (frame_source_stage draw _ _ _ _ _ _ _ _ H1) as Hc1.
    bind_cases H; [|exact (keeps_integer_background_stage _ _ _ _ _ _ H Hp1) ..].
    pose proof (keeps_integer_background_stage _ _ _ _ _ _ H0 Hp1) as Hp2.
    pose proof (frame_background_stage draw _ _ _ _ _ _ H0) as Hc2.
    bind_cases H; [|exact (keeps_integer_dark_stage _ _ _ _ _ H Hp2) ..].
    pose proof (keeps_integer_dark_stage _ _ _ _ _ H2 Hp2) as Hp3.
    pose proof (frame_dark_stage draw _ _ _ _ _ H2) as Hc3.
    eapply integer_applyBloom; [|exact Hp3|exact H].
    rewrite (same_config_full_well _ _ Hc3), (same_config_full_well _ _ Hc2),
      (same_config_full_well _ _ Hc1). exact HF.
  - destruct w as [s g], w' as [s' g']. cbn [fst] in *.
    apply readout_effect in H as [_ [(-> & _) | (E & _)]]; [exact Hp|].
    rewrite E. apply integer_plus_draws; [exact Hp|].
    apply draws_grid_all. intros k. apply is_integer_inject.
Qed.

End IntegerFacts.

Lemma pixels_stay_whole_witness :
  everywhere is_integer (pixels (fst (snd (demo_accumulate 0 {["+x"]} (np_zeros 3 3))))).
Proof.
  refine (proj1 (pixels_stay_whole tape_draw 10 demo_lens 1 0 [2] [2] [5] (Arr0 1)
                   (set_pixels (demo_sensor 0 {["+x"]}) (np_zeros 3 3), demo_tape) _ _)
                _ _ (surjective_pairing _)).
  - exists 10%Z. reflexivity.
  - apply everywhere_repeat. exists 0%Z. reflexivity.
Defined.

(** ** [_applyBloom] on a sensor that is not saturated *)

Lemma Qmin_capped v F : v <= F -> Qmin v F = v.
Proof.
  intros Hle. unfold Qmin, GenericMinMax.gmin.
  destruct (v ?= F) eqn:E; try reflexivity.
  exfalso. apply Qgt_alt in E. lra.
Qed.

Lemma grid_map_capped (P : Q -> Prop) (f : Q -> Q) (a : grid Q) :
  (forall v, P v -> f v = v) -> everywhere P a -> grid_map f a = a.
Proof.
  intros Hf Ha. unfold grid_map, everywhere in *.
  induction Ha as [|row a Hrow _ IH]; [reflexivity|]. cbn [map]. rewrite IH. f_equal.
  induction Hrow as [|v row Hv _ IHr]; [reflexivity|]. cbn [map]. now rewrite IHr, Hf.
Qed.

Lemma set_pixels_same s : set_pixels s (pixels s) = s.
Proof. now destruct s. Qed.

Section BloomFixpoint.
Context {rng : Type}.

(** X17.  [_applyBloom] leaves a sensor with no pixel above [full_well]
    exactly as it is, whatever the [bloom] set: nothing is clipped and
    the loop is left at its first test. *)
Theorem applyBloom_unsaturated_unchanged fuel (w : Sensor * rng) :
  everywhere (fun v => v <= full_well (fst w)) (pixels (fst w)) ->
  _applyBloom (S fuel) w = (Ok tt, w).
Proof.
  intros Hle. unfold _applyBloom. rewrite bind_self.
  assert (Hw : (set_pixels (fst w) (pixels (fst w)), snd w) = w)
    by (rewrite set_pixels_same; now destruct w).
  destruct (bool_decide (bloom (fst w) = ∅)).
  - unfold assign_pixels.
    rewrite (grid_map_capped (fun v => v <= full_well (fst w))); [now rewrite Hw| |exact Hle].
    intros v Hv. now apply Qmin_capped.
  - cbn [bloom_loop]. rewrite (any_positive_false _ _ Hle). cbn [negb].
    unfold assign_pixels. now rewrite Hw.
Qed.

(** X18.  [_applyBloom] is idempotent: once it has returned, a second
    call returns with the sensor unchanged. *)
Theorem applyBloom_idempotent fuel fuel' (w w1 : Sensor * rng) :
  _applyBloom fuel w = (Ok tt, w1) -> _applyBloom (S fuel') w1 = (Ok tt, w1).
Proof.
  intros H.
  pose proof (same_config_full_well _ _ (frame__applyBloom fuel _ _ _ H)) as EF.
  pose proof (applyBloom_capped _ _ _ H) as Hcap. rewrite <- EF in Hcap.
  unfold _applyBloom. rewrite bind_self.
  assert (Hw : (set_pixels (fst w1) (pixels (fst w1)), snd w1) = w1)
    by (rewrite set_pixels_same; now destruct w1).
  destruct (bool_decide (bloom (fst w1) = ∅)).
  - unfold assign_pixels.
    rewrite (grid_map_capped (fun v => v <= full_well (fst w1))); [now rewrite Hw| |exact Hcap].
    intros v Hv. now apply Qmin_capped.
  - cbn [bloom_loop]. rewrite (any_positive_false _ _ Hcap). cbn [negb].
    unfold assign_pixels. now rewrite Hw.
Qed.

End BloomFixpoint.

Lemma applyBloom_unsaturated_unchanged_witness :
  everywhere (fun v => v <= 10) (np_zeros 3 3) /\
  _applyBloom 1 (demo_sensor 0 two_dirs, demo_tape) = (Ok tt, (demo_sensor 0 two_dirs, demo_tape)).
Proof.
  assert (H : everywhere (fun v => v <= 10) (np_zeros 3 3))
    by (apply everywhere_repeat; discriminate).
  split; [exact H|].
  exact (applyBloom_unsaturated_unchanged 0 (demo_sensor 0 two_dirs, demo_tape) H).
Defined.

Lemma applyBloom_idempotent_witness :
  _applyBloom 10 (set_pixels (demo_sensor 0 valid_bloom_dirs) demo_peak, demo_tape)
    = (Ok tt, (set_pixels (demo_sensor 0 valid_bloom_dirs)
                 [[0; 4; 0]; [4; 10; 4]; [0; 4; 0]], demo_tape)) /\
  _applyBloom 1 (set_pixels (demo_sensor 0 valid_bloom_dirs)
                   [[0; 4; 0]; [4; 10; 4]; [0; 4; 0]], demo_tape)
    = (Ok tt, (set_pixels (demo_sensor 0 valid_bloom_dirs)
                 [[0; 4; 0]; [4; 10; 4]; [0; 4; 0]], demo_tape)).
Proof.
  assert (H : _applyBloom 10 (set_pixels (demo_sensor 0 valid_bloom_dirs) demo_peak, demo_tape)
              = (Ok tt, (set_pixels (demo_sensor 0 valid_bloom_dirs)
                           [[0; 4; 0]; [4; 10; 4]; [0; 4; 0]], demo_tape)))
    by (vm_compute; reflexivity).
  split; [exact H|].
  exact (applyBloom_idempotent 10 0 _ _ H).
Defined.

(** ** [readout] *)

Section ReadoutInvariant.
Context {rng : Type} (draw : Q -> rng -> nat * rng).


End ReadoutInvariant.


Lemma readout_negative_read_noise_witness :
  read_noise demo_negative_noise < 0 /\
  readout tape_draw (demo_negative_noise, demo_tape)
    = (Raise ValueError_lam, (demo_negative_noise, demo_tape)).
Proof.
  assert (H : read_noise demo_negative_noise < 0) by (vm_compute; reflexivity).
  split; [exact H|].
  exact (readout_negative_read_noise tape_draw demo_negative_noise demo_tape H).
Defined.


(** ** The direction of bloom *)

Lemma capped_is_min F v : v - Qmax 0 (v - F) == Qmin v F.
Proof.
  destruct (Q.max_spec 0 (v - F)) as [[Hlt E] | [Hle E]]; rewrite E.
  - rewrite Q.min_r by lra. ring.
  - rewrite Q.min_l by lra. ring.
Qed.



(** ** Bloom never creates charge *)

Section QsumFacts.

Lemma qsum_le n (f g : Z -> Q) :
  (forall k, (0 <= k < Z.of_nat n)%Z -> f k <= g k) -> qsum n f <= qsum n g.
Proof.
  induction n as [|n IH]; intros H; cbn [qsum]; [apply Qle_refl|].
  apply Qplus_le_compat; [apply IH; intros k Hk; apply H; lia | apply H; lia].
Qed.

Lemma qsum_ext n (f g : Z -> Q) :
  (forall k, (0 <= k < Z.of_nat n)%Z -> f k == g k) -> qsum n f == qsum n g.
Proof.
  induction n as [|n IH]; intros H; cbn [qsum]; [reflexivity|].
  apply Qplus_comp; [apply IH; intros k Hk; apply H; lia | apply H; lia].
Qed.

Lemma qsum_plus n (f g : Z -> Q) :
  qsum n (fun k => f k + g k) == qsum n f + qsum n g.
Proof. induction n as [|n IH]; cbn [qsum]; [ring|]. rewrite IH. ring. Qed.

Lemma qsum_scale n c (f : Z -> Q) : qsum n (fun k => c * f k) == c * qsum n f.
Proof. induction n as [|n IH]; cbn [qsum]; [ring|]. rewrite IH. ring. Qed.

Lemma qsum_nonneg n (f : Z -> Q) : (forall k, 0 <= f k) -> 0 <= qsum n f.
Proof.
  intros H. induction n as [|n IH]; cbn [qsum]; [apply Qle_refl|].
  pose proof (H (Z.of_nat n)). lra.
Qed.

Lemma qsum_zero n (f : Z -> Q) : (forall k, f k == 0) -> qsum n f == 0.
Proof.
  intros H. induction n as [|n IH]; cbn [qsum]; [reflexivity|]. rewrite IH, H. ring.
Qed.

Lemma qsum_shift_down n (f : Z -> Q) :
  qsum n (fun k => f (k - 1)%Z) + f (Z.of_nat n - 1)%Z == f (-1)%Z + qsum n f.
Proof.
  induction n as [|n IH]; [cbn [qsum]; change (Z.of_nat 0 - 1)%Z with (-1)%Z; ring|].
  cbn [qsum]. replace (Z.of_nat (S n) - 1)%Z with (Z.of_nat n) by lia. lra.
Qed.

Lemma qsum_shift_up n (f : Z -> Q) :
  qsum n (fun k => f (k + 1)%Z) + f 0%Z == qsum n f + f (Z.of_nat n).
Proof.
  induction n as [|n IH]; [cbn [qsum]; change (Z.of_nat 0) with 0%Z; ring|].
  cbn [qsum]. replace (Z.of_nat (S n)) with (Z.of_nat n + 1)%Z by lia. lra.
Qed.

(** Charge moved one place up or down an axis, read with zero fill:
    the receivers hold no more than the senders held. *)
Lemma qsum_shift_down_le n (f : Z -> Q) :
  (forall k, 0 <= f k) -> f (-1)%Z == 0 -> qsum n (fun k => f (k - 1)%Z) <= qsum n f.
Proof.
  intros Hf H0. pose proof (qsum_shift_down n f). pose proof (Hf (Z.of_nat n - 1)%Z). lra.
Qed.

Lemma qsum_shift_up_le n (f : Z -> Q) :
  (forall k, 0 <= f k) -> f (Z.of_nat n) == 0 -> qsum n (fun k => f (k + 1)%Z) <= qsum n f.
Proof.
  intros Hf H0. pose proof (qsum_shift_up n f). pose proof (Hf 0%Z). lra.
Qed.

Lemma Qsum_qsum (l : list Q) : Qsum l == qsum (length l) (fun k => nth (Z.to_nat k) l 0).
Proof.
  induction l as [|x l IH]; [reflexivity|].
  change (Qsum (x :: l)) with (x + Qsum l). cbn [length].
  pose proof (qsum_shift_up (length l) (fun k => nth (Z.to_nat k) (x :: l) 0)) as Hs.
  cbn beta in Hs. change (nth (Z.to_nat 0) (x :: l) 0) with x in Hs.
  cbn [qsum].
  rewrite (qsum_ext _ _ (fun k => nth (Z.to_nat k) l 0)) in Hs.
  2:{ intros k Hk. replace (Z.to_nat (k + 1)) with (S (Z.to_nat k)) by lia. reflexivity. }
  lra.
Qed.

Lemma grid_total_qsum2 h w (p : grid Q) :
  shape_is h w p -> grid_total p == qsum2 h w (at2 p).
Proof.
  intros Hs. unfold grid_total, qsum2. rewrite Qsum_qsum, length_map.
  replace (length p) with h by (now destruct Hs).
  apply qsum_ext. intros i Hi.
  rewrite (nth_map_in Qsum p _ [] 0) by (destruct Hs; lia).
  rewrite Qsum_qsum, (shape_is_row h w p _ Hs) by lia.
  apply qsum_ext. intros j Hj. rewrite at2_inside by lia. reflexivity.
Qed.

Lemma qsum2_le h w (f g : Z -> Z -> Q) :
  (forall i j, inside h w i j -> f i j <= g i j) -> qsum2 h w f <= qsum2 h w g.
Proof.
  intros H. unfold qsum2. apply qsum_le. intros i Hi.
  apply qsum_le. intros j Hj. apply H. now split.
Qed.

Lemma qsum2_plus h w (f g : Z -> Z -> Q) :
  qsum2 h w (fun i j => f i j + g i j) == qsum2 h w f + qsum2 h w g.
Proof.
  unfold qsum2. rewrite <- qsum_plus. apply qsum_ext. intros i _. apply qsum_plus.
Qed.

Lemma qsum2_scale h w c (f : Z -> Z -> Q) :
  qsum2 h w (fun i j => c * f i j) == c * qsum2 h w f.
Proof.
  unfold qsum2. rewrite <- qsum_scale. apply qsum_ext. intros i _. apply qsum_scale.
Qed.

Lemma qsum2_nonneg h w (f : Z -> Z -> Q) : (forall i j, 0 <= f i j) -> 0 <= qsum2 h w f.
Proof. intros H. unfold qsum2. apply qsum_nonneg. intros i. now apply qsum_nonneg. Qed.

End QsumFacts.

Section ShiftedCharge.
Variables (h w : nat) (e : Z -> Z -> Q).
Hypothesis e_nonneg : forall i j, 0 <= e i j.
Hypothesis e_outside : forall i j, ~ inside h w i j -> e i j == 0.

Lemma shifted_pos_x : qsum2 h w (fun i j => e i (j - 1)%Z) <= qsum2 h w e.
Proof.
  unfold qsum2. apply qsum_le. intros i Hi.
  apply (qsum_shift_down_le w (e i)); [apply e_nonneg|].
  apply e_outside. unfold inside. lia.
Qed.

Lemma shifted_neg_x : qsum2 h w (fun i j => e i (j + 1)%Z) <= qsum2 h w e.
Proof.
  unfold qsum2. apply qsum_le. intros i Hi.
  apply (qsum_shift_up_le w (e i)); [apply e_nonneg|].
  apply e_outside. unfold inside. lia.
Qed.

Lemma shifted_pos_y : qsum2 h w (fun i j => e (i - 1)%Z j) <= qsum2 h w e.
Proof.
  unfold qsum2. apply (qsum_shift_down_le h (fun i => qsum w (fun j => e i j))).
  - intros i. apply qsum_nonneg. intros j. apply e_nonneg.
  - apply qsum_zero. intros j. apply e_outside. unfold inside. lia.
Qed.

Lemma shifted_neg_y : qsum2 h w (fun i j => e (i + 1)%Z j) <= qsum2 h w e.
Proof.
  unfold qsum2. apply (qsum_shift_up_le h (fun i => qsum w (fun j => e i j))).
  - intros i. apply qsum_nonneg. intros j. apply e_nonneg.
  - apply qsum_zero. intros j. apply e_outside. unfold inside. lia.
Qed.

End ShiftedCharge.

Section BloomCharge.
Variables (h w : nat) (bl : gset string) (F : Q).
Hypothesis Hne : bl <> ∅.

(** The kernel of [_applyBloom] hands out no more than the excess: its
    weights add up to at most one. *)
Lemma kernel_weights_le_1 :
  kernel_weight bl "-y" + kernel_weight bl "-x" + kernel_weight bl "+x" +
  kernel_weight bl "+y" <= 1.
Proof.
  pose proof (size_pos bl Hne) as Hk. pose proof (flags_le_size bl Hne) as Hfl.
  rewrite !kernel_weight_flag.
  assert (Hkq : 0 < inject_Z (Z.of_nat (size bl)))
    by (change 0 with (inject_Z 0); rewrite <- Zlt_Qlt; lia).
  set (kq := inject_Z (Z.of_nat (size bl))) in *.
  assert (E : inject_Z (dir_flag bl "-y") / kq + inject_Z (dir_flag bl "-x") / kq +
              inject_Z (dir_flag bl "+x") / kq + inject_Z (dir_flag bl "+y") / kq ==
              inject_Z (dir_flag bl "-y" + dir_flag bl "-x" + dir_flag bl "+x" +
                        dir_flag bl "+y") / kq).
  { rewrite !inject_Z_plus. field. intros E0. rewrite E0 in Hkq. apply (Qlt_irrefl 0 Hkq). }
  rewrite E. apply Qle_shift_div_r; [exact Hkq|]. rewrite Qmult_1_l.
  unfold kq. rewrite <- Zle_Qle. exact Hfl.
Qed.

Lemma bloom_step_total (p : grid Q) :
  shape_is h w p -> grid_total (bloom_step F (conv_filter bl) p) <= grid_total p.
Proof.
  intros Hs.
  rewrite (grid_total_qsum2 h w) by now apply shape_is_bloom_step.
  rewrite (grid_total_qsum2 h w p Hs).
  set (e := at2 (bloom_excess F p)).
  assert (He : forall i j, 0 <= e i j) by (intros; apply excess_nonneg).
  assert (Hout : forall i j, ~ inside h w i j -> e i j == 0).
  { intros i j Hn. unfold e. rewrite (at2_outside h w); [reflexivity| |exact Hn].
    now apply shape_is_bloom_excess. }
  apply Qle_trans with
    (qsum2 h w (fun i j => at2 p i j + (bloom_inflow bl e i j + (-1) * e i j))).
  { apply qsum2_le. intros i j [Hi Hj].
    rewrite (at2_inside _ i j), (at2_inside p i j) by lia.
    rewrite (cell_bloom_step h w) by (try assumption; lia).
    rewrite !Z2Nat.id by lia. fold e.
    assert (Ee : e i j = Qmax 0 (cell p (Z.to_nat i) (Z.to_nat j) - F)).
    { unfold e. rewrite <- (at2_excess_inside h w) by (try assumption; lia).
      now rewrite !Z2Nat.id by lia. }
    rewrite <- Ee. pose proof (Qfloor_le (bloom_inflow bl e i j)). lra. }
  rewrite qsum2_plus, qsum2_plus, qsum2_scale.
  assert (Hin : qsum2 h w (bloom_inflow bl e) <= qsum2 h w e).
  { unfold bloom_inflow. rewrite !qsum2_plus, !qsum2_scale.
    pose proof (shifted_neg_y h w e He Hout) as S1.
    pose proof (shifted_neg_x h w e He Hout) as S2.
    pose proof (shifted_pos_x h w e He Hout) as S3.
    pose proof (shifted_pos_y h w e He Hout) as S4.
    pose proof (qsum2_nonneg h w e He) as S0.
    pose proof kernel_weights_le_1 as Hk.
    pose proof (kernel_weight_nonneg bl "-y") as K1.
    pose proof (kernel_weight_nonneg bl "-x") as K2.
    pose proof (kernel_weight_nonneg bl "+x") as K3.
    pose proof (kernel_weight_nonneg bl "+y") as K4.
    set (k1 := kernel_weight bl "-y") in *. set (k2 := kernel_weight bl "-x") in *.
    set (k3 := kernel_weight bl "+x") in *. set (k4 := kernel_weight bl "+y") in *.
    set (T := qsum2 h w e) in *.
    apply Qle_trans with (k1 * T + k2 * T + k3 * T + k4 * T).
    - repeat apply Qplus_le_compat;
        (apply Qmult_le_l_weak || idtac).
      all: nra.
    - nra. }
  lra.
Qed.

Lemma bloom_loop_total fuel (p p' : grid Q) :
  shape_is h w p -> bloom_loop fuel F (conv_filter bl) p = Some p' ->
  grid_total p' <= grid_total p.
Proof.
  revert p. induction fuel as [|fuel IH]; intros p Hs; cbn [bloom_loop]; [discriminate|].
  destruct (negb (any_positive (bloom_excess F p))).
  - intros H; inversion H; subst. apply Qle_refl.
  - intros H. eapply Qle_trans; [apply IH; [|exact H]; now apply shape_is_bloom_step|].
    now apply bloom_step_total.
Qed.

End BloomCharge.

Lemma grid_total_min h w F (p : grid Q) :
  shape_is h w p -> grid_total (grid_map (fun v => Qmin v F) p) <= grid_total p.
Proof.
  intros Hs. rewrite (grid_total_qsum2 h w) by now apply shape_is_grid_map.
  rewrite (grid_total_qsum2 h w p Hs). apply qsum2_le. intros i j [Hi Hj].
  rewrite !at2_inside by lia. rewrite (cell_grid_map h w) by (try assumption; lia).
  apply Q.le_min_l.
Qed.

Section ChargeFacts.
Context {rng : Type}.


End ChargeFacts.


(** ** Sources imaged in one call or in two *)

Lemma bind_assoc {rng A B C} (m : @M rng A) (f : A -> @M rng B) (g : B -> @M rng C) w :
  bind (bind m f) g w = bind m (fun a => bind (f a) g) w.
Proof. unfold bind. destruct (m w) as [[a | e |] w1]; reflexivity. Qed.

Lemma bind_ext {rng A B} (m : @M rng A) (f g : A -> @M rng B) w :
  (forall a w1, f a w1 = g a w1) -> bind m f w = bind m g w.
Proof. intros H. unfold bind. destruct (m w) as [[a | e |] w1]; [apply H | reflexivity ..]. Qed.

Lemma for_sources_app {rng} (body : Q -> Q -> Q -> @M rng unit) xs1 ys1 es1 xs2 ys2 es2 w :
  length xs1 = length ys1 -> length ys1 = length es1 ->
  for_sources body (xs1 ++ xs2) (ys1 ++ ys2) (es1 ++ es2) w =
  bind (for_sources body xs1 ys1 es1) (fun _ => for_sources body xs2 ys2 es2) w.
Proof.
  revert ys1 es1 w. induction xs1 as [|x xs1 IH]; intros [|y ys1] [|e es1] w Hx Hy;
    try discriminate Hx; try discriminate Hy; [reflexivity|].
  cbn [app for_sources]. rewrite bind_assoc. apply bind_ext. intros _ w1.
  apply IH; [now injection Hx | now injection Hy].
Qed.

Section SplitFacts.
Context {rng : Type} (draw : Q -> rng -> nat * rng).

(** The sample counts and the window size are computed from the
    configuration alone: in every state of the same configuration
    [_applyPSF] fails before its loop, or it is the same loop. *)
Lemma applyPSF_body lens (w : Sensor * rng) :
  (forall xs ys es w1, same_config (fst w) (fst w1) ->
     _applyPSF draw lens xs ys es w1 = (Raise NonFinite, w1)) \/
  (exists nx ny dx dy bx by_,
     forall xs ys es w1, same_config (fst w) (fst w1) ->
       _applyPSF draw lens xs ys es w1 =
       for_sources (deposit_source draw lens nx ny dx dy bx by_) xs ys es w1).
Proof.
  assert (Hcfg : forall w1 : Sensor * rng, same_config (fst w) (fst w1) ->
            px_len_x (fst w1) = px_len_x (fst w) /\ px_len_y (fst w1) = px_len_y (fst w))
    by (intros w1 Hc; unfold same_config in Hc; rewrite <- Hc; split; reflexivity).
  assert (Hopen : forall xs ys es w1, same_config (fst w) (fst w1) ->
            _applyPSF draw lens xs ys es w1 =
            bind (lift (quad_samples (px_len_x (fst w)) (psf_resolution lens))) (fun nx =>
            bind (lift (quad_samples (px_len_y (fst w)) (psf_resolution lens))) (fun ny =>
            bind (lift (int_ceil_div (psf_bounds_x lens) (px_len_x (fst w)))) (fun bx =>
            bind (lift (int_ceil_div (psf_bounds_y lens) (px_len_y (fst w)))) (fun by_ =>
            for_sources (deposit_source draw lens nx ny (quad_step (px_len_x (fst w)) nx)
                           (quad_step (px_len_y (fst w)) ny) bx by_) xs ys es)))) w1).
  { intros xs ys es w1 Hc. destruct (Hcfg w1 Hc) as [Ex Ey].
    unfold _applyPSF. rewrite bind_self. cbv beta. now rewrite Ex, Ey. }
  destruct (quad_samples_outcome (px_len_x (fst w)) (psf_resolution lens)) as [E1 | [nx E1]];
    [left; intros xs ys es w1 Hc; now rewrite Hopen, bind_lift, E1 by exact Hc|].
  destruct (quad_samples_outcome (px_len_y (fst w)) (psf_resolution lens)) as [E2 | [ny E2]];
    [left; intros xs ys es w1 Hc; now rewrite Hopen, bind_lift, E1, bind_lift, E2 by exact Hc|].
  destruct (int_ceil_div_outcome (psf_bounds_x lens) (px_len_x (fst w))) as [E3 | [bx E3]];
    [left; intros xs ys es w1 Hc;
     now rewrite Hopen, bind_lift, E1, bind_lift, E2, bind_lift, E3 by exact Hc|].
  destruct (int_ceil_div_outcome (psf_bounds_y lens) (px_len_y (fst w))) as [E4 | [by_ E4]];
    [left; intros xs ys es w1 Hc;
     now rewrite Hopen, bind_lift, E1, bind_lift, E2, bind_lift, E3, bind_lift, E4
       by exact Hc|].
  right. exists nx, ny, (quad_step (px_len_x (fst w)) nx), (quad_step (px_len_y (fst w)) ny),
    bx, by_.
  intros xs ys es w1 Hc.
  now rewrite Hopen, bind_lift, E1, bind_lift, E2, bind_lift, E3, bind_lift, E4 by exact Hc.
Qed.

(** X23.  Imaging sources in one call of [_applyPSF] or in two gives the
    same result: when a first call with the sources [1] returns, the
    call with the sources [1] followed by the sources [2] ends as the
    second call with the sources [2] does from there; when the first
    call raises, so does the joint call, in the same state. *)
Theorem applyPSF_split lens xs1 ys1 es1 xs2 ys2 es2 (w w1 : Sensor * rng) :
  length xs1 = length ys1 -> length ys1 = length es1 ->
  (_applyPSF draw lens xs1 ys1 es1 w = (Ok tt, w1) ->
   _applyPSF draw lens (xs1 ++ xs2) (ys1 ++ ys2) (es1 ++ es2) w =
   _applyPSF draw lens xs2 ys2 es2 w1) /\
  (forall e, _applyPSF draw lens xs1 ys1 es1 w = (Raise e, w1) ->
   _applyPSF draw lens (xs1 ++ xs2) (ys1 ++ ys2) (es1 ++ es2) w = (Raise e, w1)).
Proof.
  intros Hx Hy.
  destruct (applyPSF_body lens w) as [Hr | (nx & ny & dx & dy & bx & by_ & Hb)].
  - split; [intros H1 | intros e H1]; rewrite Hr in * by apply same_config_refl;
      [discriminate H1 | exact H1].
  - split; [intros H1 | intros e H1];
      pose proof (frame__applyPSF draw _ _ _ _ _ _ _ H1) as Hc;
      rewrite Hb in * by apply same_config_refl;
      rewrite for_sources_app by assumption.
    + rewrite (bind_step _ _ _ _ _ H1). symmetry. now apply Hb.
    + now rewrite (bind_raise _ _ _ _ _ H1).
Qed.

End SplitFacts.

Lemma applyPSF_split_witness :
  _applyPSF tape_draw demo_lens [2] [2] [5] demo_state0
    = (Ok tt, (set_pixels (demo_sensor 0 ∅) [[0; 0; 0]; [0; 1; 2]; [0; 3; 4]],
               skipn 4 demo_tape)) /\
  _applyPSF tape_draw demo_lens ([2] ++ [0]) ([2] ++ [0]) ([5] ++ [4]) demo_state0 =
  _applyPSF tape_draw demo_lens [0] [0] [4]
            (set_pixels (demo_sensor 0 ∅) [[0; 0; 0]; [0; 1; 2]; [0; 3; 4]],
             skipn 4 demo_tape).
Proof.
  assert (H : _applyPSF tape_draw demo_lens [2] [2] [5] demo_state0
              = (Ok tt, (set_pixels (demo_sensor 0 ∅) [[0; 0; 0]; [0; 1; 2]; [0; 3; 4]],
                         skipn 4 demo_tape))) by (vm_compute; reflexivity).
  split; [exact H|].
  exact (proj1 (applyPSF_split tape_draw demo_lens [2] [2] [5] [0] [0] [4] _ _
                  eq_refl eq_refl) H).
Defined.
